(** * Arachnida spider: URL resolution, extraction and crawl traversal

    A shallow embedding of [arachnida-web/spider.cpp] (the C++ spider), with
    the extractor of its C port [arachnida-web/spider.c] next to it, and the
    properties of the crawling core stated over that embedding. *)

From Stdlib Require Import Ascii String NArith ZArith Bool Lia.
From stdpp Require Import base list gmap strings.

Local Open Scope nat_scope.

(* ================================================================== *)
(** * Characters: the <cctype> predicates in the "C" locale            *)
(* ================================================================== *)

Module Char.

Definition code (c : ascii) : N := N_of_ascii c.

Definition in_range (lo hi : N) (c : ascii) : bool :=
  ((lo <=? code c) && (code c <=? hi))%N.

(** [std::isspace]: space, \t, \n, \v, \f, \r. *)
Definition isspace (c : ascii) : bool :=
  in_range 9 13 c || (code c =? 32)%N.

Definition isdigit (c : ascii) : bool := in_range 48 57 c.
Definition isupper (c : ascii) : bool := in_range 65 90 c.
Definition islower (c : ascii) : bool := in_range 97 122 c.
Definition isalpha (c : ascii) : bool := isupper c || islower c.
Definition isalnum (c : ascii) : bool := isalpha c || isdigit c.

(** [std::tolower]. *)
Definition tolower (c : ascii) : ascii :=
  if isupper c then ascii_of_N (code c + 32) else c.

Definition eqb (a b : ascii) : bool := Ascii.eqb a b.

End Char.

Arguments Char.eqb : simpl never.
Arguments Char.isspace : simpl never.
Arguments Char.isdigit : simpl never.
Arguments Char.isalnum : simpl never.
Arguments Char.tolower : simpl never.

(* ================================================================== *)
(** * Strings: the helpers of the "Utils" block                        *)
(* ================================================================== *)

Module Str.

Fixpoint map (f : ascii -> ascii) (s : string) : string :=
  match s with
  | EmptyString => EmptyString
  | String c s' => String (f c) (map f s')
  end.

Fixpoint drop_while (p : ascii -> bool) (s : string) : string :=
  match s with
  | EmptyString => EmptyString
  | String c s' => if p c then drop_while p s' else s
  end.

Fixpoint take_while (p : ascii -> bool) (s : string) : string :=
  match s with
  | EmptyString => EmptyString
  | String c s' => if p c then String c (take_while p s') else EmptyString
  end.

Fixpoint rev_onto (s acc : string) : string :=
  match s with
  | EmptyString => acc
  | String c s' => rev_onto s' (String c acc)
  end.

Definition rev (s : string) : string := rev_onto s EmptyString.

Definition is_empty (s : string) : bool :=
  match s with EmptyString => true | _ => false end.

(** [s.front()] / [s[0]]; the terminating NUL when [s] is empty. *)
Definition front (s : string) : ascii :=
  match s with EmptyString => zero | String c _ => c end.

(** [s.back()]; on an empty [std::string] the read lands on the
    terminating NUL. *)
Definition back (s : string) : ascii := front (rev s).

Fixpoint mem (c : ascii) (s : string) : bool :=
  match s with
  | EmptyString => false
  | String d s' => Char.eqb c d || mem c s'
  end.

(** [u.substr(0, u.find_first_of(set))], the whole string on [npos]. *)
Definition cut_at_first_of (set : string) (s : string) : string :=
  take_while (fun c => negb (mem c set)) s.

(** The text after the last [c] of [s]; [None] when [find_last_of]
    returns [npos]. *)
Fixpoint after_last (c : ascii) (s : string) : option string :=
  match s with
  | EmptyString => None
  | String d s' =>
      match after_last c s' with
      | Some t => Some t
      | None => if Char.eqb d c then Some s' else None
      end
  end.

(** The text up to and including the last [c] of [s]. *)
Fixpoint upto_last (c : ascii) (s : string) : option string :=
  match s with
  | EmptyString => None
  | String d s' =>
      match upto_last c s' with
      | Some t => Some (String d t)
      | None => if Char.eqb d c then Some (String d EmptyString) else None
      end
  end.

(** [s.rfind(pref, 0) == 0]: [pref] is a prefix of [s]. *)
Fixpoint is_prefix (pref s : string) : bool :=
  match pref with
  | EmptyString => true
  | String a pref' =>
      match s with
      | EmptyString => false
      | String b s' => Char.eqb a b && is_prefix pref' s'
      end
  end.

Fixpoint join (sep : string) (l : list string) : string :=
  match l with
  | [] => EmptyString
  | [x] => x
  | x :: l' => x +:+ sep +:+ join sep l'
  end.

End Str.

(** [to_lower], [starts_with] and [trim] of spider.cpp. *)
Definition to_lower (s : string) : string := Str.map Char.tolower s.

Definition starts_with (s pref : string) : bool := Str.is_prefix pref s.

Definition trim (s : string) : string :=
Str.rev (Str.drop_while Char.isspace (Str.rev (Str.drop_while Char.isspace s))).

(* ================================================================== *)
(** * Regular expressions                                              *)
(* ================================================================== *)

(** The patterns of the program are kept as syntax trees and run by a
  backtracking matcher that lists every way a pattern matches at a
  position, most preferred first (greedy repetition, left alternative
  first).  [std::regex] in its ECMAScript grammar takes the first entry of
  that list; POSIX [regexec] takes the longest one. *)

Module Regex.

Inductive regex : Type :=
| Eps
| Chr (p : ascii -> bool)
| Seq (r1 r2 : regex)
| Alt (r1 r2 : regex)
| Star (r : regex)
| Group (n : nat) (r : regex)
| Bol
| Eol
| WordB.

Record mstate : Type := MState {
  ms_prev : option ascii;          (* the character before the position *)
  ms_rest : string;                (* the input from the position on *)
  ms_caps : list (nat * string)    (* capture groups that took part *)
}.

Definition is_word (c : ascii) : bool :=
  Char.isalnum c || Char.eqb c "_"%char.

Definition word_before (st : mstate) : bool :=
  match ms_prev st with Some c => is_word c | None => false end.

Definition word_after (st : mstate) : bool :=
  match ms_rest st with String c _ => is_word c | EmptyString => false end.

(** The text between two positions of one input. *)
Definition consumed (st st' : mstate) : string :=
  String.substring 0 (String.length (ms_rest st) - String.length (ms_rest st'))
                   (ms_rest st).

Definition set_cap (n : nat) (st st' : mstate) : mstate :=
  MState (ms_prev st') (ms_rest st') ((n, consumed st st') :: ms_caps st').

Definition progress (st st' : mstate) : bool :=
  String.length (ms_rest st') <? String.length (ms_rest st).

Fixpoint star_loop (step : mstate -> list mstate) (fuel : nat) (st : mstate)
  : list mstate :=
  match fuel with
  | 0 => [st]
  | S fuel' =>
      flat_map (fun st' => if progress st st' then star_loop step fuel' st' else [])
               (step st) ++ [st]
  end.

Fixpoint matchR (r : regex) (st : mstate) : list mstate :=
  match r with
  | Eps => [st]
  | Chr p =>
      match ms_rest st with
      | String c s' => if p c then [MState (Some c) s' (ms_caps st)] else []
      | EmptyString => []
      end
  | Seq r1 r2 => flat_map (matchR r2) (matchR r1 st)
  | Alt r1 r2 => matchR r1 st ++ matchR r2 st
  | Star r1 => star_loop (matchR r1) (String.length (ms_rest st)) st
  | Group n r1 => List.map (set_cap n st) (matchR r1 st)
  | Bol => match ms_prev st with None => [st] | Some _ => [] end
  | Eol => match ms_rest st with EmptyString => [st] | _ => [] end
  | WordB => if xorb (word_before st) (word_after st) then [st] else []
  end.

(** Derived forms. *)
Definition Plus (r : regex) : regex := Seq r (Star r).
Definition Opt (r : regex) : regex := Alt r Eps.

Definition chr (c : ascii) : regex := Chr (Char.eqb c).
(** A literal character under [icase]. *)
Definition chr_ci (c : ascii) : regex :=
  Chr (fun d => Char.eqb (Char.tolower d) (Char.tolower c)).

Fixpoint lit (s : string) : regex :=
  match s with
  | EmptyString => Eps
  | String c s' => Seq (chr c) (lit s')
  end.

Fixpoint lit_ci (s : string) : regex :=
  match s with
  | EmptyString => Eps
  | String c s' => Seq (chr_ci c) (lit_ci s')
  end.

(** [\s] and [[:space:]]. *)
Definition space : regex := Chr Char.isspace.
(** [.] of the ECMAScript grammar: anything but a line terminator. *)
Definition dot : regex :=
  Chr (fun c => negb (Char.eqb c "010"%char || Char.eqb c "013"%char)).
(** [[^...]] over a set of characters. *)
Definition none_of (set : string) : regex := Chr (fun c => negb (Str.mem c set)).

Definition cap (n : nat) (st : mstate) : option string :=
  snd <$> List.find (fun kv => fst kv =? n) (ms_caps st).

Definition start (prev : option ascii) (s : string) : mstate := MState prev s [].

(** [std::regex_match]: the first way of matching that uses the whole
    input. *)
Definition regex_match (r : regex) (s : string) : option mstate :=
  List.find (fun st => Str.is_empty (ms_rest st)) (matchR r (start None s)).

End Regex.

(** ** Searching, the ECMAScript way ([std::regex_search], [std::sregex_iterator]) *)

Module Ecma.
Import Regex.

(** One match: its text and the state it ends in (position and captures). *)
Definition rmatch : Type := (string * mstate)%type.

Definition first_at (r : regex) (prev : option ascii) (s : string) : option rmatch :=
  match matchR r (start prev s) with
  | st' :: _ => Some (consumed (start prev s) st', st')
  | [] => None
  end.

(** [regex_search]: the leftmost position that has a match, and there the
    preferred one. *)
Fixpoint search (r : regex) (prev : option ascii) (s : string) : option rmatch :=
  match first_at r prev s with
  | Some m => Some m
  | None =>
      match s with
      | EmptyString => None
      | String c s' => search r (Some c) s'
      end
  end.

(** [match_not_null | match_continuous]: the preferred non-empty match at
    the position itself. *)
Definition first_nonempty_at (r : regex) (prev : option ascii) (s : string)
  : option rmatch :=
  (fun st' => (consumed (start prev s) st', st')) <$>
  List.find (progress (start prev s)) (matchR r (start prev s)).

(** [sregex_iterator]: every match, each search resuming where the last
    match ended; after an empty match the iterator first looks for a
    non-empty match at the same place and otherwise moves on by one
    character. *)
Fixpoint iterate (fuel : nat) (r : regex) (prev : option ascii) (s : string)
  : list rmatch :=
  match fuel with
  | 0 => []
  | S fuel' =>
      match search r prev s with
      | None => []
      | Some (txt, st') =>
          if Str.is_empty txt then
            match ms_rest st' with
            | EmptyString => [(txt, st')]
            | String c rest' =>
                match first_nonempty_at r (ms_prev st') (ms_rest st') with
                | Some (txt2, st2) =>
                    (txt, st') :: (txt2, st2)
                      :: iterate fuel' r (ms_prev st2) (ms_rest st2)
                | None => (txt, st') :: iterate fuel' r (Some c) rest'
                end
            end
          else (txt, st') :: iterate fuel' r (ms_prev st') (ms_rest st')
      end
  end.

Definition all_matches (r : regex) (s : string) : list rmatch :=
  iterate (S (String.length s)) r None s.

End Ecma.

(* ================================================================== *)
(** * URL parsing and joining                                          *)
(* ================================================================== *)

Record UrlParts : Type := mkUrlParts {
  scheme : string;   (* http or https *)
  host : string;     (* example.com:8080 *)
  path : string      (* /a/b/index.html *)
}.

Module Pat.
Import Regex.

Declare Scope regex_scope.
Delimit Scope regex_scope with re.
Infix "⋅" := Seq (at level 41, right associativity) : regex_scope.
Local Open Scope regex_scope.

(** The pattern of [parse_url], icase (blanks added between its parts):
    [^ \s* (https?) :// ([^/]+) (/.* )? \s* $]. *)
Definition url : regex :=
  Bol ⋅ Star space
      ⋅ Group 1 (lit_ci "http" ⋅ Opt (chr_ci "s"%char))
      ⋅ lit "://"
      ⋅ Group 2 (Plus (none_of "/"))
      ⋅ Opt (Group 3 (chr "/"%char ⋅ Star dot))
      ⋅ Star space ⋅ Eol.

(** The pattern of [extract_attr_urls], icase, with dq and sq for the double
    and the single quote: [attrName \s* = \s* ( dq([^dq]* )dq | sq([^sq]* )sq | ([^\s>]+) )].
    The attribute name is pasted into the pattern and is a plain word at
    both call sites. *)
Definition dquote : ascii := "034"%char.
Definition squote : ascii := "039"%char.

Definition attr (attrName : string) : regex :=
  lit_ci attrName ⋅ Star space ⋅ chr "="%char ⋅ Star space
    ⋅ Group 1
        (Alt (chr dquote ⋅ Group 2 (Star (Chr (fun c => negb (Char.eqb c dquote)))) ⋅ chr dquote)
        (Alt (chr squote ⋅ Group 3 (Star (Chr (fun c => negb (Char.eqb c squote)))) ⋅ chr squote)
             (Group 4 (Plus (Chr (fun c => negb (Char.isspace c || Char.eqb c ">"%char))))))).

(** The tag pattern, icase: [< \s* tag \b [^>]* >]. *)
Definition tag (tagName : string) : regex :=
  chr "<"%char ⋅ Star space ⋅ lit_ci tagName ⋅ WordB ⋅ Star (none_of ">") ⋅ chr ">"%char.

End Pat.

Definition parse_url (url : string) : option UrlParts :=
  match Regex.regex_match Pat.url url with
  | None => None
  | Some m =>
      let p_scheme := to_lower (default "" (Regex.cap 1 m)) in
      let p_host := default "" (Regex.cap 2 m) in
      let p_path := match Regex.cap 3 m with Some p => p | None => "/" end in
      Some (mkUrlParts p_scheme p_host
              (if Str.is_empty p_path then "/" else p_path))
  end.

Definition url_base_dir (base : UrlParts) : string :=
  let path0 := path base in
  if Str.is_empty path0 then "/" else
  let path1 := Str.cut_at_first_of "?#" path0 in
  if Char.eqb (Str.back path1) "/"%char then path1 else
  match Str.upto_last "/"%char path1 with
  | None => "/"
  | Some dir => dir
  end.

Definition normalize_url (url : string) : string := trim url.

(** The first loop of the relative branch: cut [combined] at every [/],
    keeping the non-empty pieces. *)
Definition split_step (acc : list string * string) (c : ascii)
  : list string * string :=
  let '(parts, tmp) := acc in
  if Char.eqb c "/"%char then
    if Str.is_empty tmp then (parts, tmp) else (parts ++ [tmp], EmptyString)
  else (parts, tmp +:+ String c EmptyString).

Fixpoint split_loop (combined : string) (acc : list string * string)
  : list string * string :=
  match combined with
  | EmptyString => acc
  | String c rest => split_loop rest (split_step acc c)
  end.

Definition path_parts (combined : string) : list string :=
  let '(parts, tmp) := split_loop combined ([], EmptyString) in
  if Str.is_empty tmp then parts else parts ++ [tmp].

(** The second loop: [.] and empty pieces are skipped, [..] pops. *)
Definition norm_step (norm : list string) (seg : string) : list string :=
  if String.eqb seg "." || Str.is_empty seg then norm
  else if String.eqb seg ".." then
    (match norm with [] => norm | _ => removelast norm end)
  else norm ++ [seg].

Definition norm_parts (parts : list string) : list string :=
  fold_left norm_step parts [].

Definition join_url (base : UrlParts) (href : string) : string :=
  let h := normalize_url href in
  if Str.is_empty h then "" else
  let hl := to_lower h in
  if starts_with hl "javascript:" || starts_with hl "mailto:" then "" else
  if Char.eqb (Str.front h) "#"%char then "" else
  if starts_with hl "http://" || starts_with hl "https://" then h else
  if starts_with h "//" then scheme base +:+ ":" +:+ h else
  if starts_with h "/" then scheme base +:+ "://" +:+ host base +:+ h else
  let dir := url_base_dir base in
  let combined := dir +:+ h in
  let norm := norm_parts (path_parts combined) in
  let out := "/" +:+ Str.join "/" norm in
  scheme base +:+ "://" +:+ host base +:+ out.

(* ================================================================== *)
(** * HTML extraction (spider.cpp)                                     *)
(* ================================================================== *)

(** The value of one attribute match: group 2, else 3, else 4. *)
Definition attr_value (m : Regex.mstate) : string :=
  match Regex.cap 2 m with
  | Some v => v
  | None =>
      match Regex.cap 3 m with
      | Some v => v
      | None => default "" (Regex.cap 4 m)
      end
  end.

Definition push_trimmed (out : list string) (v : string) : list string :=
  let v' := trim v in
  if Str.is_empty v' then out else out ++ [v'].

Definition extract_attr_urls (html attrName : string) : list string :=
  fold_left (fun out m => push_trimmed out (attr_value (snd m)))
            (Ecma.all_matches (Pat.attr attrName) html) [].

Definition extract_in_tags (tagName attrName html : string) : list string :=
  fold_left (fun out m => out ++ extract_attr_urls (fst m) attrName)
            (Ecma.all_matches (Pat.tag tagName) html) [].

Definition extract_img_srcs (html : string) : list string :=
  extract_in_tags "img" "src" html.

Definition extract_a_hrefs (html : string) : list string :=
  extract_in_tags "a" "href" html.

(* ================================================================== *)
(** * Image filters                                                    *)
(* ================================================================== *)

(** [u.size() >= e.size() && u.compare(u.size() - e.size(), e.size(), e) == 0] *)
Definition ends_with (u e : string) : bool :=
  (String.length e <=? String.length u)
  && String.eqb (String.substring (String.length u - String.length e)
                                  (String.length e) u) e.

Definition image_exts : list string := [".jpg"; ".jpeg"; ".png"; ".gif"; ".bmp"].

Definition is_image_url (url : string) : bool :=
  let u := Str.cut_at_first_of "?#" (to_lower url) in
  existsb (ends_with u) image_exts.

Definition safe_char (c : ascii) : ascii :=
  if Char.isalnum c || Char.eqb c "."%char || Char.eqb c "_"%char
     || Char.eqb c "-"%char
  then c else "_"%char.

Definition filename_from_url (url : string) : string :=
  let u := Str.cut_at_first_of "?#" url in
  match Str.after_last "/"%char u with
  | None => "image.bin"
  | Some name =>
      if Str.is_empty name then "image.bin" else Str.map safe_char name
  end.

(* ================================================================== *)
(** * Spider core                                                      *)
(* ================================================================== *)

Record Options : Type := mkOptions {
  recursive : bool;
  max_depth : Z;          (* used only if recursive *)
  out_dir : string
}.

Definition default_options : Options := mkOptions false 0 "./data".

(** [opt.out_dir / name] for a name without a slash. *)
Definition path_join (dir name : string) : string :=
  if Str.is_empty dir then name
  else if Char.eqb (Str.back dir) "/"%char then dir +:+ name
  else dir +:+ "/" +:+ name.

(** What the run does to the outside, in order: page fetches, image
    downloads, and the calls the link pass makes to [crawl]. *)
Inductive event : Type :=
| EvFetch (url : string) (ok : bool)
| EvDownload (url out_path : string) (ok : bool)
| EvFollow (referrer next : string).

(** The URLs of the page fetches of a trace, in order. *)
Definition fetched_urls (tr : list event) : list string :=
  omap (fun e => match e with EvFetch u _ => Some u | _ => None end) tr.

(** The number of image downloads of a trace that succeeded. *)
Definition successful_downloads (tr : list event) : nat :=
  length (List.filter (fun e => match e with EvDownload _ _ ok => ok | _ => false end) tr).

Section Crawl.

(** The transport and storage collaborators (libcurl, the file system): a
    world that answers each request and moves on. *)
Context {World : Type}.
Variable http_get_text : World -> string -> World * option string.
Variable http_download_file : World -> string -> string -> World * bool.
Variable create_directories : World -> string -> World * bool.

Record State : Type := mkState {
  visited_pages : gset string;
  downloaded_images : gset string;
  world : World;
  trace : list event
}.

Definition init_state (w : World) : State := mkState ∅ ∅ w [].

(** One turn of the image loop of [Spider::crawl]. *)
Definition image_step (opt : Options) (parts : UrlParts) (st : State) (src : string)
  : State :=
  let imgUrl := join_url parts src in
  if Str.is_empty imgUrl then st else
  if negb (is_image_url imgUrl) then st else
  if decide (imgUrl ∈ downloaded_images st) then st else
  let out_path := path_join (out_dir opt) (filename_from_url imgUrl) in
  let '(w, ok) := http_download_file (world st) imgUrl out_path in
  mkState (visited_pages st) ({[imgUrl]} ∪ downloaded_images st) w
          (trace st ++ [EvDownload imgUrl out_path ok]).

(** One turn of the link loop, [recur] being the call [crawl(nextUrl,
    depth_left - 1)]. *)
Definition link_step (url : string) (parts : UrlParts)
    (recur : string -> State -> State) (st : State) (href : string) : State :=
  let nextUrl := join_url parts href in
  if Str.is_empty nextUrl then st else
  match parse_url nextUrl with
  | None => st
  | Some nextParts =>
      if negb (String.eqb (to_lower (host nextParts)) (to_lower (host parts)))
      then st
      else recur nextUrl
             (mkState (visited_pages st) (downloaded_images st) (world st)
                      (trace st ++ [EvFollow url nextUrl]))
  end.

(** The body of [Spider::crawl], [recur] standing for the recursive call
    [crawl(nextUrl, depth_left - 1)] of the link loop. *)
Definition crawl_body (recur : string -> State -> State) (opt : Options)
    (url : string) (depth_left : Z) (st : State) : State :=
  if Str.is_empty url then st else
  match parse_url url with
  | None => st
  | Some parts =>
      (* avoid revisiting *)
      if decide (url ∈ visited_pages st) then st else
      let st0 := mkState ({[url]} ∪ visited_pages st) (downloaded_images st)
                         (world st) (trace st) in
      let '(w, res) := http_get_text (world st0) url in
      let st1 := mkState (visited_pages st0) (downloaded_images st0) w
                         (trace st0 ++ [EvFetch url (bool_decide (is_Some res))]) in
      match res with
      | None => st1
      | Some html =>
          (* extract and download images *)
          let st2 := fold_left (image_step opt parts) (extract_img_srcs html) st1 in
          (* recurse into links if enabled *)
          if negb (recursive opt) then st2 else
          if (depth_left <=? 0)%Z then st2 else
          fold_left (link_step url parts recur) (extract_a_hrefs html) st2
      end
  end.

(** [Spider::crawl].  Each recursive call lowers [depth_left] by one and
    none is made once it is zero or less; [fuel] carries that measure. *)
Fixpoint crawl_fuel (fuel : nat) (opt : Options) (url : string) (depth_left : Z)
    (st : State) : State :=
  crawl_body
    (match fuel with
     | 0 => fun _ st' => st'
     | S fuel' => fun nextUrl => crawl_fuel fuel' opt nextUrl (depth_left - 1)
     end)
    opt url depth_left st.

Definition crawl (opt : Options) (url : string) (depth_left : Z) (st : State)
  : State :=
  crawl_fuel (Z.to_nat depth_left) opt url depth_left st.

(** The effects a crawl is made of, one at a time: a page is claimed and
    fetched, an image is claimed and downloaded, a link is followed. *)
Inductive step : State -> State -> Prop :=
| step_fetch st url parts w res :
    parse_url url = Some parts ->
    url ∉ visited_pages st ->
    http_get_text (world st) url = (w, res) ->
    step st (mkState ({[url]} ∪ visited_pages st) (downloaded_images st) w
                     (trace st ++ [EvFetch url (bool_decide (is_Some res))]))
| step_download st imgUrl out_path w ok :
    imgUrl ∉ downloaded_images st ->
    is_image_url imgUrl = true ->
    http_download_file (world st) imgUrl out_path = (w, ok) ->
    step st (mkState (visited_pages st) ({[imgUrl]} ∪ downloaded_images st) w
                     (trace st ++ [EvDownload imgUrl out_path ok]))
| step_follow st url parts nextUrl nextParts :
    parse_url url = Some parts ->
    parse_url nextUrl = Some nextParts ->
    to_lower (host nextParts) = to_lower (host parts) ->
    step st (mkState (visited_pages st) (downloaded_images st) (world st)
                     (trace st ++ [EvFollow url nextUrl])).

(** ** Command line and [main] *)

Definition is_number (s : string) : bool :=
  negb (Str.is_empty s) && Str.is_empty (Str.drop_while Char.isdigit s).

Definition INT_MAX : Z := 2147483647.

Fixpoint digits_value (s : string) (acc : Z) : Z :=
  match s with
  | EmptyString => acc
  | String c s' => digits_value s' (10 * acc + (Z.of_N (Char.code c) - 48))%Z
  end.

(** [std::stoi] on a string of digits; [None] when it throws
    [std::out_of_range]. *)
Definition stoi (n : string) : option Z :=
  let v := digits_value n 0 in
  if (v <=? INT_MAX)%Z then Some v else None.

Inductive parsed : Type :=
| ArgExit (code : Z)
| ArgUncaught
| ArgOk (opt : Options) (url : string).

Fixpoint parse_args (args : list string) (opt : Options) (url : string) : parsed :=
  match args with
  | [] => ArgOk opt url
  | a :: rest =>
      if String.eqb a "-r" then
        parse_args rest (mkOptions true (max_depth opt) (out_dir opt)) url
      else if String.eqb a "-l" then
        match rest with
        | [] => ArgExit 1
        | n :: rest' =>
            if negb (is_number n) then ArgExit 1 else
            match stoi n with
            | None => ArgUncaught
            | Some v => parse_args rest' (mkOptions (recursive opt) v (out_dir opt)) url
            end
        end
      else if String.eqb a "-p" then
        match rest with
        | [] => ArgExit 1
        | dir :: rest' =>
            parse_args rest' (mkOptions (recursive opt) (max_depth opt) dir) url
        end
      else if String.eqb a "-h" || String.eqb a "--help" then ArgExit 0
      else parse_args rest opt a
  end.

(** The depth default applied after the argument loop. *)
Definition apply_default_depth (opt : Options) : Options :=
  if recursive opt && (max_depth opt =? 0)%Z
  then mkOptions (recursive opt) 5 (out_dir opt)
  else opt.

(** How a run of [main] ends: an exit code before any crawling, an
    uncaught exception, or a completed crawl with the depth it was started
    with and the two counts of the closing summary on the diagnostic
    stream. *)
Inductive outcome : Type :=
| Exited (code : Z)
| Uncaught
| Done (depth : Z) (final : State) (visited_count downloaded_count : nat).

Definition main (w : World) (args : list string) : outcome :=
  match parse_args args default_options "" with
  | ArgExit c => Exited c
  | ArgUncaught => Uncaught
  | ArgOk opt0 url =>
      if Str.is_empty url then Exited 1 else
      let opt := apply_default_depth opt0 in
      let '(w1, ok) := create_directories w (out_dir opt) in
      if negb ok then Exited 1 else
      match parse_url url with
      | None => Exited 1
      | Some _ =>
          let depth := if recursive opt then max_depth opt else 0%Z in
          let s := crawl opt url depth (init_state w1) in
          Done depth s (size (visited_pages s)) (size (downloaded_images s))
      end
  end.

End Crawl.

Arguments State : clear implicits.

(* ================================================================== *)
(** * The extractor of the C port (spider.c)                           *)
(* ================================================================== *)

(** POSIX [regexec] on an extended pattern: the leftmost position that has
    a match, and there the longest one (the preferred one among equally
    long ones). *)
Module Posix.
Import Regex.

Definition longer (best : option mstate) (st : mstate) : option mstate :=
  match best with
  | None => Some st
  | Some b =>
      if String.length (ms_rest st) <? String.length (ms_rest b)
      then Some st else Some b
  end.

Definition longest (l : list mstate) : option mstate := fold_left longer l None.

(** The result of [regexec]: the offset [rm_so] of the match, its text, and
    the state at [rm_eo]. *)
Fixpoint regexec_from (r : regex) (prev : option ascii) (s : string) (so : nat)
  : option (nat * string * mstate) :=
  match longest (matchR r (start prev s)) with
  | Some st' => Some (so, consumed (start prev s) st', st')
  | None =>
      match s with
      | EmptyString => None
      | String c s' => regexec_from r (Some c) s' (S so)
      end
  end.

Definition regexec (r : regex) (s : string) : option (nat * string * mstate) :=
  regexec_from r None s 0.

End Posix.

Module C.

(** A [const char*] argument ends at its first NUL. *)
Definition c_str (s : string) : string :=
  Str.take_while (fun c => negb (Char.eqb c zero)) s.

Definition ltrim (s : string) : string := Str.drop_while Char.isspace s.
Definition rtrim (s : string) : string :=
  Str.rev (Str.drop_while Char.isspace (Str.rev s)).

(** The value taken from one tag: only the first match of the attribute
    pattern is looked at; group 2, 3 or 4 must be set and non-empty. *)
Definition tag_attr_value (attr tag : string) : list string :=
  match Posix.regexec (Pat.attr attr) tag with
  | None => []
  | Some (_, _, m) =>
      let val :=
        match Regex.cap 2 m with
        | Some v => Some v
        | None =>
            match Regex.cap 3 m with
            | Some v => Some v
            | None => Regex.cap 4 m
            end
        end in
      match val with
      | None => []
      | Some v =>
          if Str.is_empty v then [] else
          let ss := rtrim (ltrim v) in
          if Str.is_empty ss then [] else [ss]
      end
  end.

(** The [while (regexec(&tagre, p, ...) == 0)] loop; [p] moves past each
    tag found. *)
Fixpoint tag_loop (fuel : nat) (tagname attr : string) (p : string) (out : list string)
  : list string :=
  match fuel with
  | 0 => out
  | S fuel' =>
      match Posix.regexec (Pat.tag tagname) p with
      | None => out
      | Some (so, tag, m) =>
          if Str.is_empty tag then out else
          tag_loop fuel' tagname attr (Regex.ms_rest m) (out ++ tag_attr_value attr tag)
      end
  end.

Definition extract_tag_attrs (html tagname attr : string) (out : list string)
  : list string :=
  let p := c_str html in
  tag_loop (S (String.length p)) tagname attr p out.

End C.

(* ================================================================== *)
(** * The specification's wording of path normalization                *)
(* ================================================================== *)

Module Spec.

(** Split on a separator, empty pieces included. *)
Fixpoint split_on (sep : ascii) (s : string) : list string :=
  match s with
  | EmptyString => [EmptyString]
  | String c s' =>
      if Char.eqb c sep then EmptyString :: split_on sep s'
      else
        match split_on sep s' with
        | x :: l => String c x :: l
        | [] => [String c EmptyString]
        end
  end.

(** Drop empty and [.] segments; [..] pops the last retained segment if
    there is one; anything else is retained. *)
Definition retain (stack : list string) (seg : string) : list string :=
  if decide (seg = "" ∨ seg = ".") then stack
  else if decide (seg = "..") then removelast stack
  else stack ++ [seg].

Definition normalize (segs : list string) : list string :=
  fold_left retain segs [].

(** Rejoin with [/], prefixed by a leading [/]. *)
Definition rejoin (segs : list string) : string := "/" +:+ Str.join "/" segs.

Definition normalize_path (p : string) : string :=
  rejoin (normalize (split_on "/" p)).

(** The directory of a base path: the part up to and including its last
    [/], or [/] if it has none, any [?]/[#] suffix being dropped first. *)
Definition base_directory (p : string) : string :=
  default "/" (Str.upto_last "/" (Str.cut_at_first_of "?#" p)).

(** A reference that is already absolute. *)
Definition is_absolute (href : string) : bool :=
  starts_with (to_lower href) "http://" || starts_with (to_lower href) "https://".

(** The reference with the letters of its scheme (the text before the
    first colon) in lower case. *)
Fixpoint lower_scheme (href : string) : string :=
  match href with
  | EmptyString => EmptyString
  | String c rest =>
      if Char.eqb c ":" then href else String (Char.tolower c) (lower_scheme rest)
  end.

End Spec.

(** ** Auxiliary notions for the proofs about the splitting loop *)

Definition hd_app (tmp : string) (l : list string) : list string :=
  match l with
  | x :: l' => (tmp +:+ x) :: l'
  | [] => [tmp]
  end.

Definition nonempty (s : string) : bool := negb (Str.is_empty s).

Definition finish_split (acc : list string * string) : list string :=
  if Str.is_empty (snd acc) then fst acc else fst acc ++ [snd acc].



(** ** A small web, for running the crawl *)

Module Sample.

Definition home : string :=
  "<img src=http://cdn.y.com/logo.png><a href=/b>b</a><a href=http://sub.x.com/c>c</a><a href=/>home</a>".

Definition page_b : string := "<a href=/>home</a><IMG SRC='pic.jpg'>".

Definition pages (u : string) : option string :=
  if String.eqb u "http://x.com/" then Some home
  else if String.eqb u "http://x.com/b" then Some page_b
  else None.

Definition get (w : unit) (u : string) : unit * option string := (tt, pages u).
Definition download_ok (w : unit) (u out_path : string) : unit * bool := (tt, true).
Definition download_fails (w : unit) (u out_path : string) : unit * bool := (tt, false).
Definition mkdir (w : unit) (dir : string) : unit * bool := (tt, true).

Definition opts : Options := mkOptions true 5 "./data".

End Sample.

(** The number of image downloads of a trace, failed ones included. *)
Definition download_attempts (tr : list event) : nat :=
  length (List.filter (fun e => match e with EvDownload _ _ _ => true | _ => false end) tr).

(** ** Notions for the proofs about the patterns *)

Section RegexNotions.
Import Regex.

Definition functional (r : regex) : Prop := ∀ st, length (matchR r st) ≤ 1.

(** [r] has no match at a position whose next character satisfies [p]. *)
Definition rejects (r : regex) (p : ascii -> bool) : Prop :=
  ∀ st c s', ms_rest st = String c s' → p c = true → matchR r st = [].

(** The position after the longest run of characters that satisfy [p]. *)
Fixpoint skip_prev (p : ascii -> bool) (prev : option ascii) (s : string) : option ascii :=
  match s with
  | EmptyString => prev
  | String c s' => if p c then skip_prev p (Some c) s' else prev
  end.

Definition skip (p : ascii -> bool) (st : mstate) : mstate :=
  MState (skip_prev p (ms_prev st) (ms_rest st))
         (Str.drop_while p (ms_rest st)) (ms_caps st).

(** A tag name that starts like a word: its first character is not white
    space (as in [img] and [a]). *)
Definition plain_name (name : string) : Prop :=
  match name with
  | String c _ => Char.isspace (Char.tolower c) = false
  | EmptyString => False
  end.

(** The pattern has no capture group. *)
Fixpoint no_groups (r : regex) : bool :=
  match r with
  | Seq r1 r2 | Alt r1 r2 => no_groups r1 && no_groups r2
  | Star r1 => no_groups r1
  | Group _ _ => false
  | _ => true
  end.

End RegexNotions.

(** ** Notions for the further properties *)

(** Every character of a string satisfies [p]. *)
Fixpoint all_chars (p : ascii -> bool) (s : string) : bool :=
  match s with
  | EmptyString => true
  | String c s' => p c && all_chars p s'
  end.

(** Not a line terminator: what [.] matches. *)
Definition not_newline (c : ascii) : bool :=
  negb (Char.eqb c "010"%char || Char.eqb c "013"%char).

(** The characters [filename_from_url] lets through. *)
Definition safe (c : ascii) : bool :=
  Char.isalnum c || Char.eqb c "."%char || Char.eqb c "_"%char || Char.eqb c "-"%char.

(** The parts [parse_url] can return. *)
Definition wellformed (p : UrlParts) : Prop :=
  (scheme p = "http" ∨ scheme p = "https")
  ∧ host p ≠ "" ∧ Str.mem "/" (host p) = false
  ∧ starts_with (path p) "/" = true ∧ all_chars not_newline (path p) = true.

(** The URL a [UrlParts] stands for, as [join_url] writes it. *)
Definition url_string (p : UrlParts) : string :=
  scheme p +:+ "://" +:+ host p +:+ path p.

(** The URLs of the image downloads of a trace, in order. *)
Definition download_urls (tr : list event) : list string :=
  omap (fun e => match e with EvDownload u _ _ => Some u | _ => None end) tr.

(** [hops tr seed n u]: [u] is [seed], or is reached from it over at most
    [n] of the links followed in [tr]. *)
Inductive hops (tr : list event) : string -> nat -> string -> Prop :=
| hops_here seed n : hops tr seed n seed
| hops_follow seed next n u :
    EvFollow seed next ∈ tr -> hops tr next n u -> hops tr seed (S n) u.

Section Effects.

Context {World : Type}.
Variable http_get_text : World -> string -> World * option string.
Variable http_download_file : World -> string -> string -> World * bool.

(** The effects of a crawl with all that the code checks before each: the
    page fetched is a non-empty URL that parses, the image downloaded is a
    resolved reference that passes [is_image_url] and goes to the file
    named after it in the output directory, the link followed is a
    resolved reference of the page. *)
Inductive effect (opt : Options) : State World -> State World -> Prop :=
| effect_fetch st url parts w res :
    url <> "" ->
    parse_url url = Some parts ->
    url ∉ visited_pages st ->
    http_get_text (world st) url = (w, res) ->
    effect opt st
      (mkState ({[url]} ∪ visited_pages st) (downloaded_images st) w
               (trace st ++ [EvFetch url (bool_decide (is_Some res))]))
| effect_download st parts src w ok :
    let imgUrl := join_url parts src in
    let out_path := path_join (out_dir opt) (filename_from_url imgUrl) in
    imgUrl <> "" ->
    is_image_url imgUrl = true ->
    imgUrl ∉ downloaded_images st ->
    http_download_file (world st) imgUrl out_path = (w, ok) ->
    effect opt st
      (mkState (visited_pages st) ({[imgUrl]} ∪ downloaded_images st) w
               (trace st ++ [EvDownload imgUrl out_path ok]))
| effect_follow st url parts href nextParts :
    parse_url url = Some parts ->
    join_url parts href <> "" ->
    parse_url (join_url parts href) = Some nextParts ->
    to_lower (host nextParts) = to_lower (host parts) ->
    effect opt st
      (mkState (visited_pages st) (downloaded_images st) (world st)
               (trace st ++ [EvFollow url (join_url parts href)])).

End Effects.
(** [f] only adds to the trace, and every page it fetches is within [n]
    followed links of [url]. *)
Definition bounded {World : Type} (url : string) (n : nat)
    (f : State World -> State World) : Prop :=
  ∀ st, ∃ new, trace (f st) = trace st ++ new
    ∧ ∀ u, u ∈ fetched_urls new → hops new url n u.
(* ================================================================== *)
(** * The string sets of the C port (spider.c)                         *)
(* ================================================================== *)

(** [StrSet]: a growing array of owned copies, searched linearly.  The
    array is kept as the list of its first [len] entries; [cap] is the
    number of pointers it has room for.  [size_t] and pointers are taken
    to be 64 bits wide, as on the x86_64 Linux the program names in its
    user agent. *)
Module StrSet.

Record t : Type := mk {
  items : list string;
  cap : N
}.

Definition len (s : t) : N := N.of_nat (length (items s)).

Definition SIZE_MAX : N := 2 ^ 64 - 1.
Definition ptr_size : N := 8.

(** How a call ends: it returns, it ends the process through [die], or it
    writes outside the array. *)
Inductive result : Type :=
| Ok (s : t)
| Die
| Undefined.

Definition set_init : t := mk [] 0.

(** [strcmp(s->items[i], v) == 0] for some [i < len]. *)
Definition set_has (s : t) (v : string) : bool :=
  existsb (String.eqb (C.c_str v)) (items s).

(** [realloc_ok] and [malloc_ok] say whether the allocator serves the
    request of [realloc] and that of [xstrdup]. *)
Definition set_add (realloc_ok malloc_ok : bool) (s : t) (v : string) : result :=
  if set_has s v then Ok s else
  let grown :=
    if (len s =? cap s)%N then
      let ncap := (if (cap s =? 0)%N then 64 else (cap s * 2) mod (SIZE_MAX + 1))%N in
      if realloc_ok then Some (ncap, ((ncap * ptr_size) mod (SIZE_MAX + 1))%N) else None
    else Some (cap s, (cap s * ptr_size)%N) in
  match grown with
  | None => Die
  | Some (ncap, bytes) =>
      if negb malloc_ok then Die
      else if ((len s + 1) * ptr_size <=? bytes)%N
      then Ok (mk (items s ++ [C.c_str v]) ncap)
      else Undefined
  end.

(** The set an array stands for. *)
Definition contents (s : t) : gset string := list_to_set (items s).

(** No entry twice, and no more entries than room. *)
Definition wf (s : t) : Prop := NoDup (items s) ∧ (len s <= cap s)%N.

End StrSet.
(* ================================================================== *)
(** * The URL helpers of the C port (spider.c)                         *)
(* ================================================================== *)

Module CUrl.

Definition PATH_MAX : nat := 4096.

(** [strncpy(dst, src, n); dst[n] = 0]: the first [n] characters of the C
    string [src]. *)
Definition strncpy0 (src : string) (n : nat) : string :=
  String.substring 0 n (C.c_str src).

(** [strncat(dst, src, n)]. *)
Definition strncat (dst src : string) (n : nat) : string :=
  dst +:+ String.substring 0 n src.

Fixpoint starts_with_ci_loop (s pref : string) : bool :=
  match pref with
  | EmptyString => true
  | String p pref' =>
      match s with
      | EmptyString => false
      | String c s' =>
          if Char.eqb (Char.tolower c) (Char.tolower p)
          then starts_with_ci_loop s' pref' else false
      end
  end.

Definition starts_with_ci (s pref : string) : bool :=
  starts_with_ci_loop (C.c_str s) (C.c_str pref).

(** [strpbrk] and the NUL written over what it finds. *)
Definition strip_qf (s : string) : string := Str.cut_at_first_of "?#" s.

Definition base_dir_from_path (path : string) (outsz : nat) : string :=
  let tmp := strip_qf (strncpy0 path (PATH_MAX - 1)) in
  let out (s : string) := String.substring 0 (outsz - 1) s in
  if String.length tmp =? 0 then out "/" else
  if Char.eqb (Str.back tmp) "/"%char then out tmp else
  match Str.upto_last "/"%char tmp with
  | None => out "/"
  | Some dir => out dir
  end.

(** One call of [strtok_r] on what is left of the buffer: separators are
    skipped; there is no token if nothing follows them; else the token
    runs up to the next separator, and the scan resumes after it. *)
Definition strtok_r (sep : ascii) (s : string) : option (string * string) :=
  let s1 := Str.drop_while (fun c => Char.eqb c sep) s in
  if Str.is_empty s1 then None else
  let tok := Str.take_while (fun c => negb (Char.eqb c sep)) s1 in
  let rest := Str.drop_while (fun c => negb (Char.eqb c sep)) s1 in
  Some (tok, match rest with EmptyString => EmptyString | String _ r => r end).

(** The body of the token loop of [normalize_rel_path]; [segc] is the
    length of the list. *)
Definition seg_step (segs : list string) (tok : string) : list string :=
  if String.eqb tok "." || String.eqb tok "" then segs
  else if String.eqb tok ".." then removelast segs
  else if length segs <? 1024 then segs ++ [tok]
  else segs.

Fixpoint tok_loop (fuel : nat) (s : string) (segs : list string) : list string :=
  match fuel with
  | 0 => segs
  | S fuel' =>
      match strtok_r "/"%char s with
      | None => segs
      | Some (tok, rest) => tok_loop fuel' rest (seg_step segs tok)
      end
  end.

Fixpoint cat_loop (outsz : nat) (out : string) (segs : list string) : string :=
  match segs with
  | [] => out
  | seg :: rest =>
      let out1 := strncat out seg (outsz - String.length out - 1) in
      match rest with
      | [] => out1
      | _ :: _ =>
          cat_loop outsz (strncat out1 "/" (outsz - String.length out1 - 1)) rest
      end
  end.

Definition normalize_rel_path (inp : string) (outsz : nat) : string :=
  let tmp := strncpy0 inp (PATH_MAX - 1) in
  let segs := tok_loop (S (String.length tmp)) tmp [] in
  let out := cat_loop outsz "/" segs in
  String.substring 0 (outsz - 1) (match segs with [] => "/" | _ :: _ => out end).

End CUrl.

(** The room a list of segments takes when each is followed by one
    separator. *)
Definition weight (l : list string) : nat :=
  list_sum (List.map (fun x => S (String.length x)) l).
(** The status a run of [main] gives back to the system: the code it
    exits with before crawling, and 0 after a completed crawl (the
    [return 0] that ends [main]); none when the process dies of an
    uncaught exception. *)
Definition exit_code {World : Type} (o : @outcome World) : option Z :=
  match o with
  | Exited c => Some c
  | Uncaught => None
  | Done _ _ _ _ => Some 0%Z
  end.

(* ================================================================== *)
(** * [join_url] of the C port (spider.c)                              *)
(* ================================================================== *)

(** The C port resolves a reference inside a [char] array of its own,
    which it reads and writes through pointers; the array is kept here
    byte by byte.  [snprintf] is the one of the C library: a string
    argument is measured when the call reaches it, and its bytes are then
    copied one by one, front to back, each read from memory as it is at
    that moment.  In the relative branch the argument lies in the array
    the call writes to, a case the C standard leaves open: the bytes are
    taken as that copy finds them. *)
Module CJoin.
Import CUrl.

Definition buffer : Type := list ascii.

(** The C string that starts at the head of the bytes. *)
Fixpoint cstring (b : list ascii) : string :=
  match b with
  | [] => EmptyString
  | c :: b' => if Char.eqb c zero then EmptyString else String c (cstring b')
  end.

(** The C string at offset [off], and [strlen] of it. *)
Definition str_at (buf : buffer) (off : nat) : string := cstring (drop off buf).
Definition strlen_at (buf : buffer) (off : nat) : nat := String.length (str_at buf off).

(** [strncpy(buf, src, n)]: the first [n] bytes become the C string [src],
    cut at [n] bytes or padded with NULs up to them. *)
Definition strncpy (buf : buffer) (src : string) (n : nat) : buffer :=
  take n (list_ascii_of_string (C.c_str src) ++ replicate n zero) ++ drop n buf.

(** [rtrim]: NULs are written over the white space at the end. *)
Fixpoint rtrim_loop (n : nat) (buf : buffer) : buffer :=
  match n with
  | 0 => buf
  | S m =>
      match buf !! m with
      | Some c => if Char.isspace c then rtrim_loop m (<[m := zero]> buf) else buf
      | None => buf
      end
  end.

Definition rtrim (buf : buffer) : buffer := rtrim_loop (strlen_at buf 0) buf.

(** [ltrim]: the offset of the first byte that is not white space. *)
Fixpoint ltrim_loop (fuel off : nat) (buf : buffer) : nat :=
  match fuel with
  | 0 => off
  | S fuel' =>
      match buf !! off with
      | Some c =>
          if negb (Char.eqb c zero) && Char.isspace c
          then ltrim_loop fuel' (S off) buf else off
      | None => off
      end
  end.

Definition ltrim (buf : buffer) : nat := ltrim_loop (length buf) 0 buf.

(** One character of the output of [snprintf(buf, size, ...)]: it is
    stored while there is room for it and for the final NUL, and counted
    either way. *)
Definition put (size : nat) (st : buffer * nat) (c : ascii) : buffer * nat :=
  let '(buf, pos) := st in
  ((if S pos <? size then <[pos := c]> buf else buf), S pos).

(** A string argument that lies outside the array. *)
Definition put_string (size : nat) (st : buffer * nat) (s : string) : buffer * nat :=
  fold_left (put size) (list_ascii_of_string s) st.

(** [n] bytes of a string argument that lies in the array itself, at
    offset [src]. *)
Fixpoint put_from (size n src : nat) (st : buffer * nat) : buffer * nat :=
  match n with
  | 0 => st
  | S n' => put_from size n' (S src) (put size st (default zero (fst st !! src)))
  end.

(** [snprintf(buf, size, "%s%s", dir, h)] with [h] pointing into [buf] at
    offset [h]. *)
Definition snprintf_dir_h (buf : buffer) (size : nat) (dir : string) (h : nat) : buffer :=
  let st1 := put_string size (buf, 0) dir in
  let st2 := put_from size (strlen_at (fst st1) h) h st1 in
  <[Nat.min (snd st2) (size - 1) := zero]> (fst st2).

(** The array [buf] when [join_url] has copied, cut and trimmed the
    reference: every byte of it has been written. *)
Definition href_buffer (href : string) : buffer :=
  rtrim (<[PATH_MAX - 1 := zero]>
           (strncpy (replicate PATH_MAX zero) href (PATH_MAX - 1))).

(** The text [buf] holds when the relative branch has written the base
    directory and the reference into it. *)
Definition combined (base : UrlParts) (href : string) : string :=
  let buf := href_buffer href in
  str_at (snprintf_dir_h buf PATH_MAX (base_dir_from_path (path base) PATH_MAX)
                         (ltrim buf)) 0.

(** [join_url]; [None] is its [false]. *)
Definition join_url (base : UrlParts) (href : string) (outsz : nat) : option string :=
  let buf := href_buffer href in
  let h := str_at buf (ltrim buf) in
  let out (s : string) := Some (String.substring 0 (outsz - 1) s) in
  if Str.is_empty h then None else
  if Char.eqb (Str.front h) "#"%char then None else
  if starts_with_ci h "javascript:" || starts_with_ci h "mailto:" then None else
  if starts_with_ci h "http://" || starts_with_ci h "https://" then out h else
  if starts_with h "//" then out (scheme base +:+ ":" +:+ h) else
  if starts_with h "/" then out (scheme base +:+ "://" +:+ host base +:+ h) else
  out (scheme base +:+ "://" +:+ host base
         +:+ normalize_rel_path (combined base href) PATH_MAX).

End CJoin.

(* ================================================================== *)
(** * Image tags with one plainly written [src]                        *)
(* ================================================================== *)

(** No occurrence of [src], in any letter case, starts at a position of
    [pre] in the text [pre] followed by [rest]. *)
Fixpoint src_free (pre rest : string) : bool :=
  match pre with
  | EmptyString => true
  | String c pre' =>
      negb (starts_with (to_lower (String c (pre' +:+ rest))) "src")
      && src_free pre' rest
  end.

(** What can stand in a value written without quotes. *)
Definition bare (c : ascii) : bool := negb (Char.isspace c || Char.eqb c ">"%char).

(** What follows a value ends it: nothing, white space or [>]. *)
Definition ends_value (post : string) : bool :=
  match post with
  | EmptyString => true
  | String c _ => negb (bare c)
  end.

(** [written txt v]: [txt] is the value [v] written between double
    quotes, between single quotes, or without quotes. *)
Inductive written : string -> string -> Prop :=
| written_dq v :
    Str.mem Pat.dquote v = false ->
    written (String Pat.dquote (v +:+ String Pat.dquote "")) v
| written_sq v :
    Str.mem Pat.squote v = false ->
    written (String Pat.squote (v +:+ String Pat.squote "")) v
| written_bare v :
    v <> "" -> all_chars bare v = true ->
    Char.eqb Pat.dquote (Str.front v) = false ->
    Char.eqb Pat.squote (Str.front v) = false ->
    written v v.

(** [plain_tag tag o]: the text [tag] holds no [src] at all ([o] is
    [None]), or ([o] is [Some v]) one attribute [src = value] whose value
    is written as [v] and is followed by nothing, white space or [>], and
    no other [src] before the attribute or after the value. *)
Inductive plain_tag : string -> option string -> Prop :=
| plain_none tag : src_free tag "" = true -> plain_tag tag None
| plain_one pre name ws1 ws2 txt v post :
    to_lower name = "src" ->
    all_chars Char.isspace ws1 = true ->
    all_chars Char.isspace ws2 = true ->
    written txt v ->
    ends_value post = true ->
    src_free pre (name +:+ ws1 +:+ "=" +:+ ws2 +:+ txt +:+ post) = true ->
    src_free post "" = true ->
    plain_tag (pre +:+ name +:+ ws1 +:+ "=" +:+ ws2 +:+ txt +:+ post) (Some v).

(** What both extractors keep of a value: it trimmed, unless that is
    empty. *)
Definition kept (o : option string) : list string :=
  match o with
  | None => []
  | Some v => push_trimmed [] v
  end.

(* ================================================================== *)
(** * Proofs                                                            *)
(* ================================================================== *)

(** ** Strings *)

Lemma str_app_cons c s t : String c s +:+ t = String c (s +:+ t).
Proof. reflexivity. Qed.

Lemma str_app_nil_l s : "" +:+ s = s.
Proof. reflexivity. Qed.

Lemma str_app_nil_r s : s +:+ "" = s.
Proof. induction s as [|c s IH]; [reflexivity|]. by rewrite str_app_cons, IH. Qed.

Lemma str_app_assoc s t u : (s +:+ t) +:+ u = s +:+ (t +:+ u).
Proof. induction s as [|c s IH]; [reflexivity|]. by rewrite !str_app_cons, IH. Qed.

Lemma char_eqb_eq a b : Char.eqb a b = true <-> a = b.
Proof. apply Ascii.eqb_eq. Qed.

Lemma char_eqb_neq a b : Char.eqb a b = false <-> a <> b.
Proof. apply Ascii.eqb_neq. Qed.

Lemma isspace_tolower c : Char.isspace c = true → Char.tolower c = c.
Proof. destruct c as [[] [] [] [] [] [] [] []]; by vm_compute. Qed.

Lemma is_empty_true s : Str.is_empty s = true <-> s = "".
Proof. destruct s; simpl; split; congruence. Qed.

Lemma is_empty_false s : Str.is_empty s = false <-> s <> "".
Proof. destruct s; simpl; split; congruence. Qed.

(** ** Trimming *)

Lemma rev_onto_app s : ∀ t acc,
  Str.rev_onto (s +:+ t) acc = Str.rev_onto t (Str.rev_onto s acc).
Proof.
  induction s as [|c s IH]; intros t acc; [reflexivity|].
  rewrite str_app_cons. simpl. apply IH.
Qed.

Lemma rev_onto_acc s : ∀ acc, Str.rev_onto s acc = Str.rev s +:+ acc.
Proof.
  unfold Str.rev. induction s as [|c s IH]; intros acc; [reflexivity|].
  simpl. rewrite IH, (IH (String c "")). by rewrite str_app_assoc.
Qed.

Lemma rev_cons c s : Str.rev (String c s) = Str.rev s +:+ String c "".
Proof. unfold Str.rev at 1. simpl. apply rev_onto_acc. Qed.

Lemma rev_snoc s c : Str.rev (s +:+ String c "") = String c (Str.rev s).
Proof. unfold Str.rev. by rewrite rev_onto_app. Qed.

Lemma drop_while_snoc p s c :
  Str.drop_while p (s +:+ String c "")
  = if Str.is_empty (Str.drop_while p s)
    then (if p c then "" else String c "")
    else Str.drop_while p s +:+ String c "".
Proof.
  induction s as [|d s IH]; [reflexivity|].
  rewrite str_app_cons. simpl. destruct (p d); [apply IH | reflexivity].
Qed.

Lemma rev_is_empty s : Str.is_empty (Str.rev s) = Str.is_empty s.
Proof.
  destruct s as [|c s]; [reflexivity|]. rewrite rev_cons.
  by destruct (Str.rev s).
Qed.

Lemma rtrim_cons c s :
  C.rtrim (String c s)
  = if Str.is_empty (C.rtrim s) && Char.isspace c then ""
    else String c (C.rtrim s).
Proof.
  unfold C.rtrim. rewrite rev_cons, drop_while_snoc, rev_is_empty.
  destruct (Str.is_empty (Str.drop_while Char.isspace (Str.rev s))) eqn:E.
  - apply is_empty_true in E. rewrite E. cbn [andb].
    by destruct (Char.isspace c).
  - cbn [andb]. apply rev_snoc.
Qed.

Lemma trim_rtrim_ltrim s : trim s = C.rtrim (C.ltrim s).
Proof. reflexivity. Qed.

Lemma rtrim_idem s : C.rtrim (C.rtrim s) = C.rtrim s.
Proof.
  induction s as [|c s IH]; [reflexivity|].
  rewrite rtrim_cons.
  destruct (Str.is_empty (C.rtrim s) && Char.isspace c) eqn:E; [reflexivity|].
  by rewrite rtrim_cons, IH, E.
Qed.

Lemma ltrim_rtrim_ltrim s : C.ltrim (C.rtrim (C.ltrim s)) = C.rtrim (C.ltrim s).
Proof.
  unfold C.ltrim. induction s as [|c s IH]; [reflexivity|].
  simpl. destruct (Char.isspace c) eqn:E; [apply IH|].
  rewrite rtrim_cons, E, andb_false_r. simpl. by rewrite E.
Qed.

Lemma trim_idem s : trim (trim s) = trim s.
Proof.
  rewrite !trim_rtrim_ltrim, ltrim_rtrim_ltrim. apply rtrim_idem.
Qed.

(** ** Patterns with at most one way to match *)

Section RegexFacts.
Import Regex.

Lemma flat_map_app' {A B} (f : A → list B) l1 l2 :
  flat_map f (l1 ++ l2) = flat_map f l1 ++ flat_map f l2.
Proof. induction l1 as [|x l1 IH]; simpl; [done|]. by rewrite IH, app_assoc. Qed.

Lemma star_chr_unfold p st :
  matchR (Star (Chr p)) st
  = match ms_rest st with
    | String c s' =>
        if p c then matchR (Star (Chr p)) (MState (Some c) s' (ms_caps st)) ++ [st]
        else [st]
    | EmptyString => [st]
    end.
Proof.
  destruct st as [prev rest caps]. cbn [matchR ms_rest ms_caps].
  destruct rest as [|c s']; [reflexivity|].
  cbn [String.length star_loop matchR ms_rest ms_caps].
  destruct (p c); [|reflexivity].
  cbn [flat_map]. unfold progress. cbn [ms_rest String.length].
  rewrite (proj2 (Nat.ltb_lt _ _)) by lia. by rewrite app_nil_r.
Qed.

Lemma star_chr_seq p r2 :
  rejects r2 p →
  ∀ st, matchR (Seq (Star (Chr p)) r2) st = matchR r2 (skip p st).
Proof.
  intros Hrej st. destruct st as [prev rest caps]. revert prev.
  induction rest as [|c s' IH]; intros prev.
  - cbn. by rewrite app_nil_r.
  - change (matchR (Seq (Star (Chr p)) r2) ?s)
      with (flat_map (matchR r2) (matchR (Star (Chr p)) s)) in *.
    rewrite star_chr_unfold. cbn [ms_rest ms_caps].
    unfold skip. cbn [ms_rest ms_prev ms_caps skip_prev Str.drop_while].
    destruct (p c) eqn:Hp.
    + rewrite flat_map_app', IH. cbn [flat_map].
      rewrite (Hrej (MState prev (String c s') caps) c s' eq_refl Hp).
      by rewrite !app_nil_r.
    + cbn. by rewrite app_nil_r.
Qed.

Lemma functional_seq r1 r2 : functional r1 → functional r2 → functional (Seq r1 r2).
Proof.
  intros H1 H2 st. cbn [matchR]. specialize (H1 st).
  destruct (matchR r1 st) as [|x [|y l]]; simpl in *; [lia | | lia].
  rewrite app_nil_r. apply H2.
Qed.

Lemma functional_chr p : functional (Chr p).
Proof. intros st. cbn. destruct (ms_rest st); [simpl; lia|]. destruct (p _); simpl; lia. Qed.

Lemma functional_eps : functional Eps.
Proof. intros st. simpl. lia. Qed.

Lemma functional_wordb : functional WordB.
Proof. intros st. cbn. destruct (xorb _ _); simpl; lia. Qed.

Lemma functional_lit_ci s : functional (lit_ci s).
Proof.
  induction s as [|c s IH]; [apply functional_eps|].
  apply functional_seq; [apply functional_chr | exact IH].
Qed.

Lemma functional_star_chr_seq p r2 :
  rejects r2 p → functional r2 → functional (Seq (Star (Chr p)) r2).
Proof. intros Hrej Hf st. rewrite star_chr_seq by done. apply Hf. Qed.

Lemma rejects_chr_seq (q p : ascii -> bool) r :
  (∀ c, p c = true → q c = false) → rejects (Seq (Chr q) r) p.
Proof.
  intros Hpq st c s' Hs Hp. cbn [matchR]. rewrite Hs, (Hpq c Hp). reflexivity.
Qed.

Lemma rejects_chr (q p : ascii -> bool) :
  (∀ c, p c = true → q c = false) → rejects (Chr q) p.
Proof.
  intros Hpq st c s' Hs Hp. cbn [matchR]. rewrite Hs, (Hpq c Hp). reflexivity.
Qed.

Lemma rejects_seq_l r1 r2 p : rejects r1 p → rejects (Seq r1 r2) p.
Proof. intros H st c s' Hs Hp. cbn [matchR]. by rewrite (H st c s' Hs Hp). Qed.

Lemma rejects_lit_ci_space name r :
  plain_name name → rejects (Seq (lit_ci name) r) Char.isspace.
Proof.
  destruct name as [|c name]; [done|]. intros Hc.
  apply rejects_seq_l. cbn [lit_ci]. apply rejects_chr_seq.
  intros d Hd. rewrite (isspace_tolower _ Hd).
  apply char_eqb_neq. intros ->. congruence.
Qed.

Lemma functional_tag name : plain_name name → functional (Pat.tag name).
Proof.
  intros Hn. unfold Pat.tag.
  apply functional_seq; [apply functional_chr|].
  apply functional_star_chr_seq; [by apply rejects_lit_ci_space|].
  apply functional_seq; [apply functional_lit_ci|].
  apply functional_seq; [apply functional_wordb|].
  apply functional_star_chr_seq; [|apply functional_chr].
  apply rejects_chr. intros c Hc. unfold Regex.none_of in Hc.
  cbn [Str.mem] in Hc. rewrite orb_false_r in Hc.
  apply negb_true_iff in Hc. apply char_eqb_neq. apply char_eqb_neq in Hc. congruence.
Qed.

Lemma star_loop_le (step : mstate → list mstate) :
  (∀ st st', In st' (step st) → String.length (ms_rest st') ≤ String.length (ms_rest st)) →
  ∀ fuel st st', In st' (star_loop step fuel st) →
    String.length (ms_rest st') ≤ String.length (ms_rest st).
Proof.
  intros Hstep. induction fuel as [|fuel IH]; intros st st'; cbn [star_loop].
  - intros [<- | []]. lia.
  - rewrite in_app_iff, in_flat_map. intros [(st1 & H1 & H2) | [<- | []]]; [|lia].
    destruct (progress st st1); [|done].
    apply IH in H2. apply Hstep in H1. lia.
Qed.

(** A match never ends before it starts. *)
Lemma matchR_le r : ∀ st st',
  In st' (matchR r st) → String.length (ms_rest st') ≤ String.length (ms_rest st).
Proof.
  induction r as [|p|r1 IH1 r2 IH2|r1 IH1 r2 IH2|r IH|n r IH| | |];
    intros st st'; cbn [matchR].
  - intros [<- | []]. lia.
  - destruct (ms_rest st) as [|c s']; [done|].
    destruct (p c); [|done]. intros [<- | []]. simpl. lia.
  - rewrite in_flat_map. intros (st1 & H1 & H2).
    apply IH1 in H1. apply IH2 in H2. lia.
  - rewrite in_app_iff. intros [H|H]; [by apply IH1 | by apply IH2].
  - apply star_loop_le. exact IH.
  - rewrite in_map_iff. intros (st1 & <- & H1). apply IH in H1. exact H1.
  - destruct (ms_prev st); [done|]. intros [<- | []]. lia.
  - destruct (ms_rest st) eqn:E; [|done]. intros [<- | []]. rewrite E. simpl. lia.
  - destruct (xorb _ _); [|done]. intros [<- | []]. lia.
Qed.

Lemma matchR_chr_seq_lt (p : ascii → bool) r st st' :
  In st' (matchR (Seq (Chr p) r) st) →
  String.length (ms_rest st') < String.length (ms_rest st).
Proof.
  cbn [matchR]. rewrite in_flat_map. intros (st1 & H1 & H2).
  apply matchR_le in H2.
  destruct (ms_rest st) as [|c s']; [done|].
  destruct (p c); [|done]. destruct H1 as [<- | []]. simpl in *. lia.
Qed.

Lemma consumed_nonempty st st' :
  String.length (ms_rest st') < String.length (ms_rest st) →
  Str.is_empty (consumed st st') = false.
Proof.
  unfold consumed. destruct (ms_rest st) as [|c s]; simpl; [lia|].
  intros H.
  destruct (S (String.length s) - String.length (ms_rest st')) eqn:E; [lia|].
  reflexivity.
Qed.

End RegexFacts.

(** ** The fuel of the matcher and of the loops is never used up *)

Section Fuel.
Import Regex.

Lemma flat_map_nil {A B} (f : A → list B) l :
  (∀ x, In x l → f x = []) → flat_map f l = [].
Proof.
  induction l as [|x l IH]; intros H; simpl; [done|].
  rewrite H by (by left). apply IH. intros y Hy. apply H. by right.
Qed.

Lemma flat_map_ext_In {A B} (f g : A → list B) l :
  (∀ x, In x l → f x = g x) → flat_map f l = flat_map g l.
Proof.
  induction l as [|x l IH]; intros H; simpl; [done|].
  rewrite H by (by left). f_equal. apply IH. intros y Hy. apply H. by right.
Qed.

Lemma progress_spec st st' :
  progress st st' = true ↔ String.length (ms_rest st') < String.length (ms_rest st).
Proof. unfold progress. apply Nat.ltb_lt. Qed.

Lemma star_loop_stuck (step : mstate → list mstate) st :
  (∀ st', In st' (step st) → String.length (ms_rest st') ≤ String.length (ms_rest st)) →
  String.length (ms_rest st) = 0 →
  ∀ (k : mstate → list mstate),
    flat_map (fun st' => if progress st st' then k st' else []) (step st) = [].
Proof.
  intros Hstep H0 k. apply flat_map_nil. intros st' Hin.
  destruct (progress st st') eqn:E; [|done].
  apply progress_spec in E. lia.
Qed.

Lemma star_loop_fuel (step : mstate → list mstate) :
  (∀ st st', In st' (step st) → String.length (ms_rest st') ≤ String.length (ms_rest st)) →
  ∀ fuel1 fuel2 st,
    String.length (ms_rest st) ≤ fuel1 → String.length (ms_rest st) ≤ fuel2 →
    star_loop step fuel1 st = star_loop step fuel2 st.
Proof.
  intros Hstep. induction fuel1 as [|f1 IH]; intros [|f2] st H1 H2; cbn [star_loop].
  - reflexivity.
  - rewrite star_loop_stuck; [done | by apply Hstep | lia].
  - rewrite star_loop_stuck; [done | by apply Hstep | lia].
  - f_equal. apply flat_map_ext_In. intros st' Hin.
    destruct (progress st st') eqn:E; [|done].
    apply progress_spec in E. apply IH; lia.
Qed.

(** Greedy repetition: one more round where that makes progress, else
    stop. *)
Lemma star_unfold r st :
  matchR (Star r) st
  = flat_map (fun st' => if progress st st' then matchR (Star r) st' else [])
             (matchR r st) ++ [st].
Proof.
  cbn [matchR]. destruct (String.length (ms_rest st)) as [|n] eqn:E; cbn [star_loop].
  - by rewrite (star_loop_stuck _ st (matchR_le r st) E).
  - f_equal. apply flat_map_ext_In. intros st' Hin.
    destruct (progress st st') eqn:Hp; [|done].
    apply progress_spec in Hp. apply star_loop_fuel; [apply matchR_le | lia | lia].
Qed.

Lemma consumed_empty_or_lt st st' :
  String.length (ms_rest st') ≤ String.length (ms_rest st) →
  Str.is_empty (consumed st st') = false →
  String.length (ms_rest st') < String.length (ms_rest st).
Proof.
  unfold consumed. intros Hle Hne.
  destruct (String.length (ms_rest st) - String.length (ms_rest st')) eqn:E; [|lia].
  by destruct (ms_rest st).
Qed.

Lemma search_le r : ∀ s prev txt st',
  Ecma.search r prev s = Some (txt, st') →
  String.length (ms_rest st') ≤ String.length s
  ∧ (Str.is_empty txt = false → String.length (ms_rest st') < String.length s).
Proof.
  assert (∀ s prev txt st',
            Ecma.first_at r prev s = Some (txt, st') →
            String.length (ms_rest st') ≤ String.length s
            ∧ (Str.is_empty txt = false →
               String.length (ms_rest st') < String.length s)) as Hat.
  { intros s prev txt st'. unfold Ecma.first_at.
    destruct (matchR r (start prev s)) as [|st1 l] eqn:Hm; [discriminate|].
    assert (In st1 (matchR r (start prev s))) as Hin by (rewrite Hm; by left).
    apply matchR_le in Hin. intros ?; simplify_eq.
    split; [done|]. by apply consumed_empty_or_lt. }
  induction s as [|c s IH]; intros prev txt st'; cbn [Ecma.search];
    destruct (Ecma.first_at r prev _) as [[txt1 st1]|] eqn:Hf.
  - intros ?; simplify_eq. by apply Hat in Hf.
  - discriminate.
  - intros ?; simplify_eq. by apply Hat in Hf.
  - intros H. apply IH in H as [H1 H2]. simpl. split; [lia|].
    intros Hne. specialize (H2 Hne). lia.
Qed.

Lemma first_nonempty_at_lt r prev s txt st' :
  Ecma.first_nonempty_at r prev s = Some (txt, st') →
  String.length (ms_rest st') < String.length s.
Proof.
  unfold Ecma.first_nonempty_at.
  destruct (List.find _ _) as [st1|] eqn:Hf; [|discriminate].
  apply find_some in Hf as [_ Hp]. apply progress_spec in Hp.
  cbn [fmap option_fmap option_map]. intros ?; simplify_eq. exact Hp.
Qed.

(** [sregex_iterator]: with fuel beyond the length of the input the
    iteration is the same whatever the fuel. *)
Lemma iterate_fuel r : ∀ fuel1 fuel2 prev s,
  String.length s < fuel1 → String.length s < fuel2 →
  Ecma.iterate fuel1 r prev s = Ecma.iterate fuel2 r prev s.
Proof.
  induction fuel1 as [|f1 IH]; intros [|f2] prev s H1 H2; try lia.
  cbn [Ecma.iterate].
  destruct (Ecma.search r prev s) as [[txt st']|] eqn:Hs; [|done].
  apply search_le in Hs as [Hle Hlt].
  destruct (Str.is_empty txt) eqn:He.
  - destruct (ms_rest st') as [|c rest'] eqn:Hr; [done|].
    destruct (Ecma.first_nonempty_at r (ms_prev st') (String c rest'))
      as [[txt2 st2]|] eqn:Hn.
    + apply first_nonempty_at_lt in Hn. do 2 f_equal. apply IH; lia.
    + f_equal. simpl in Hle. apply IH; lia.
  - f_equal. specialize (Hlt eq_refl). apply IH; lia.
Qed.

Lemma longest_in l st : Posix.longest l = Some st → In st l.
Proof.
  unfold Posix.longest.
  assert (∀ best, fold_left Posix.longer l best = Some st →
                  best = Some st ∨ In st l) as H.
  { induction l as [|x l IH]; intros best; simpl; [by left|].
    intros Hf. apply IH in Hf as [Hf|Hf]; [|by auto].
    unfold Posix.longer in Hf. destruct best as [b|].
    - destruct (_ <? _); injection Hf as <-; auto.
    - injection Hf as <-. auto. }
  intros Hf. apply H in Hf as [Hf|Hf]; [discriminate | done].
Qed.

Lemma regexec_from_le r : ∀ s prev so so' txt st',
  Posix.regexec_from r prev s so = Some (so', txt, st') →
  String.length (ms_rest st') ≤ String.length s
  ∧ (Str.is_empty txt = false → String.length (ms_rest st') < String.length s).
Proof.
  induction s as [|c s IH]; intros prev so so' txt st'; cbn [Posix.regexec_from];
    destruct (Posix.longest (matchR r (start prev _))) as [st1|] eqn:Hm.
  - apply longest_in, matchR_le in Hm. intros ?; simplify_eq.
    split; [done|]. by apply consumed_empty_or_lt.
  - discriminate.
  - apply longest_in, matchR_le in Hm. intros ?; simplify_eq.
    split; [done|]. by apply consumed_empty_or_lt.
  - intros H. apply IH in H as [H1 H2]. simpl. split; [lia|].
    intros Hne. specialize (H2 Hne). lia.
Qed.

(** The tag loop of the C port likewise. *)
Lemma tag_loop_fuel tagname attr : ∀ fuel1 fuel2 p out,
  String.length p < fuel1 → String.length p < fuel2 →
  C.tag_loop fuel1 tagname attr p out = C.tag_loop fuel2 tagname attr p out.
Proof.
  induction fuel1 as [|f1 IH]; intros [|f2] p out H1 H2; try lia.
  cbn [C.tag_loop]. unfold Posix.regexec.
  destruct (Posix.regexec_from (Pat.tag tagname) None p 0) as [[[so tag] m]|] eqn:Hr; [|done].
  apply regexec_from_le in Hr as [_ Hlt].
  destruct (Str.is_empty tag); [done|].
  specialize (Hlt eq_refl). apply IH; lia.
Qed.

End Fuel.

(** ** What [parse_url] returns *)

Section ParseFacts.
Import Regex.

Lemma in_seq r1 r2 st st' :
  In st' (matchR (Seq r1 r2) st) ↔ ∃ st1, In st1 (matchR r1 st) ∧ In st' (matchR r2 st1).
Proof. cbn [matchR]. apply in_flat_map. Qed.

Lemma in_group n r st st' :
  In st' (matchR (Group n r) st) ↔ ∃ st1, In st1 (matchR r st) ∧ st' = set_cap n st st1.
Proof.
  cbn [matchR]. rewrite in_map_iff. split; intros (st1 & H1 & H2); eauto.
Qed.

Lemma in_opt r st st' :
  In st' (matchR (Opt r) st) ↔ In st' (matchR r st) ∨ st' = st.
Proof.
  unfold Opt. cbn [matchR]. rewrite in_app_iff. simpl. split; intros [H|H]; auto.
  - destruct H as [H|[]]; auto.
Qed.

Lemma star_loop_caps (step : mstate → list mstate) :
  (∀ st st', In st' (step st) → ms_caps st' = ms_caps st) →
  ∀ fuel st st', In st' (star_loop step fuel st) → ms_caps st' = ms_caps st.
Proof.
  intros Hstep. induction fuel as [|fuel IH]; intros st st'; cbn [star_loop].
  - by intros [<- | []].
  - rewrite in_app_iff, in_flat_map. intros [(st1 & H1 & H2) | [<- | []]]; [|done].
    destruct (progress st st1); [|done].
    apply IH in H2. apply Hstep in H1. congruence.
Qed.

(** A pattern without groups leaves the captures as they are. *)
Lemma matchR_caps r : no_groups r = true →
  ∀ st st', In st' (matchR r st) → ms_caps st' = ms_caps st.
Proof.
  induction r as [|p|r1 IH1 r2 IH2|r1 IH1 r2 IH2|r IH|n r IH| | |];
    cbn [no_groups]; intros Hg st st'; cbn [matchR].
  - by intros [<- | []].
  - destruct (ms_rest st) as [|c s']; [done|].
    destruct (p c); [|done]. by intros [<- | []].
  - apply andb_true_iff in Hg as [Hg1 Hg2].
    rewrite in_flat_map. intros (st1 & H1 & H2).
    apply (IH1 Hg1) in H1. apply (IH2 Hg2) in H2. congruence.
  - apply andb_true_iff in Hg as [Hg1 Hg2].
    rewrite in_app_iff. intros [H|H]; [by apply (IH1 Hg1) | by apply (IH2 Hg2)].
  - apply star_loop_caps. exact (IH Hg).
  - discriminate.
  - destruct (ms_prev st); [done|]. by intros [<- | []].
  - destruct (ms_rest st); [|done]. by intros [<- | []].
  - destruct (xorb _ _); [|done]. by intros [<- | []].
Qed.

Lemma no_groups_lit s : no_groups (lit s) = true.
Proof. induction s as [|c s IH]; [reflexivity|]. exact IH. Qed.

Lemma no_groups_lit_ci s : no_groups (lit_ci s) = true.
Proof. induction s as [|c s IH]; [reflexivity|]. exact IH. Qed.

Lemma substring_0_0 s : String.substring 0 0 s = "".
Proof. by destruct s. Qed.

Lemma in_chr p st st' :
  In st' (matchR (Chr p) st) ↔
  ∃ c s', ms_rest st = String c s' ∧ p c = true ∧ st' = MState (Some c) s' (ms_caps st).
Proof.
  cbn [matchR]. destruct (ms_rest st) as [|c s']; [split; [done | by intros (?&?&?&?)]|].
  destruct (p c) eqn:Hp.
  - split.
    + intros [<- | []]. eauto.
    + intros (c' & s'' & [= <- <-] & _ & ->). by left.
  - split; [done|]. intros (c' & s'' & [= <- <-] & Hp' & _). congruence.
Qed.

Lemma in_chr_seq p r st st' :
  In st' (matchR (Seq (Chr p) r) st) ↔
  ∃ c s', ms_rest st = String c s' ∧ p c = true
          ∧ In st' (matchR r (MState (Some c) s' (ms_caps st))).
Proof.
  rewrite in_seq. split.
  - intros (st1 & (c & s' & Hr & Hp & ->)%in_chr & H2). eauto.
  - intros (c & s' & Hr & Hp & H2). eexists. split; [|exact H2].
    apply in_chr. eauto.
Qed.

Lemma in_eps st st' : In st' (matchR Eps st) ↔ st' = st.
Proof. simpl. split; [by intros [<- | []] | intros ->; by left]. Qed.

Lemma chr_ci_spec c d :
  Char.eqb (Char.tolower d) (Char.tolower c) = true ↔ Char.tolower d = Char.tolower c.
Proof. apply char_eqb_eq. Qed.

(** The scheme group matches [http] or [https], in any letter case. *)
Lemma scheme_group st st' :
  In st' (matchR (Seq (lit_ci "http") (Opt (chr_ci "s"))) st) →
  to_lower (consumed st st') = "http" ∨ to_lower (consumed st st') = "https".
Proof.
  destruct st as [prev rest caps].
  rewrite in_seq. intros (st1 & H1 & H2).
  cbn [lit_ci] in H1. unfold chr_ci in H1.
  apply in_chr_seq in H1 as (c1 & r1 & Hr1 & E1%chr_ci_spec & H1).
  apply in_chr_seq in H1 as (c2 & r2 & Hr2 & E2%chr_ci_spec & H1).
  apply in_chr_seq in H1 as (c3 & r3 & Hr3 & E3%chr_ci_spec & H1).
  apply in_chr_seq in H1 as (c4 & r4 & Hr4 & E4%chr_ci_spec & H1).
  apply in_eps in H1. subst st1. cbn [ms_rest ms_caps] in *. subst.
  unfold consumed. cbn [ms_rest].
  apply in_opt in H2 as [H2 | ->].
  - right. apply in_chr in H2 as (c5 & r5 & Hr5 & E5%chr_ci_spec & ->).
    cbn [ms_rest] in *. subst r4. cbn [String.length].
    match goal with
    | |- to_lower (String.substring 0 ?n ?s) = _ => replace n with 5 by lia
    end.
    cbn [String.substring to_lower Str.map].
    rewrite substring_0_0, E1, E2, E3, E4, E5. reflexivity.
  - left. cbn [ms_rest String.length].
    match goal with
    | |- to_lower (String.substring 0 ?n ?s) = _ => replace n with 4 by lia
    end.
    cbn [String.substring to_lower Str.map].
    rewrite substring_0_0, E1, E2, E3, E4. reflexivity.
Qed.

(** The host group is never empty. *)
Lemma host_group st st' :
  In st' (matchR (Plus (none_of "/")) st) → consumed st st' ≠ "".
Proof.
  intros H%matchR_chr_seq_lt. apply is_empty_false. by apply consumed_nonempty.
Qed.

(** The path group starts with a slash. *)
Lemma path_group st st' :
  In st' (matchR (Seq (chr "/") (Star dot)) st) →
  starts_with (consumed st st') "/" = true.
Proof.
  intros H. pose proof (matchR_chr_seq_lt _ _ _ _ H) as Hlt.
  apply in_chr_seq in H as (c & s' & Hr & Hc%char_eqb_eq & _). subst c.
  unfold consumed. rewrite Hr in *. cbn [String.length] in *.
  destruct (S (String.length s') - String.length (ms_rest st')) eqn:E; [lia|].
  reflexivity.
Qed.

(** The captures of a match of the URL pattern: the scheme, the host, and
    the path when there is one. *)
Lemma url_match_caps u m :
  In m (matchR Pat.url (start None u)) →
  ∃ x y, (to_lower x = "http" ∨ to_lower x = "https") ∧ y ≠ ""
    ∧ (ms_caps m = [(2, y); (1, x)]
       ∨ ∃ z, starts_with z "/" = true ∧ ms_caps m = [(3, z); (2, y); (1, x)]).
Proof.
  unfold Pat.url. intros H.
  apply in_seq in H as (s0 & H0 & H). apply (matchR_caps Bol eq_refl) in H0.
  apply in_seq in H as (a & Ha & H). apply (matchR_caps (Star space) eq_refl) in Ha.
  apply in_seq in H as (b & Hb & H). apply in_group in Hb as (b1 & Hb1 & ->).
  pose proof (matchR_caps (Seq (lit_ci "http") (Opt (chr_ci "s"))) eq_refl _ _ Hb1)
    as Hcb1.
  apply scheme_group in Hb1.
  apply in_seq in H as (c & Hc & H). apply (matchR_caps (lit "://") eq_refl) in Hc.
  apply in_seq in H as (d & Hd & H). apply in_group in Hd as (d1 & Hd1 & ->).
  pose proof (matchR_caps (Plus (none_of "/")) eq_refl _ _ Hd1) as Hcd1.
  apply host_group in Hd1.
  apply in_seq in H as (e & He & H).
  apply in_seq in H as (f & Hf & H). apply (matchR_caps (Star space) eq_refl) in Hf.
  apply (matchR_caps Eol eq_refl) in H.
  exists (consumed a b1), (consumed c d1). split; [exact Hb1|]. split; [exact Hd1|].
  rewrite H, Hf.
  apply in_opt in He as [He | ->].
  - right. apply in_group in He as (e1 & He1 & ->).
    pose proof (matchR_caps (Seq (chr "/") (Star dot)) eq_refl _ _ He1) as Hce1.
    apply path_group in He1. eexists. split; [exact He1|].
    cbn [set_cap ms_caps] in *. rewrite Hce1, Hcd1, Hc. cbn [ms_caps].
    rewrite Hcb1, Ha, H0. reflexivity.
  - left. cbn [set_cap ms_caps] in *. rewrite Hcd1, Hc. cbn [ms_caps].
    rewrite Hcb1, Ha, H0. reflexivity.
Qed.

End ParseFacts.

(** Whatever [parse_url] returns has the scheme [http] or [https] in lower
    case, a host that is not empty and a path that starts with a slash. *)
Lemma parse_url_invariant u p :
  parse_url u = Some p →
  (scheme p = "http" ∨ scheme p = "https")
  ∧ host p ≠ ""
  ∧ starts_with (path p) "/" = true.
Proof.
  unfold parse_url.
  destruct (Regex.regex_match Pat.url u) as [m|] eqn:Hm; [|discriminate].
  unfold Regex.regex_match in Hm. apply find_some in Hm as [Hm _].
  apply url_match_caps in Hm as (x & y & Hx & Hy & Hcaps).
  intros [= <-]. unfold Regex.cap.
  destruct Hcaps as [-> | (z & Hz & ->)]; cbn.
  - done.
  - split; [done|]. split; [done|].
    destruct z as [|c z]; [discriminate|]. exact Hz.
Qed.

(** ** Skipped references *)

(** C6: a reference that, once trimmed, is empty, starts with [#], or
    starts (in any letter case) with [javascript:] or [mailto:] resolves to
    the empty string, which is how [join_url] says Skip. *)
Theorem join_url_skips_non_navigable (base : UrlParts) (href : string) :
  trim href = ""
  ∨ starts_with (trim href) "#" = true
  ∨ starts_with (to_lower (trim href)) "javascript:" = true
  ∨ starts_with (to_lower (trim href)) "mailto:" = true →
  join_url base href = "".
Proof.
  intros H. unfold join_url, normalize_url.
  destruct (trim href) as [|c h] eqn:Eh.
  - reflexivity.
  - cbn [Str.is_empty].
    destruct H as [H | [H | [H | H]]].
    + discriminate.
    + destruct (_ || _); [reflexivity|].
      cbn in H. apply andb_true_iff in H as [H _].
      apply char_eqb_eq in H. subst c. reflexivity.
    + rewrite H. reflexivity.
    + rewrite H, orb_true_r. reflexivity.
Qed.

Lemma join_url_skips_non_navigable_witness :
  join_url (mkUrlParts "http" "example.com" "/x/y") "  JavaScript:alert(1) " = "".
Proof.
  apply join_url_skips_non_navigable.
  right; right; left. vm_compute. reflexivity.
Defined.

Lemma str_app_empty s t : s +:+ t = "" → s = "" ∧ t = "".
Proof. destruct s; [by rewrite str_app_nil_l | by rewrite str_app_cons]. Qed.

(** The empty string stands for Skip and for nothing else: [join_url]
    returns it only in the four cases above. *)
Lemma join_url_empty_only_if_skipped (base : UrlParts) (href : string) :
  join_url base href = "" →
  trim href = ""
  ∨ starts_with (trim href) "#" = true
  ∨ starts_with (to_lower (trim href)) "javascript:" = true
  ∨ starts_with (to_lower (trim href)) "mailto:" = true.
Proof.
  unfold join_url, normalize_url. intros H.
  destruct (trim href) as [|c h] eqn:Eh; [by left|]. right.
  cbn [Str.is_empty Str.front] in H.
  destruct (starts_with (to_lower (String c h)) "javascript:") eqn:Hj; [by auto|].
  destruct (starts_with (to_lower (String c h)) "mailto:") eqn:Hm; [by auto|].
  cbn [orb] in H.
  destruct (Char.eqb c "#") eqn:Hc.
  { left. apply char_eqb_eq in Hc. subst c. reflexivity. }
  destruct (_ || _); [discriminate|].
  repeat (destruct (starts_with _ _));
    repeat (apply str_app_empty in H as [? H]); discriminate.
Qed.

(** ** File names *)

Lemma mem_cons c d s : Str.mem c (String d s) = Char.eqb c d || Str.mem c s.
Proof. reflexivity. Qed.

Lemma take_while_app_stop (p : ascii -> bool) u suffix :
  Str.take_while p u = u →
  (suffix = "" ∨ p (Str.front suffix) = false) →
  Str.take_while p (u +:+ suffix) = u.
Proof.
  intros Hu Hs. induction u as [|c u IH].
  - rewrite str_app_nil_l. destruct Hs as [-> | Hs]; [reflexivity|].
    destruct suffix as [|d t]; [reflexivity|]. simpl in *. by rewrite Hs.
  - rewrite str_app_cons. simpl in *. destruct (p c); [|discriminate].
    f_equal. apply IH. congruence.
Qed.

Lemma take_while_all (p : ascii -> bool) u :
  (∀ c, Str.mem c u = true → p c = true) → Str.take_while p u = u.
Proof.
  induction u as [|d u IH]; intros H; [reflexivity|]. simpl.
  rewrite (H d).
  - f_equal. apply IH. intros c Hc. apply H. rewrite mem_cons, Hc. apply orb_true_r.
  - rewrite mem_cons. replace (Char.eqb d d) with true; [reflexivity|].
    symmetry. by apply char_eqb_eq.
Qed.

Lemma cut_at_qf u suffix :
  Str.mem "?" u = false → Str.mem "#" u = false →
  (suffix = "" ∨ starts_with suffix "?" = true ∨ starts_with suffix "#" = true) →
  Str.cut_at_first_of "?#" (u +:+ suffix) = u.
Proof.
  intros Hq Hf Hs. unfold Str.cut_at_first_of. apply take_while_app_stop.
  - apply take_while_all. intros c Hc.
    destruct (Str.mem c "?#") eqn:Hm; [|reflexivity]. exfalso.
    cbn [Str.mem] in Hm. rewrite orb_false_r in Hm.
    apply orb_true_iff in Hm as [Hm | Hm]; apply char_eqb_eq in Hm; subst c; congruence.
  - destruct Hs as [-> | Hs]; [by left|right].
    destruct suffix as [|d t]; [by destruct Hs|].
    cbn [Str.front Str.mem]. unfold starts_with in Hs. cbn [Str.is_prefix] in Hs.
    rewrite !andb_true_r in Hs. rewrite orb_false_r.
    destruct Hs as [Hs | Hs]; apply char_eqb_eq in Hs; subst d; reflexivity.
Qed.

Lemma after_last_none c s : Str.mem c s = false → Str.after_last c s = None.
Proof.
  induction s as [|d s IH]; [reflexivity|]. rewrite mem_cons. intros H.
  apply orb_false_iff in H as [H1 H2]. simpl. rewrite (IH H2).
  replace (Char.eqb d c) with false; [reflexivity|].
  symmetry. apply char_eqb_neq. apply char_eqb_neq in H1. congruence.
Qed.

Lemma after_last_app c pre name :
  Str.mem c name = false →
  Str.after_last c (pre +:+ String c name) = Some name.
Proof.
  intros H. induction pre as [|d pre IH].
  - rewrite str_app_nil_l. simpl. rewrite (after_last_none _ _ H).
    replace (Char.eqb c c) with true; [reflexivity|]. symmetry. by apply char_eqb_eq.
  - rewrite str_app_cons. simpl. by rewrite IH.
Qed.

(** C8: [filename_from_url] drops a [?]/[#] suffix, keeps the text after
    the final [/], falls back to [image.bin] when that text is empty, and
    maps every character that is not alphanumeric, [.], [_] or [-] to [_];
    the worked example of the specification yields [pic_name_.png]. *)
Theorem filename_from_url_spec :
  (∀ u suffix pre name : string,
     Str.mem "?" u = false → Str.mem "#" u = false →
     (suffix = "" ∨ starts_with suffix "?" = true ∨ starts_with suffix "#" = true) →
     u = pre +:+ "/" +:+ name → Str.mem "/" name = false →
     filename_from_url (u +:+ suffix)
     = Str.map safe_char (if Str.is_empty name then "image.bin" else name))
  ∧ (∀ c, safe_char c
          = if Char.isalnum c || Char.eqb c "." || Char.eqb c "_" || Char.eqb c "-"
            then c else "_"%char)
  ∧ filename_from_url "http://x.com/a/b/pic name!.png?x=1" = "pic_name_.png".
Proof.
  split; [|split; [reflexivity | vm_compute; reflexivity]].
  intros u suffix pre name Hq Hf Hs -> Hn. unfold filename_from_url.
  rewrite (cut_at_qf _ _ Hq Hf Hs).
  change ("/" +:+ name) with (String "/" name).
  rewrite (after_last_app _ _ _ Hn).
  destruct (Str.is_empty name); reflexivity.
Qed.

Lemma filename_from_url_spec_witness :
  filename_from_url ("http://x.com/a/b/pic name!.png" +:+ "?x=1")
  = Str.map safe_char
      (if Str.is_empty "pic name!.png" then "image.bin" else "pic name!.png").
Proof.
  apply (proj1 filename_from_url_spec
           "http://x.com/a/b/pic name!.png" "?x=1" "http://x.com/a/b" "pic name!.png");
    try reflexivity.
  right; left; reflexivity.
Defined.

(** A URL without any slash gets the fallback name. *)
Lemma filename_from_url_no_slash u suffix :
  Str.mem "?" u = false → Str.mem "#" u = false →
  (suffix = "" ∨ starts_with suffix "?" = true ∨ starts_with suffix "#" = true) →
  Str.mem "/" u = false →
  filename_from_url (u +:+ suffix) = "image.bin".
Proof.
  intros Hq Hf Hs Hn. unfold filename_from_url.
  by rewrite (cut_at_qf _ _ Hq Hf Hs), (after_last_none _ _ Hn).
Qed.

(** ** Relative references: the two loops against split-then-normalize *)

Lemma split_on_cons sep s : ∃ x l, Spec.split_on sep s = x :: l.
Proof.
  destruct s as [|c s]; simpl; [by eauto|].
  destruct (Char.eqb c sep); [by eauto|].
  destruct (Spec.split_on sep s); eauto.
Qed.

Lemma split_loop_spec s : ∀ parts tmp,
  finish_split (split_loop s (parts, tmp))
  = parts ++ List.filter nonempty (hd_app tmp (Spec.split_on "/" s)).
Proof.
  induction s as [|c s IH]; intros parts tmp.
  - simpl. rewrite str_app_nil_r. unfold finish_split, nonempty. simpl.
    destruct (Str.is_empty tmp); simpl; [by rewrite app_nil_r | reflexivity].
  - cbn [split_loop Spec.split_on]. unfold split_step.
    destruct (split_on_cons "/" s) as (x & l & Hx).
    destruct (Char.eqb c "/") eqn:Hc.
    + cbn [hd_app]. rewrite str_app_nil_r.
      destruct tmp as [|t tmp]; cbn [Str.is_empty].
      * rewrite IH, Hx. reflexivity.
      * rewrite IH, Hx. cbn [hd_app List.filter]. rewrite str_app_nil_l.
        unfold nonempty at 2. cbn [Str.is_empty negb].
        by rewrite <- app_assoc.
    + rewrite IH, Hx. cbn [hd_app].
      by rewrite str_app_assoc.
Qed.

Lemma path_parts_spec s :
  path_parts s = List.filter nonempty (Spec.split_on "/" s).
Proof.
  unfold path_parts.
  pose proof (split_loop_spec s [] "") as H. unfold finish_split in H.
  destruct (split_loop s ([], "")) as [parts tmp]. simpl in H. rewrite H.
  destruct (split_on_cons "/" s) as (x & l & ->). reflexivity.
Qed.

Lemma norm_step_retain norm seg : norm_step norm seg = Spec.retain norm seg.
Proof.
  unfold norm_step, Spec.retain.
  destruct (decide (seg = "" ∨ seg = ".")) as [[-> | ->] | Hn];
    [reflexivity | reflexivity |].
  assert (String.eqb seg "." = false) as -> by (apply String.eqb_neq; tauto).
  assert (Str.is_empty seg = false) as -> by (apply is_empty_false; tauto).
  cbn [orb].
  destruct (decide (seg = "..")) as [-> | Hdd]; [by destruct norm|].
  by rewrite (proj2 (String.eqb_neq _ _) Hdd).
Qed.

Lemma norm_filter l : ∀ acc,
  fold_left norm_step (List.filter nonempty l) acc = fold_left Spec.retain l acc.
Proof.
  induction l as [|x l IH]; intros acc; [reflexivity|].
  cbn [List.filter fold_left]. unfold nonempty at 1.
  destruct x as [|c x].
  - simpl. apply IH.
  - cbn [Str.is_empty negb fold_left]. by rewrite IH, norm_step_retain.
Qed.

Lemma norm_parts_spec s :
  norm_parts (path_parts s) = Spec.normalize (Spec.split_on "/" s).
Proof. unfold norm_parts. rewrite path_parts_spec. apply norm_filter. Qed.

(** What normalization retains is never an empty, [.] or [..] segment. *)
Lemma retain_clean stack seg :
  Forall (λ x, x ≠ "" ∧ x ≠ "." ∧ x ≠ "..") stack →
  Forall (λ x, x ≠ "" ∧ x ≠ "." ∧ x ≠ "..") (Spec.retain stack seg).
Proof.
  intros H. unfold Spec.retain. repeat case_decide; [done| |].
  - destruct stack as [|y stack] using rev_ind; [done|].
    rewrite removelast_last. by apply Forall_app in H as [H _].
  - apply Forall_app; split; [done|]. constructor; [|done]. naive_solver.
Qed.

Lemma normalize_clean segs :
  Forall (λ x, x ≠ "" ∧ x ≠ "." ∧ x ≠ "..") (Spec.normalize segs).
Proof.
  unfold Spec.normalize. generalize (@nil string) (Forall_nil_2 (λ x : string, x ≠ "" ∧ x ≠ "." ∧ x ≠ "..")).
  induction segs as [|x l IH]; intros acc Hacc; [done|].
  simpl. apply IH. by apply retain_clean.
Qed.

Lemma starts_with_slash2 h : starts_with h "/" = false → starts_with h "//" = false.
Proof.
  unfold starts_with. destruct h as [|c h]; [done|]. cbn [Str.is_prefix].
  rewrite andb_true_r. by intros ->.
Qed.

Lemma front_hash h : h ≠ "" → starts_with h "#" = Char.eqb (Str.front h) "#".
Proof.
  destruct h as [|c h]; [done|]. intros _. unfold starts_with. cbn [Str.is_prefix Str.front].
  rewrite andb_true_r. destruct (Char.eqb "#" c) eqn:E.
  - apply char_eqb_eq in E. by subst.
  - symmetry. apply char_eqb_neq. apply char_eqb_neq in E. congruence.
Qed.

(** ** The base directory *)

Lemma rev_involutive s : Str.rev (Str.rev s) = s.
Proof.
  induction s as [|c s IH]; [reflexivity|].
  by rewrite rev_cons, rev_snoc, IH.
Qed.

Lemma back_snoc s c : Str.back (s +:+ String c "") = c.
Proof. unfold Str.back. by rewrite rev_snoc. Qed.

Lemma snoc_inv s : s ≠ "" → ∃ s' c, s = s' +:+ String c "".
Proof.
  intros Hs. destruct (Str.rev s) as [|c r] eqn:E.
  - apply (f_equal Str.rev) in E. rewrite rev_involutive in E. done.
  - exists (Str.rev r), c. rewrite <- rev_cons, <- E. by rewrite rev_involutive.
Qed.

Lemma upto_last_snoc c s : Str.upto_last c (s +:+ String c "") = Some (s +:+ String c "").
Proof.
  induction s as [|d s IH].
  - simpl. by rewrite (proj2 (char_eqb_eq c c)).
  - rewrite str_app_cons. simpl. by rewrite IH.
Qed.

(** [url_base_dir] is the base directory of the specification. *)
Lemma url_base_dir_spec base : url_base_dir base = Spec.base_directory (path base).
Proof.
  unfold url_base_dir, Spec.base_directory.
  destruct (path base) as [|c p] eqn:Hp; [reflexivity|].
  cbn [Str.is_empty].
  destruct (Char.eqb (Str.back _) "/") eqn:Hb; [|reflexivity].
  apply char_eqb_eq in Hb.
  destruct (Str.cut_at_first_of "?#" (String c p)) as [|d q] eqn:Hq.
  - by vm_compute in Hb.
  - destruct (snoc_inv (String d q)) as (s' & e & Hs); [done|].
    rewrite Hs in *. rewrite back_snoc in Hb. subst e.
    by rewrite upto_last_snoc.
Qed.

(** The C++ spider on a relative reference: it is resolved by appending
    it to the base directory (the base path up to its last [/], without any [?]/[#]
    suffix) and normalizing: split on [/], drop empty and [.] segments,
    pop one retained segment per [..] (none to pop: no effect), rejoin
    behind a leading [/]; [../c.png] against [/a/b/index.html] gives
    [/a/c.png], and nothing retained gives [/]. *)
Theorem join_url_relative :
  (∀ (base : UrlParts) (href : string),
     trim href ≠ "" →
     starts_with (trim href) "#" = false →
     starts_with (to_lower (trim href)) "javascript:" = false →
     starts_with (to_lower (trim href)) "mailto:" = false →
     Spec.is_absolute (trim href) = false →
     starts_with (trim href) "/" = false →
     join_url base href
     = scheme base +:+ "://" +:+ host base
         +:+ Spec.normalize_path (Spec.base_directory (path base) +:+ trim href))
  ∧ (∀ segs, Spec.normalize (".." :: segs) = Spec.normalize segs)
  ∧ join_url (mkUrlParts "http" "example.com" "/a/b/index.html") "../c.png"
    = "http://example.com/a/c.png"
  ∧ Spec.rejoin [] = "/"
  ∧ join_url (mkUrlParts "http" "example.com" "/a/index.html") "../../.."
    = "http://example.com/".
Proof.
  split; [|split; [reflexivity | split; [vm_compute; reflexivity |
    split; [reflexivity | vm_compute; reflexivity]]]].
  intros base href Hne Hh Hj Hm Ha Hs.
  unfold join_url, normalize_url.
  apply is_empty_false in Hne as He. rewrite He.
  rewrite Hj, Hm. cbn [orb].
  rewrite <- (front_hash _ Hne), Hh.
  unfold Spec.is_absolute in Ha. rewrite Ha.
  rewrite (starts_with_slash2 _ Hs), Hs.
  unfold Spec.normalize_path, Spec.rejoin.
  by rewrite norm_parts_spec, url_base_dir_spec.
Qed.

Lemma join_url_relative_witness :
  join_url (mkUrlParts "https" "example.com" "/docs/guide/intro.html?v=2") " ./img/../../logo.png "
  = "https" +:+ "://" +:+ "example.com"
      +:+ Spec.normalize_path
            (Spec.base_directory "/docs/guide/intro.html?v=2"
               +:+ trim " ./img/../../logo.png ").
Proof.
  apply (proj1 join_url_relative
           (mkUrlParts "https" "example.com" "/docs/guide/intro.html?v=2")
           " ./img/../../logo.png ");
    vm_compute; congruence.
Defined.

(** ** Absolute references *)

Lemma tolower_idem c : Char.tolower (Char.tolower c) = Char.tolower c.
Proof. destruct c as [[] [] [] [] [] [] [] []]; reflexivity. Qed.

Lemma to_lower_idem s : to_lower (to_lower s) = to_lower s.
Proof.
  unfold to_lower. induction s as [|c s IH]; [reflexivity|].
  simpl. by rewrite tolower_idem, IH.
Qed.

Lemma parse_url_scheme_lower u p : parse_url u = Some p → scheme p = to_lower (scheme p).
Proof.
  unfold parse_url. destruct (Regex.regex_match Pat.url u); [|discriminate].
  intros [= <-]. simpl. by rewrite to_lower_idem.
Qed.

Lemma absolute_shape h :
  Spec.is_absolute h = true →
  Str.is_empty h = false
  ∧ starts_with (to_lower h) "javascript:" || starts_with (to_lower h) "mailto:" = false
  ∧ Char.eqb (Str.front h) "#" = false.
Proof.
  unfold Spec.is_absolute, starts_with. destruct h as [|c h]; [discriminate|].
  cbn [to_lower Str.map Str.is_prefix Str.is_empty Str.front]. intros H.
  assert (Char.eqb "h" (Char.tolower c) = true) as Hc.
  { apply orb_true_iff in H as [H|H]; by apply andb_true_iff in H as [H _]. }
  apply char_eqb_eq in Hc. rewrite <- Hc.
  split; [reflexivity|]. split; [reflexivity|].
  apply char_eqb_neq. intros ->. by vm_compute in Hc.
Qed.

Lemma join_url_absolute_trim base h :
  Spec.is_absolute (trim h) = true → join_url base h = trim h.
Proof.
  intros H. destruct (absolute_shape _ H) as (He & Hj & Hh).
  unfold join_url, normalize_url. rewrite He, Hj, Hh.
  unfold Spec.is_absolute in H. by rewrite H.
Qed.

Lemma rtrim_keeps_prefix P : ∀ h,
  Str.take_while (fun c => negb (Char.isspace c)) P = P →
  Str.is_prefix P (to_lower h) = true →
  Str.is_prefix P (to_lower (C.rtrim h)) = true.
Proof.
  induction P as [|a P IH]; intros h HP Hh; [reflexivity|].
  destruct h as [|d h]; [discriminate|].
  cbn [Str.take_while] in HP.
  destruct (Char.isspace a) eqn:Ha; cbn [negb] in HP; [discriminate|].
  injection HP as HP.
  cbn [to_lower Str.map Str.is_prefix] in Hh.
  apply andb_true_iff in Hh as [Had Hh]. apply char_eqb_eq in Had.
  assert (Char.isspace d = false) as Hd.
  { destruct (Char.isspace d) eqn:Hd; [|reflexivity].
    rewrite (isspace_tolower _ Hd) in Had. congruence. }
  rewrite rtrim_cons, Hd, andb_false_r.
  cbn [to_lower Str.map Str.is_prefix].
  apply andb_true_iff. split; [by apply char_eqb_eq|]. by apply IH.
Qed.

Lemma ltrim_keeps_prefix a P h :
  Char.isspace a = false →
  Str.is_prefix (String a P) (to_lower h) = true → C.ltrim h = h.
Proof.
  intros Ha Hh. destruct h as [|d h]; [reflexivity|].
  cbn [to_lower Str.map Str.is_prefix] in Hh.
  apply andb_true_iff in Hh as [Had _]. apply char_eqb_eq in Had.
  unfold C.ltrim. cbn [Str.drop_while].
  destruct (Char.isspace d) eqn:Hd; [|reflexivity].
  rewrite (isspace_tolower _ Hd) in Had. congruence.
Qed.

(** A reference that starts with [http://] or [https://] still does once
    trimmed. *)
Lemma is_absolute_trim href :
  Spec.is_absolute href = true → Spec.is_absolute (trim href) = true.
Proof.
  unfold Spec.is_absolute, starts_with. rewrite trim_rtrim_ltrim.
  intros [H|H]%orb_true_iff; apply orb_true_iff; [left|right];
    rewrite (ltrim_keeps_prefix "h"%char _ _ eq_refl H);
    by apply rtrim_keeps_prefix.
Qed.

(** C1, as stated, fails: an already-absolute reference comes back with the
    letter case of its scheme as written, not lower-cased. *)
Lemma join_url_absolute_keeps_case :
  ¬ (∀ (base : UrlParts) (href : string),
       Spec.is_absolute href = true →
       join_url base href = Spec.lower_scheme href).
Proof.
  intros H.
  specialize (H (mkUrlParts "http" "example.com" "/") "HTTP://x.com/a" eq_refl).
  vm_compute in H. discriminate H.
Qed.

(** C1, amended: for every base, a reference that after trimming starts
    (in any letter case) with [http://] or [https://] resolves to the
    trimmed reference itself, letter case kept; resolving the result again,
    against any base, changes nothing; lower-casing of the scheme happens
    only in [parse_url], whose result has the scheme [http] or [https] in
    lower case. *)
Theorem join_url_absolute (base : UrlParts) (href : string) :
  Spec.is_absolute (trim href) = true →
  join_url base href = trim href
  ∧ (∀ base', join_url base' (join_url base href) = join_url base href)
  ∧ (∀ p, parse_url (join_url base href) = Some p →
          scheme p = "http" ∨ scheme p = "https").
Proof.
  intros H. rewrite (join_url_absolute_trim _ _ H).
  split; [reflexivity|]. split.
  - intros base'. rewrite join_url_absolute_trim; rewrite trim_idem; done.
  - intros p Hp. by apply parse_url_invariant in Hp as [Hp _].
Qed.

Lemma join_url_absolute_witness :
  join_url (mkUrlParts "http" "example.com" "/a/b") " HTTPS://X.com/a.png "
  = trim " HTTPS://X.com/a.png ".
Proof.
  apply (join_url_absolute (mkUrlParts "http" "example.com" "/a/b") " HTTPS://X.com/a.png ").
  vm_compute. reflexivity.
Defined.

(** ** The crawl as a sequence of effects *)

Section CrawlFacts.

Context {World : Type}.
Variable http_get_text : World -> string -> World * option string.
Variable http_download_file : World -> string -> string -> World * bool.

Abbreviation State := (State World).
Abbreviation step := (step http_get_text http_download_file).
Abbreviation image_step := (image_step http_download_file).
Abbreviation crawl_body := (crawl_body http_get_text http_download_file).
Abbreviation crawl_fuel := (crawl_fuel http_get_text http_download_file).
Abbreviation crawl := (crawl http_get_text http_download_file).

Lemma image_step_steps opt parts (st : State) src :
  rtc step st (image_step opt parts st src).
Proof.
  unfold image_step.
  destruct (Str.is_empty _); [apply rtc_refl|].
  destruct (is_image_url _) eqn:Hi; cbn [negb]; [|apply rtc_refl].
  case_decide; [apply rtc_refl|].
  destruct (http_download_file _ _ _) as [w ok] eqn:Hd.
  apply rtc_once. by eapply step_download.
Qed.

Lemma image_pass_steps opt parts srcs : ∀ st : State,
  rtc step st (fold_left (image_step opt parts) srcs st).
Proof.
  induction srcs as [|src srcs IH]; intros st; [apply rtc_refl|].
  simpl. etrans; [apply image_step_steps | apply IH].
Qed.

Lemma link_step_steps url parts recur (st : State) href :
  parse_url url = Some parts →
  (∀ u st', rtc step st' (recur u st')) →
  rtc step st (link_step url parts recur st href).
Proof.
  intros Hp Hr. unfold link_step.
  destruct (Str.is_empty _); [apply rtc_refl|].
  destruct (parse_url (join_url parts href)) as [np|] eqn:Hn; [|apply rtc_refl].
  destruct (String.eqb_spec (to_lower (host np)) (to_lower (host parts))) as [He|He];
    cbn [negb]; [|apply rtc_refl].
  eapply rtc_l; [|apply Hr]. by eapply step_follow.
Qed.

Lemma link_pass_steps url parts recur hrefs :
  parse_url url = Some parts →
  (∀ u st', rtc step st' (recur u st')) →
  ∀ st : State, rtc step st (fold_left (link_step url parts recur) hrefs st).
Proof.
  intros Hp Hr. induction hrefs as [|h hrefs IH]; intros st; [apply rtc_refl|].
  simpl. etrans; [by apply link_step_steps | apply IH].
Qed.

Lemma crawl_body_steps recur opt url d (st : State) :
  (∀ u st', rtc step st' (recur u st')) →
  rtc step st (crawl_body recur opt url d st).
Proof.
  intros Hr. unfold crawl_body.
  destruct (Str.is_empty url); [apply rtc_refl|].
  destruct (parse_url url) as [parts|] eqn:Hp; [|apply rtc_refl].
  case_decide as Hv; [apply rtc_refl|].
  cbn [world visited_pages downloaded_images trace].
  destruct (http_get_text (world st) url) as [w res] eqn:Hg.
  eapply rtc_l; [by eapply step_fetch|].
  destruct res as [html|]; [|apply rtc_refl].
  destruct (negb (recursive opt)); [apply image_pass_steps|].
  destruct (d <=? 0)%Z; [apply image_pass_steps|].
  etrans; [apply image_pass_steps | by apply link_pass_steps].
Qed.

Lemma crawl_fuel_steps fuel : ∀ opt url d (st : State),
  rtc step st (crawl_fuel fuel opt url d st).
Proof.
  induction fuel as [|fuel IH]; intros opt url d st; simpl;
    apply crawl_body_steps; intros u st'; [apply rtc_refl | apply IH].
Qed.

Lemma crawl_steps opt url d (st : State) : rtc step st (crawl opt url d st).
Proof. apply crawl_fuel_steps. Qed.

(** The recursion never runs out of fuel: [crawl] satisfies the equation
    of the source, with [depth_left - 1] in the recursive call. *)
Lemma crawl_unfold opt url d (st : State) :
  crawl opt url d st = crawl_body (fun u => crawl opt u (d - 1)) opt url d st.
Proof.
  unfold crawl. destruct (Z.leb_spec d 0) as [Hd|Hd].
  - replace (Z.to_nat d) with 0 by lia. simpl. unfold crawl_body.
    apply Z.leb_le in Hd. rewrite Hd.
    repeat (first [case_match | case_decide]); reflexivity.
  - replace (Z.to_nat d) with (S (Z.to_nat (d - 1))) by lia. reflexivity.
Qed.

(** Effects only add: to the trace, and to the two sets. *)
Lemma steps_mono (st st' : State) :
  rtc step st st' →
  visited_pages st ⊆ visited_pages st'
  ∧ downloaded_images st ⊆ downloaded_images st'
  ∧ ∃ new, trace st' = trace st ++ new.
Proof.
  induction 1 as [st | st st1 st' Hs _ (Hv & Hd & new & Ht)].
  - repeat split; [done..|]. exists []. by rewrite app_nil_r.
  - inversion Hs; subst; cbn [visited_pages downloaded_images trace] in *;
      (split; [set_solver|]; split; [set_solver|]);
      eexists; rewrite Ht, <- app_assoc; reflexivity.
Qed.

Lemma fetched_urls_app a b : fetched_urls (a ++ b) = fetched_urls a ++ fetched_urls b.
Proof. apply omap_app. Qed.

(** Every page fetch of a sequence of effects is of a URL that was not yet
    in the visited set, and no two are of the same URL. *)
Lemma steps_fetch_fresh (st st' : State) :
  rtc step st st' →
  ∃ new, trace st' = trace st ++ new
    ∧ NoDup (fetched_urls new)
    ∧ ∀ u, u ∈ fetched_urls new → (u ∉ visited_pages st) ∧ u ∈ visited_pages st'.
Proof.
  induction 1 as [st | st st1 st' Hs Hrest (new & Ht & Hnd & Hf)].
  - exists []. rewrite app_nil_r. repeat split; [constructor | |]; set_solver.
  - destruct (steps_mono _ _ Hrest) as (Hv & _ & _).
    inversion Hs; subst; cbn [visited_pages downloaded_images trace] in *;
      (eexists; split; [rewrite Ht, <- app_assoc; reflexivity|]);
      cbn [app fetched_urls omap]; fold (fetched_urls new).
    + split.
      * constructor; [|done]. intros Hin. apply Hf in Hin as [Hin _].
        apply Hin, elem_of_union_l, elem_of_singleton. reflexivity.
      * intros u [-> | Hin]%elem_of_cons.
        -- split; [assumption|].
           apply Hv, elem_of_union_l, elem_of_singleton. reflexivity.
        -- apply Hf in Hin as [Hin1 Hin2]. split; [|exact Hin2].
           intros Hu. apply Hin1, elem_of_union_r, Hu.
    + done.
    + done.
Qed.

(** Every link a sequence of effects follows leads to the host of the page
    it was found on. *)
Lemma steps_follow_same_host (st st' : State) :
  rtc step st st' →
  ∃ new, trace st' = trace st ++ new
    ∧ ∀ referrer next, EvFollow referrer next ∈ new →
        ∃ pr pn, parse_url referrer = Some pr ∧ parse_url next = Some pn
                 ∧ to_lower (host pn) = to_lower (host pr).
Proof.
  induction 1 as [st | st st1 st' Hs Hrest (new & Ht & Hf)].
  - exists []. rewrite app_nil_r. split; [done|]. intros ?? Hin. by apply elem_of_nil in Hin.
  - inversion Hs; subst; cbn [trace] in *;
      (eexists; split; [rewrite Ht, <- app_assoc; reflexivity|]);
      intros referrer next [Heq | Hin]%elem_of_cons; try discriminate Heq; eauto.
    injection Heq as -> ->. eauto.
Qed.

(** C3: in every crawl, from any state of the run, the pages fetched are
    pairwise distinct, none was in the visited set before, and each is in
    it afterwards; so a run that starts with the empty set fetches no URL
    twice. *)
Theorem crawl_fetches_once opt url depth :
  (∀ st : State,
     ∃ new, trace (crawl opt url depth st) = trace st ++ new
       ∧ NoDup (fetched_urls new)
       ∧ ∀ u, u ∈ fetched_urls new →
           (u ∉ visited_pages st) ∧ u ∈ visited_pages (crawl opt url depth st))
  ∧ (∀ w, NoDup (fetched_urls (trace (crawl opt url depth (init_state w))))).
Proof.
  split.
  - intros st. apply steps_fetch_fresh, crawl_steps.
  - intros w.
    destruct (steps_fetch_fresh _ _ (crawl_steps opt url depth (init_state w)))
      as (new & Ht & Hnd & _).
    by rewrite Ht.
Qed.

(** C4: every call the link pass makes to [crawl], at whatever depth of the
    recursion, is for a URL whose host, compared exactly and without regard
    to letter case, is the host of the page the link was found on. *)
Theorem crawl_follows_same_host_only opt url depth (st : State) :
  ∃ new, trace (crawl opt url depth st) = trace st ++ new
    ∧ ∀ referrer next, EvFollow referrer next ∈ new →
        ∃ pr pn, parse_url referrer = Some pr ∧ parse_url next = Some pn
                 ∧ to_lower (host pn) = to_lower (host pr).
Proof. apply steps_follow_same_host, crawl_steps. Qed.

(** ** The image pass *)







End CrawlFacts.

(** ** Runs on the sample web *)

Example sample_crawl_trace :
  trace (crawl Sample.get Sample.download_ok Sample.opts "http://x.com/" 5 (init_state tt))
  = [ EvFetch "http://x.com/" true;
      EvDownload "http://cdn.y.com/logo.png" "./data/logo.png" true;
      EvFollow "http://x.com/" "http://x.com/b";
      EvFetch "http://x.com/b" true;
      EvDownload "http://x.com/pic.jpg" "./data/pic.jpg" true;
      EvFollow "http://x.com/b" "http://x.com/";
      EvFollow "http://x.com/" "http://x.com/" ].
Proof. vm_compute. reflexivity. Qed.

Lemma crawl_fetches_once_witness :
  NoDup (fetched_urls
           (trace (crawl Sample.get Sample.download_ok Sample.opts "http://x.com/" 5
                         (init_state tt)))).
Proof.
  apply (proj2 (crawl_fetches_once Sample.get Sample.download_ok
                  Sample.opts "http://x.com/" 5) tt).
Defined.

Lemma crawl_follows_same_host_only_witness :
  ∃ new,
    trace (crawl Sample.get Sample.download_ok Sample.opts "http://x.com/" 5 (init_state tt))
    = trace (init_state tt) ++ new
    ∧ ∀ referrer next, EvFollow referrer next ∈ new →
        ∃ pr pn, parse_url referrer = Some pr ∧ parse_url next = Some pn
                 ∧ to_lower (host pn) = to_lower (host pr).
Proof.
  apply (crawl_follows_same_host_only Sample.get Sample.download_ok
           Sample.opts "http://x.com/" 5 (init_state tt)).
Defined.


(** ** The command line *)

Section MainFacts.

Context {World : Type}.
Variable http_get_text : World -> string -> World * option string.
Variable http_download_file : World -> string -> string -> World * bool.
Variable create_directories : World -> string -> World * bool.

Lemma parse_url_sample :
  parse_url "http://x.com/" = Some (mkUrlParts "http" "x.com" "/").
Proof. vm_compute. reflexivity. Qed.

(** How [main] ends once the arguments are parsed to [opt0] and a valid
    seed URL: with exit code 1 when the output directory cannot be made,
    else with a crawl started at the depth chosen after the default rule. *)
Lemma main_after_args (w : World) args opt0 url parts :
  parse_args args default_options "" = ArgOk opt0 url →
  url ≠ "" → parse_url url = Some parts →
  let opt := apply_default_depth opt0 in
  let depth := if recursive opt then max_depth opt else 0%Z in
  main http_get_text http_download_file create_directories w args = Exited 1
  ∨ ∃ st v d,
      main http_get_text http_download_file create_directories w args
      = Done depth st v d.
Proof.
  intros Ha Hu Hp opt depth. unfold main. rewrite Ha.
  apply is_empty_false in Hu. rewrite Hu. fold opt.
  destruct (create_directories w (out_dir opt)) as [w1 ok].
  destruct ok; cbn [negb]; [|by left].
  rewrite Hp. right. eauto.
Qed.

(** With [-r] and no [-l], the crawl starts at depth 5. *)
Lemma main_depth_default (w : World) :
  main http_get_text http_download_file create_directories w ["-r"; "http://x.com/"]
  = Exited 1
  ∨ ∃ st v d,
      main http_get_text http_download_file create_directories w ["-r"; "http://x.com/"]
      = Done 5 st v d.
Proof.
  eapply (main_after_args w _ (mkOptions true 0 "./data") "http://x.com/");
    [reflexivity | discriminate | apply parse_url_sample].
Qed.

(** With [-r -l n] for digits [n] of a value other than zero that fits an
    [int], the crawl starts at that depth. *)
Lemma main_depth_positive (w : World) n v :
  is_number n = true → stoi n = Some v → v ≠ 0%Z →
  main http_get_text http_download_file create_directories w
       ["-r"; "-l"; n; "http://x.com/"] = Exited 1
  ∨ ∃ st c d,
      main http_get_text http_download_file create_directories w
           ["-r"; "-l"; n; "http://x.com/"] = Done v st c d.
Proof.
  intros Hn Hs Hv.
  pose proof (main_after_args w ["-r"; "-l"; n; "http://x.com/"]
                (mkOptions true v "./data") "http://x.com/"
                (mkUrlParts "http" "x.com" "/")) as H.
  cbn [parse_args] in H. rewrite Hn, Hs in H.
  specialize (H eq_refl ltac:(discriminate) parse_url_sample).
  unfold apply_default_depth in H. cbn [recursive max_depth andb] in H.
  apply Z.eqb_neq in Hv. rewrite Hv in H. exact H.
Qed.

(** C2, at the input [-r -l 0]: the depth asked for is 0, and the crawl
    starts at depth 5, because a depth of 0 is taken for [-l] not having
    been given. *)
Theorem main_depth_zero_becomes_five (w : World) :
  main http_get_text http_download_file create_directories w
       ["-r"; "-l"; "0"; "http://x.com/"] = Exited 1
  ∨ ∃ st v d,
      main http_get_text http_download_file create_directories w
           ["-r"; "-l"; "0"; "http://x.com/"] = Done 5 st v d.
Proof.
  eapply (main_after_args w _ (mkOptions true 0 "./data") "http://x.com/");
    [reflexivity | discriminate | apply parse_url_sample].
Qed.

End MainFacts.

(** ** What the closing summary counts *)

Section SummaryFacts.

Context {World : Type}.
Variable http_get_text : World -> string -> World * option string.
Variable http_download_file : World -> string -> string -> World * bool.
Variable create_directories : World -> string -> World * bool.

Lemma download_attempts_app a b :
  download_attempts (a ++ b) = download_attempts a + download_attempts b.
Proof. unfold download_attempts. by rewrite List.filter_app, length_app. Qed.

Lemma steps_counts (st st' : State World) :
  rtc (step http_get_text http_download_file) st st' →
  ∃ new, trace st' = trace st ++ new
    ∧ size (visited_pages st') = size (visited_pages st) + length (fetched_urls new)
    ∧ size (downloaded_images st')
      = size (downloaded_images st) + download_attempts new.
Proof.
  induction 1 as [st | st st1 st' Hs _ (new & Ht & Hv & Hd)].
  - exists []. rewrite app_nil_r.
    unfold fetched_urls, download_attempts. repeat split; simpl; lia.
  - inversion Hs; subst; cbn [visited_pages downloaded_images trace] in *;
      (eexists; split; [rewrite Ht, <- app_assoc; reflexivity|]);
      rewrite Hv, Hd; cbn [app]; rewrite ?fetched_urls_app.
    + rewrite size_union, size_singleton by (apply disjoint_singleton_l; done).
      split; [simpl; lia | reflexivity].
    + rewrite size_union, size_singleton by (apply disjoint_singleton_l; done).
      split; [reflexivity|].
      change (EvDownload imgUrl out_path ok :: new)
        with ([EvDownload imgUrl out_path ok] ++ new).
      rewrite download_attempts_app. simpl. lia.
    + split; reflexivity.
Qed.

(** The two numbers of the summary are the number of page fetches made and
    the number of image downloads attempted, failed ones included. *)
Lemma main_summary_counts (w : World) args depth st v d :
  main http_get_text http_download_file create_directories w args = Done depth st v d →
  v = length (fetched_urls (trace st)) ∧ d = download_attempts (trace st).
Proof.
  unfold main. destruct (parse_args _ _ _) as [| |opt0 url]; try discriminate.
  destruct (Str.is_empty url); [discriminate|].
  destruct (create_directories _ _) as [w1 ok].
  destruct ok; cbn [negb]; [|discriminate].
  destruct (parse_url url); [|discriminate].
  intros H. injection H as _ <- Hv' Hd'. subst v d.
  destruct (steps_counts _ _ (crawl_steps http_get_text http_download_file
              (apply_default_depth opt0) url
              (if recursive (apply_default_depth opt0)
               then max_depth (apply_default_depth opt0) else 0%Z)
              (init_state w1))) as (new & Ht & Hv & Hd).
  rewrite Hv, Hd, Ht. cbn [init_state visited_pages downloaded_images trace app].
  rewrite !size_empty. split; reflexivity.
Qed.

End SummaryFacts.

(** The same on the sample web, where the output directory can be made:
    the run asked to stay at depth 0 follows the links of the seed page. *)
Example sample_depth_zero_run :
  ∃ st v d,
    main Sample.get Sample.download_ok Sample.mkdir tt ["-r"; "-l"; "0"; "http://x.com/"]
    = Done 5 st v d
    ∧ EvFetch "http://x.com/b" true ∈ trace st.
Proof.
  eexists _, _, _. split; [reflexivity|].
  vm_compute. repeat constructor.
Qed.

(** C9, at a run whose only image download fails: the summary says one
    image was downloaded, and no download succeeded. *)
Theorem summary_counts_failed_download :
  ∃ st,
    main Sample.get Sample.download_fails Sample.mkdir tt ["http://x.com/"]
    = Done 0 st 1 1
    ∧ trace st = [ EvFetch "http://x.com/" true;
                   EvDownload "http://cdn.y.com/logo.png" "./data/logo.png" false ]
    ∧ successful_downloads (trace st) = 0.
Proof.
  eexists. split; [vm_compute; reflexivity|].
  split; vm_compute; reflexivity.
Qed.


(** ** The tag loop of the C port against the iterator of the C++ spider *)

Section TagScan.
Import Regex.

Lemma longest_functional l : length l ≤ 1 → Posix.longest l = head l.
Proof. destruct l as [|x [|y l]]; simpl; [done | done | lia]. Qed.

Lemma tag_prev_indep name prev s :
  matchR (Pat.tag name) (start prev s) = matchR (Pat.tag name) (start None s).
Proof. unfold Pat.tag, start. cbn [matchR ms_rest ms_caps]. reflexivity. Qed.

Lemma search_tag_prev name : ∀ s prev,
  Ecma.search (Pat.tag name) prev s = Ecma.search (Pat.tag name) None s.
Proof.
  induction s as [|c s IH]; intros prev; cbn [Ecma.search]; unfold Ecma.first_at;
    rewrite (tag_prev_indep name prev); unfold consumed, start; cbn [ms_rest];
    destruct (matchR _ _); reflexivity.
Qed.

Lemma tag_match_lt name st st' :
  In st' (matchR (Pat.tag name) st) →
  String.length (ms_rest st') < String.length (ms_rest st).
Proof. apply matchR_chr_seq_lt. Qed.

(** On the tag pattern [regexec] and [regex_search] find the same match,
    and it is never empty. *)
Lemma regexec_search_tag name :
  plain_name name →
  ∀ s prev so,
    match Ecma.search (Pat.tag name) prev s with
    | None => Posix.regexec_from (Pat.tag name) prev s so = None
    | Some (txt, st') =>
        Str.is_empty txt = false
        ∧ ∃ so', Posix.regexec_from (Pat.tag name) prev s so = Some (so', txt, st')
    end.
Proof.
  intros Hn. induction s as [|c s IH]; intros prev so;
    cbn [Ecma.search Posix.regexec_from]; unfold Ecma.first_at;
    rewrite (longest_functional _ (functional_tag name Hn _));
    destruct (matchR (Pat.tag name) (start prev _)) as [|st' l] eqn:Hm; cbn [head].
  - reflexivity.
  - split; [|by eauto]. apply consumed_nonempty, (tag_match_lt name).
    rewrite Hm. by left.
  - apply IH.
  - split; [|by eauto]. apply consumed_nonempty, (tag_match_lt name).
    rewrite Hm. by left.
Qed.

Lemma tag_loop_iterate name attr :
  plain_name name →
  ∀ fuel s prev out,
    C.tag_loop fuel name attr s out
    = fold_left (fun out m => out ++ C.tag_attr_value attr (fst m))
                (Ecma.iterate fuel (Pat.tag name) prev s) out.
Proof.
  intros Hn. induction fuel as [|fuel IH]; intros s prev out; [reflexivity|].
  cbn [C.tag_loop Ecma.iterate]. unfold Posix.regexec.
  pose proof (regexec_search_tag name Hn s None 0) as H.
  rewrite (search_tag_prev name s prev).
  destruct (Ecma.search (Pat.tag name) None s) as [[txt st']|].
  - destruct H as (Hne & so' & ->). rewrite Hne.
    cbn [fold_left fst]. apply IH.
  - rewrite H. reflexivity.
Qed.

Lemma fold_left_app_flat_map {A B} (f : A → list B) l : ∀ acc,
  fold_left (fun out x => out ++ f x) l acc = acc ++ flat_map f l.
Proof.
  induction l as [|x l IH]; intros acc; simpl; [by rewrite app_nil_r|].
  by rewrite IH, app_assoc.
Qed.

Lemma flat_map_fst {A B C} (f : A → list C) (l : list (A * B)) :
  flat_map (fun m => f (fst m)) l = flat_map f (fst <$> l).
Proof. induction l as [|x l IH]; simpl; [done|]. by rewrite IH. Qed.

Lemma flat_map_ext_in {A B} (f g : A → list B) l :
  (∀ x, x ∈ l → f x = g x) → flat_map f l = flat_map g l.
Proof.
  induction l as [|x l IH]; intros H; simpl; [done|].
  rewrite H, IH; [done | | by left]. intros y Hy. apply H. by right.
Qed.

Lemma tag_attr_value_le1 attr tag : length (C.tag_attr_value attr tag) ≤ 1.
Proof.
  unfold C.tag_attr_value. repeat case_match; simpl; lia.
Qed.

End TagScan.

(** C10, as stated, fails, for two reasons.  On a tag that has two
    matches of the [src] pattern the C++ extractor returns both values and
    the C extractor only the first.  And where the pattern can match in
    more than one way, the C extractor takes the longest match and the C++
    extractor the preferred one: after [src=] the text ['a'b] is read as
    the unquoted value ['a'b] by the one and as the quoted value [a] by
    the other. *)
Lemma extractors_differ :
  (C.extract_tag_attrs "<img src=a.png data-src=b.png>" "img" "src" [] = ["a.png"]
   ∧ extract_img_srcs "<img src=a.png data-src=b.png>" = ["a.png"; "b.png"])
  ∧ (C.extract_tag_attrs "<img src='a'b>" "img" "src" [] = ["'a'b"]
     ∧ extract_img_srcs "<img src='a'b>" = ["a"]).
Proof. repeat split; vm_compute; reflexivity. Qed.

(** On HTML without a NUL byte the two extractors walk the same [img] tag
    spans in the same order, each taking its values span by span. *)
Lemma extractors_per_tag (html : string) :
  C.c_str html = html →
  C.extract_tag_attrs html "img" "src" []
  = flat_map (C.tag_attr_value "src") (fst <$> Ecma.all_matches (Pat.tag "img") html)
  ∧ extract_img_srcs html
    = flat_map (fun tag => extract_attr_urls tag "src")
               (fst <$> Ecma.all_matches (Pat.tag "img") html).
Proof.
  intros Hnul. split.
  - unfold C.extract_tag_attrs. rewrite Hnul.
    rewrite (tag_loop_iterate "img" "src" eq_refl _ _ None).
    rewrite fold_left_app_flat_map. cbn [app]. apply flat_map_fst.
  - unfold extract_img_srcs, extract_in_tags.
    rewrite (fold_left_app_flat_map (fun m => extract_attr_urls (fst m) "src")).
    cbn [app]. apply (flat_map_fst (fun tag => extract_attr_urls tag "src")).
Qed.

(* ================================================================== *)
(** * Further properties of the code                                   *)
(* ================================================================== *)

(** ** [trim] *)

Lemma all_chars_app p s t : all_chars p (s +:+ t) = all_chars p s && all_chars p t.
Proof.
  induction s as [|c s IH]; [reflexivity|].
  rewrite str_app_cons. simpl. by rewrite IH, andb_assoc.
Qed.

Lemma take_drop_while p s : Str.take_while p s +:+ Str.drop_while p s = s.
Proof.
  induction s as [|c s IH]; [reflexivity|]. simpl.
  destruct (p c); [|reflexivity]. by rewrite str_app_cons, IH.
Qed.

Lemma all_chars_take_while p s : all_chars p (Str.take_while p s) = true.
Proof.
  induction s as [|c s IH]; [reflexivity|]. simpl.
  destruct (p c) eqn:E; [|reflexivity]. simpl. by rewrite E.
Qed.

Lemma rev_app s t : Str.rev (s +:+ t) = Str.rev t +:+ Str.rev s.
Proof. unfold Str.rev at 1. by rewrite rev_onto_app, rev_onto_acc. Qed.

Lemma all_chars_rev p s : all_chars p (Str.rev s) = all_chars p s.
Proof.
  induction s as [|c s IH]; [reflexivity|].
  rewrite rev_cons, all_chars_app, IH. simpl. rewrite andb_true_r. apply andb_comm.
Qed.

Lemma drop_while_front p s :
  Str.drop_while p s = "" ∨ p (Str.front (Str.drop_while p s)) = false.
Proof.
  induction s as [|c s IH]; [by left|]. simpl.
  destruct (p c) eqn:E; [exact IH|]. right. exact E.
Qed.

Lemma rtrim_split s :
  ∃ r, s = C.rtrim s +:+ r ∧ all_chars Char.isspace r = true.
Proof.
  exists (Str.rev (Str.take_while Char.isspace (Str.rev s))). split.
  - unfold C.rtrim. rewrite <- rev_app, take_drop_while. by rewrite rev_involutive.
  - rewrite all_chars_rev. apply all_chars_take_while.
Qed.

Lemma rtrim_front c s :
  Char.isspace c = false → Str.front (C.rtrim (String c s)) = c.
Proof. intros H. by rewrite rtrim_cons, H, andb_false_r. Qed.

(** X1: [trim] strips white space and nothing else, from both ends and
    completely: the input is the result between two runs of white space,
    the result neither starts nor ends with white space, and trimming
    again changes nothing. *)
Theorem trim_spec (s : string) :
  (∃ l r, s = l +:+ trim s +:+ r
          ∧ all_chars Char.isspace l = true ∧ all_chars Char.isspace r = true)
  ∧ (trim s = ""
     ∨ (Char.isspace (Str.front (trim s)) = false
        ∧ Char.isspace (Str.back (trim s)) = false))
  ∧ trim (trim s) = trim s.
Proof.
  split; [|split; [|apply trim_idem]].
  - destruct (rtrim_split (C.ltrim s)) as (r & Hr & Hall).
    exists (Str.take_while Char.isspace s), r.
    rewrite trim_rtrim_ltrim. split; [|split; [apply all_chars_take_while | exact Hall]].
    rewrite <- Hr. unfold C.ltrim. by rewrite take_drop_while.
  - destruct (trim s) as [|c t] eqn:E; [by left|]. right. rewrite <- E. split.
    + rewrite trim_rtrim_ltrim in *. unfold C.ltrim in *.
      destruct (drop_while_front Char.isspace s) as [H0 | Hf].
      { rewrite H0 in E. discriminate. }
      destruct (Str.drop_while Char.isspace s) as [|d u]; [discriminate|].
      simpl in Hf. by rewrite rtrim_front.
    + unfold Str.back, trim. rewrite rev_involutive.
      destruct (drop_while_front Char.isspace
                  (Str.rev (Str.drop_while Char.isspace s))) as [H0 | Hf]; [|exact Hf].
      unfold trim in E. rewrite H0 in E. discriminate.
Qed.

(** ** [parse_url] *)

Section ParseMore.
Import Regex.

Lemma str_length_app s t : String.length (s +:+ t) = String.length s + String.length t.
Proof. induction s as [|c s IH]; [reflexivity|]. rewrite str_app_cons. simpl. by rewrite IH. Qed.

Lemma substring_prefix x y : String.substring 0 (String.length x) (x +:+ y) = x.
Proof.
  induction x as [|c x IH]; [apply substring_0_0|].
  rewrite str_app_cons. simpl. by rewrite IH.
Qed.

(** The text of a match that runs from before [x] to after it. *)
Lemma consumed_app st st' x :
  ms_rest st = x +:+ ms_rest st' → consumed st st' = x.
Proof.
  intros H. unfold consumed. rewrite H, str_length_app.
  replace (String.length x + String.length (ms_rest st') - String.length (ms_rest st'))
    with (String.length x) by lia.
  apply substring_prefix.
Qed.

(** What a greedy run of one character class can match: any number of
    characters of the class, the captures untouched. *)
Lemma star_chr_in p st st' :
  In st' (matchR (Star (Chr p)) st) →
  ∃ x, ms_rest st = x +:+ ms_rest st' ∧ all_chars p x = true
       ∧ ms_caps st' = ms_caps st.
Proof.
  destruct st as [prev rest caps]. revert prev.
  induction rest as [|c s IH]; intros prev; rewrite star_chr_unfold; cbn [ms_rest ms_caps].
  - intros [<- | []]. by exists "".
  - destruct (p c) eqn:Hp.
    + rewrite in_app_iff. intros [H | [<- | []]].
      * apply IH in H as (x & Hx & Hall & Hc). cbn [ms_rest ms_caps] in *.
        exists (String c x). rewrite str_app_cons, <- Hx. simpl. by rewrite Hp.
      * by exists "".
    + intros [<- | []]. by exists "".
Qed.

Lemma all_none_of set x :
  all_chars (fun c => negb (Str.mem c set)) x = true →
  ∀ c, Str.mem c set = true → Str.mem c x = false.
Proof.
  induction x as [|d x IH]; [done|]. simpl.
  intros [Hd Hx]%andb_true_iff c Hc. apply negb_true_iff in Hd.
  apply orb_false_iff. split; [|by apply IH].
  apply char_eqb_neq. intros ->. congruence.
Qed.

(** The host group holds no slash. *)
Lemma host_group_chars st st' :
  In st' (matchR (Plus (none_of "/")) st) → Str.mem "/" (consumed st st') = false.
Proof.
  unfold Plus, none_of. intros (c & s' & Hr & Hp & H)%in_chr_seq.
  apply star_chr_in in H as (x & Hx & Hall & _). cbn [ms_rest] in Hx.
  rewrite (consumed_app st st' (String c x)) by (by rewrite Hr, Hx).
  apply (all_none_of "/" (String c x)); [|reflexivity].
  cbn [all_chars]. apply andb_true_iff. split; [exact Hp | exact Hall].
Qed.

(** The path group holds no line terminator. *)
Lemma path_group_chars st st' :
  In st' (matchR (Seq (chr "/") (Star dot)) st) →
  all_chars not_newline (consumed st st') = true.
Proof.
  unfold chr, dot. intros (c & s' & Hr & Hp%char_eqb_eq & H)%in_chr_seq. subst c.
  apply star_chr_in in H as (x & Hx & Hall & _). cbn [ms_rest] in Hx.
  rewrite (consumed_app st st' (String "/" x)) by (by rewrite Hr, Hx).
  cbn [all_chars]. apply andb_true_iff. split; [reflexivity | exact Hall].
Qed.

Lemma url_match_parts u m :
  In m (matchR Pat.url (start None u)) →
  ∃ x y, (to_lower x = "http" ∨ to_lower x = "https")
    ∧ y ≠ "" ∧ Str.mem "/" y = false
    ∧ (ms_caps m = [(2, y); (1, x)]
       ∨ ∃ z, starts_with z "/" = true ∧ all_chars not_newline z = true
              ∧ ms_caps m = [(3, z); (2, y); (1, x)]).
Proof.
  unfold Pat.url. intros H.
  apply in_seq in H as (s0 & H0 & H). apply (matchR_caps Bol eq_refl) in H0.
  apply in_seq in H as (a & Ha & H). apply (matchR_caps (Star space) eq_refl) in Ha.
  apply in_seq in H as (b & Hb & H). apply in_group in Hb as (b1 & Hb1 & ->).
  pose proof (matchR_caps (Seq (lit_ci "http") (Opt (chr_ci "s"))) eq_refl _ _ Hb1)
    as Hcb1.
  apply scheme_group in Hb1.
  apply in_seq in H as (c & Hc & H). apply (matchR_caps (lit "://") eq_refl) in Hc.
  apply in_seq in H as (d & Hd & H). apply in_group in Hd as (d1 & Hd1 & ->).
  pose proof (matchR_caps (Plus (none_of "/")) eq_refl _ _ Hd1) as Hcd1.
  pose proof (host_group_chars _ _ Hd1) as Hslash.
  apply host_group in Hd1.
  apply in_seq in H as (e & He & H).
  apply in_seq in H as (f & Hf & H). apply (matchR_caps (Star space) eq_refl) in Hf.
  apply (matchR_caps Eol eq_refl) in H.
  exists (consumed a b1), (consumed c d1).
  split; [exact Hb1|]. split; [exact Hd1|]. split; [exact Hslash|].
  rewrite H, Hf.
  apply in_opt in He as [He | ->].
  - right. apply in_group in He as (e1 & He1 & ->).
    pose proof (matchR_caps (Seq (chr "/") (Star dot)) eq_refl _ _ He1) as Hce1.
    pose proof (path_group_chars _ _ He1) as Hnl.
    apply path_group in He1. eexists. split; [exact He1|]. split; [exact Hnl|].
    cbn [set_cap ms_caps] in *. rewrite Hce1, Hcd1, Hc. cbn [ms_caps].
    rewrite Hcb1, Ha, H0. reflexivity.
  - left. cbn [set_cap ms_caps] in *. rewrite Hcd1, Hc. cbn [ms_caps].
    rewrite Hcb1, Ha, H0. reflexivity.
Qed.

End ParseMore.

(** X2: whatever [parse_url] accepts, the parts it returns have the scheme
    [http] or [https] in lower case, a host that is not empty and holds no
    slash, and a path that starts with a slash and holds no line
    terminator. *)
Theorem parse_url_wellformed (u : string) (p : UrlParts) :
  parse_url u = Some p → wellformed p.
Proof.
  unfold parse_url, wellformed.
  destruct (Regex.regex_match Pat.url u) as [m|] eqn:Hm; [|discriminate].
  unfold Regex.regex_match in Hm. apply find_some in Hm as [Hm _].
  apply url_match_parts in Hm as (x & y & Hx & Hy & Hs & Hcaps).
  intros [= <-]. unfold Regex.cap.
  destruct Hcaps as [-> | (z & Hz & Hnl & ->)]; cbn.
  - done.
  - destruct z as [|c z]; [discriminate|]. done.
Qed.

Lemma parse_url_wellformed_witness :
  wellformed (mkUrlParts "https" "Example.com:8080" "/a b/c.png?x=1").
Proof.
  apply (parse_url_wellformed "  HTTPS://Example.com:8080/a b/c.png?x=1").
  vm_compute. reflexivity.
Defined.

Section ParseRoundTrip.
Import Regex.

(** The preferred way of matching: the first of the list. *)
Lemma head_seq r1 r2 st x y :
  (∃ l, matchR r1 st = x :: l) → (∃ l, matchR r2 x = y :: l) →
  ∃ l, matchR (Seq r1 r2) st = y :: l.
Proof. intros [l1 H1] [l2 H2]. cbn [matchR]. rewrite H1. simpl. rewrite H2. eauto. Qed.

Lemma head_group n r st x :
  (∃ l, matchR r st = x :: l) → ∃ l, matchR (Group n r) st = set_cap n st x :: l.
Proof. intros [l H]. cbn [matchR]. rewrite H. simpl. eauto. Qed.

Lemma head_alt_l r1 r2 st x :
  (∃ l, matchR r1 st = x :: l) → ∃ l, matchR (Alt r1 r2) st = x :: l.
Proof. intros [l H]. cbn [matchR]. rewrite H. simpl. eauto. Qed.

Lemma head_alt_r r1 r2 st x :
  matchR r1 st = [] → (∃ l, matchR r2 st = x :: l) → ∃ l, matchR (Alt r1 r2) st = x :: l.
Proof. intros H1 [l H]. cbn [matchR]. rewrite H1, H. simpl. eauto. Qed.

Lemma head_star_chr p st : ∃ l, matchR (Star (Chr p)) st = skip p st :: l.
Proof.
  destruct st as [prev rest caps]. revert prev.
  induction rest as [|c s IH]; intros prev; rewrite star_chr_unfold; cbn [ms_rest ms_caps].
  - by exists [].
  - unfold skip. cbn [ms_rest ms_prev ms_caps skip_prev Str.drop_while].
    destruct (p c); [|by exists []].
    destruct (IH (Some c)) as [l Hl]. rewrite Hl. unfold skip. cbn. eauto.
Qed.

Lemma head_chr (p : ascii → bool) prev c s caps :
  p c = true → ∃ l, matchR (Chr p) (MState prev (String c s) caps) = MState (Some c) s caps :: l.
Proof. intros H. cbn. rewrite H. eauto. Qed.

Lemma char_eqb_refl c : Char.eqb c c = true.
Proof. by apply char_eqb_eq. Qed.

Lemma head_lit s : ∀ prev t caps,
  ∃ prev' l, matchR (lit s) (MState prev (s +:+ t) caps) = MState prev' t caps :: l.
Proof.
  induction s as [|c s IH]; intros prev t caps; [by exists prev, []|].
  rewrite str_app_cons. cbn [lit]. destruct (IH (Some c) t caps) as (prev' & l & Hl).
  exists prev'.
  apply (head_seq _ _ _ (MState (Some c) (s +:+ t) caps)); [|by eauto].
  apply head_chr. apply char_eqb_refl.
Qed.

Lemma head_lit_ci s : ∀ prev t caps,
  ∃ prev' l, matchR (lit_ci s) (MState prev (s +:+ t) caps) = MState prev' t caps :: l.
Proof.
  induction s as [|c s IH]; intros prev t caps; [by exists prev, []|].
  rewrite str_app_cons. cbn [lit_ci]. destruct (IH (Some c) t caps) as (prev' & l & Hl).
  exists prev'.
  apply (head_seq _ _ _ (MState (Some c) (s +:+ t) caps)); [|by eauto].
  apply head_chr. apply char_eqb_refl.
Qed.

Lemma drop_while_all_stop (p : ascii → bool) x t :
  all_chars p x = true → (t = "" ∨ p (Str.front t) = false) →
  Str.drop_while p (x +:+ t) = t.
Proof.
  intros Hx Ht. induction x as [|c x IH].
  - rewrite str_app_nil_l. destruct t as [|d t]; [reflexivity|].
    destruct Ht as [Ht|Ht]; [discriminate|]. simpl in *. by rewrite Ht.
  - rewrite str_app_cons. simpl in *. apply andb_true_iff in Hx as [Hc Hx].
    rewrite Hc. by apply IH.
Qed.

(** The scheme group on a lower-case scheme. *)
Lemma head_scheme sch t :
  sch = "http" ∨ sch = "https" →
  ∃ prev' l,
    matchR (Seq (lit_ci "http") (Opt (chr_ci "s")))
           (MState None (sch +:+ "://" +:+ t) [])
    = MState prev' ("://" +:+ t) [] :: l.
Proof.
  intros [-> | ->].
  - destruct (head_lit_ci "http" None ("://" +:+ t) []) as (prev' & l & Hl).
    exists prev'. eapply head_seq; [by eauto|].
    apply head_alt_r; [reflexivity | by exists []].
  - destruct (head_lit_ci "http" None ("s://" +:+ t) []) as (prev' & l & Hl).
    exists (Some "s"%char). eapply head_seq; [by eauto|].
    apply head_alt_l. apply (head_chr _ prev' "s" ("://" +:+ t) []). reflexivity.
Qed.

Lemma mem_all_none_of set x :
  (∀ c, Str.mem c set = true → Str.mem c x = false) →
  all_chars (fun c => negb (Str.mem c set)) x = true.
Proof.
  induction x as [|d x IH]; [done|]. intros H. cbn [all_chars].
  apply andb_true_iff. split.
  - apply negb_true_iff. destruct (Str.mem d set) eqn:E; [|reflexivity].
    specialize (H d E). rewrite mem_cons, char_eqb_refl in H. discriminate.
  - apply IH. intros c Hc. specialize (H c Hc). rewrite mem_cons in H.
    by apply orb_false_iff in H as [_ H].
Qed.

(** The end of the URL pattern, from the end of the host on. *)
Lemma head_url_tail prev pth caps :
  (pth = "" ∨ (starts_with pth "/" = true ∧ all_chars not_newline pth = true)) →
  ∃ m l, matchR (Seq (Opt (Group 3 (Seq (chr "/") (Star dot)))) (Seq (Star space) Eol))
                (MState prev pth caps) = m :: l
    ∧ ms_rest m = ""
    ∧ ms_caps m = (if Str.is_empty pth then [] else [(3, pth)]) ++ caps.
Proof.
  intros [-> | [Hs Hnl]].
  - assert (∃ l, matchR (Seq (Opt (Group 3 (Seq (chr "/") (Star dot))))
                            (Seq (Star space) Eol)) (MState prev "" caps)
                   = MState prev "" caps :: l) as [l Hl].
    { apply (head_seq _ _ _ (MState prev "" caps)).
      + apply head_alt_r; [reflexivity | by exists []].
      + apply (head_seq _ _ _ (MState prev "" caps)); [by exists [] | by exists []]. }
    by exists (MState prev "" caps), l.
  - destruct pth as [|q pth']; [discriminate|].
    unfold starts_with in Hs. cbn [Str.is_prefix] in Hs. rewrite andb_true_r in Hs.
    apply char_eqb_eq in Hs. subst q.
    cbn [all_chars] in Hnl. apply andb_true_iff in Hnl as [_ Hnl].
    set (d := MState prev (String "/" pth') caps).
    set (k1 := MState (Some "/"%char) pth' caps).
    set (e1 := skip not_newline k1).
    assert (ms_rest e1 = "") as He1.
    { pose proof (drop_while_all_stop not_newline pth' "" Hnl (or_introl eq_refl)) as H.
      rewrite str_app_nil_r in H. exact H. }
    assert (consumed d e1 = String "/" pth') as Hc.
    { apply consumed_app. rewrite He1. cbn [ms_rest]. by rewrite str_app_nil_r. }
    set (e := set_cap 3 d e1).
    assert (∃ l, matchR (Seq (Opt (Group 3 (Seq (chr "/") (Star dot))))
                            (Seq (Star space) Eol)) d
                   = skip Char.isspace e :: l) as [l Hl].
    { apply (head_seq _ _ _ e).
      + apply head_alt_l, head_group.
        apply (head_seq _ _ _ k1); [by apply head_chr | apply head_star_chr].
      + apply (head_seq _ _ _ (skip Char.isspace e)); [apply head_star_chr|].
        unfold skip, e. cbn [matchR ms_rest set_cap]. rewrite He1. by exists []. }
    exists (skip Char.isspace e), l. split; [exact Hl|]. split.
    + unfold skip, e. cbn [ms_rest set_cap]. by rewrite He1.
    + unfold skip, e. cbn [ms_caps set_cap Str.is_empty app]. by rewrite Hc.
Qed.

(** The preferred match of the URL pattern on [scheme://host] followed by
    a path or by nothing. *)
Lemma head_url sch hst pth :
  sch = "http" ∨ sch = "https" →
  hst ≠ "" → Str.mem "/" hst = false →
  (pth = "" ∨ (starts_with pth "/" = true ∧ all_chars not_newline pth = true)) →
  ∃ m l, matchR Pat.url (start None (sch +:+ "://" +:+ hst +:+ pth)) = m :: l
    ∧ ms_rest m = ""
    ∧ ms_caps m = (if Str.is_empty pth then [] else [(3, pth)]) ++ [(2, hst); (1, sch)].
Proof.
  intros Hsch Hh Hslash Hp. unfold Pat.url.
  set (u := sch +:+ "://" +:+ hst +:+ pth).
  set (st0 := start None u).
  (* the scheme *)
  destruct (head_scheme sch (hst +:+ pth) Hsch) as (p1 & l1 & H1).
  set (b1 := MState p1 ("://" +:+ hst +:+ pth) []) in *.
  assert (consumed st0 b1 = sch) as Hc1 by (by apply consumed_app).
  (* the separator *)
  destruct (head_lit "://" p1 (hst +:+ pth) [(1, sch)]) as (p2 & l2 & H2).
  set (c := MState p2 (hst +:+ pth) [(1, sch)]) in *.
  (* the host *)
  destruct hst as [|h0 hst']; [done|].
  rewrite mem_cons in Hslash. apply orb_false_iff in Hslash as [Hh0 Hrest].
  assert (negb (Str.mem h0 "/") = true) as Hp0.
  { cbn [Str.mem]. rewrite orb_false_r. apply negb_true_iff.
    apply char_eqb_neq. apply char_eqb_neq in Hh0. congruence. }
  assert (all_chars (fun c => negb (Str.mem c "/")) hst' = true) as Hall.
  { apply mem_all_none_of. intros d Hd. cbn [Str.mem] in Hd. rewrite orb_false_r in Hd.
    apply char_eqb_eq in Hd. by subst d. }
  assert (Str.drop_while (fun c => negb (Str.mem c "/")) (hst' +:+ pth) = pth) as Hdrop.
  { apply drop_while_all_stop; [exact Hall|].
    destruct Hp as [-> | [Hs _]]; [by left|]. right.
    destruct pth as [|q pth']; [discriminate|].
    unfold starts_with in Hs. cbn [Str.is_prefix] in Hs. rewrite andb_true_r in Hs.
    apply char_eqb_eq in Hs. by subst q. }
  set (c1 := MState (Some h0) (hst' +:+ pth) [(1, sch)]).
  set (d1 := skip (fun c => negb (Str.mem c "/")) c1).
  assert (ms_rest d1 = pth) as Hd1 by exact Hdrop.
  assert (consumed c d1 = String h0 hst') as Hc2.
  { apply consumed_app. rewrite Hd1. reflexivity. }
  set (d := set_cap 2 c d1).
  assert (∃ l, matchR (Group 2 (Plus (none_of "/"))) c = d :: l) as H3.
  { apply head_group. unfold Plus, none_of.
    apply (head_seq _ _ _ c1); [by apply head_chr | apply head_star_chr]. }
  assert (d = MState (ms_prev d1) pth [(2, String h0 hst'); (1, sch)]) as Hd.
  { unfold d, set_cap. by rewrite Hd1, Hc2. }
  destruct (head_url_tail (ms_prev d1) pth [(2, String h0 hst'); (1, sch)] Hp)
    as (m & l4 & H4 & Hr & Hcaps).
  rewrite <- Hd in H4.
  exists m. 
  assert (skip Char.isspace st0 = st0) as Hskip
    by (unfold st0, u; destruct Hsch as [-> | ->]; reflexivity).
  assert (set_cap 1 st0 b1 = MState p1 ("://" +:+ String h0 hst' +:+ pth) [(1, sch)]) as Hb
    by (unfold set_cap; by rewrite Hc1).
  assert (∃ l, matchR
     (Seq Bol (Seq (Star space)
        (Seq (Group 1 (Seq (lit_ci "http") (Opt (chr_ci "s"))))
           (Seq (lit "://")
              (Seq (Group 2 (Plus (none_of "/")))
                 (Seq (Opt (Group 3 (Seq (chr "/") (Star dot))))
                    (Seq (Star space) Eol))))))) st0 = m :: l) as [l Hl].
  { apply (head_seq _ _ _ st0); [by exists []|].
    apply (head_seq _ _ _ st0).
    { destruct (head_star_chr Char.isspace st0) as [l' Hl']. rewrite Hskip in Hl'.
      by exists l'. }
    apply (head_seq _ _ _ (set_cap 1 st0 b1)); [apply head_group; by eauto|].
    rewrite Hb.
    apply (head_seq _ _ _ c); [by eauto|].
    apply (head_seq _ _ _ d); [exact H3 | by eauto]. }
  exists l. split; [exact Hl|]. split; [exact Hr | exact Hcaps].
Qed.

End ParseRoundTrip.

(** X3: parsing is the inverse of writing a URL out: for well-formed parts
    [parse_url] of [scheme://host] followed by the path gives the parts
    back, and without a path it gives the path [/]. *)
Theorem parse_url_of_url_string (p : UrlParts) :
  wellformed p →
  parse_url (url_string p) = Some p
  ∧ parse_url (scheme p +:+ "://" +:+ host p)
    = Some (mkUrlParts (scheme p) (host p) "/").
Proof.
  intros (Hsch & Hh & Hslash & Hs & Hnl). destruct p as [sch hst pth]. cbn in *.
  assert (to_lower sch = sch) as Hlow by (destruct Hsch as [-> | ->]; reflexivity).
  split.
  - destruct (head_url sch hst pth Hsch Hh Hslash (or_intror (conj Hs Hnl)))
      as (m & l & Hm & Hr & Hcaps).
    unfold parse_url, url_string, Regex.regex_match. cbn [scheme host path].
    rewrite Hm. cbn [List.find]. rewrite Hr. cbn [Str.is_empty].
    unfold Regex.cap. rewrite Hcaps.
    destruct pth as [|q pth']; [discriminate|]. cbn. fold (to_lower sch). by rewrite Hlow.
  - destruct (head_url sch hst "" Hsch Hh Hslash (or_introl eq_refl))
      as (m & l & Hm & Hr & Hcaps).
    unfold parse_url, Regex.regex_match. rewrite str_app_nil_r in Hm.
    rewrite Hm. cbn [List.find]. rewrite Hr. cbn [Str.is_empty].
    unfold Regex.cap. rewrite Hcaps. cbn. fold (to_lower sch). by rewrite Hlow.
Qed.

Lemma parse_url_of_url_string_witness :
  parse_url (url_string (mkUrlParts "https" "example.com:8080" "/a/b.png?x=1 "))
  = Some (mkUrlParts "https" "example.com:8080" "/a/b.png?x=1 ").
Proof.
  apply (parse_url_of_url_string (mkUrlParts "https" "example.com:8080" "/a/b.png?x=1 ")).
  unfold wellformed. cbn. repeat split; try reflexivity; [by right | discriminate].
Defined.

Section ParseReject.
Import Regex.

Lemma char_eqb_sym a b : Char.eqb a b = Char.eqb b a.
Proof.
  destruct (Char.eqb a b) eqn:E.
  - apply char_eqb_eq in E. subst. symmetry. apply char_eqb_refl.
  - symmetry. apply char_eqb_neq. apply char_eqb_neq in E. congruence.
Qed.

Lemma lit_ci_nomatch s : to_lower s = s → ∀ prev rest caps,
  Str.is_prefix s (to_lower rest) = false →
  matchR (lit_ci s) (MState prev rest caps) = [].
Proof.
  induction s as [|c s IH]; intros Hs prev rest caps Hp; [discriminate|].
  cbn [to_lower Str.map] in Hs. injection Hs as Hc Hs.
  cbn [lit_ci matchR]. unfold chr_ci at 1. cbn [matchR ms_rest ms_caps].
  destruct rest as [|d rest]; [reflexivity|].
  cbn [to_lower Str.map Str.is_prefix] in Hp. rewrite Hc.
  rewrite char_eqb_sym. destruct (Char.eqb c (Char.tolower d)); [|reflexivity].
  cbn [andb] in Hp. cbn [flat_map]. rewrite (IH Hs _ _ _ Hp). reflexivity.
Qed.

Lemma rejects_group n r p : rejects r p → rejects (Group n r) p.
Proof. intros H st c s' Hs Hp. cbn [matchR]. by rewrite (H st c s' Hs Hp). Qed.

Lemma matchR_seq r1 r2 st : matchR (Seq r1 r2) st = flat_map (matchR r2) (matchR r1 st).
Proof. reflexivity. Qed.

Lemma matchR_group n r st : matchR (Group n r) st = List.map (set_cap n st) (matchR r st).
Proof. reflexivity. Qed.

Lemma url_nomatch u :
  starts_with (to_lower (C.ltrim u)) "http" = false →
  matchR Pat.url (start None u) = [].
Proof.
  intros H. unfold Pat.url, space.
  rewrite matchR_seq. change (matchR Bol (start None u)) with [start None u].
  cbn [flat_map]. rewrite app_nil_r.
  rewrite star_chr_seq.
  2:{ apply rejects_seq_l, rejects_group. by apply rejects_lit_ci_space. }
  rewrite matchR_seq, matchR_group, matchR_seq.
  unfold skip, start. cbn [ms_rest ms_caps ms_prev].
  rewrite (lit_ci_nomatch "http" eq_refl); [reflexivity|]. exact H.
Qed.

End ParseReject.

(** X4: a string that, after its leading white space, does not start with
    [http] in some letter case is not a URL for [parse_url]: other schemes
    and bare host names are refused. *)
Theorem parse_url_rejects_other_schemes (u : string) :
  starts_with (to_lower (C.ltrim u)) "http" = false →
  parse_url u = None.
Proof.
  intros H. unfold parse_url, Regex.regex_match.
  by rewrite (url_nomatch u H).
Qed.

Lemma parse_url_rejects_other_schemes_witness :
  parse_url " ftp://example.com/a.png" = None.
Proof.
  apply (parse_url_rejects_other_schemes " ftp://example.com/a.png").
  vm_compute. reflexivity.
Defined.

(** ** [join_url] followed by [parse_url] *)

Lemma parse_url_compose sch hst pth :
  sch = "http" ∨ sch = "https" →
  hst ≠ "" → Str.mem "/" hst = false →
  starts_with pth "/" = true → all_chars not_newline pth = true →
  parse_url (sch +:+ "://" +:+ hst +:+ pth) = Some (mkUrlParts sch hst pth).
Proof.
  intros Hsch Hh Hslash Hs Hnl.
  assert (to_lower sch = sch) as Hlow by (destruct Hsch as [-> | ->]; reflexivity).
  destruct (head_url sch hst pth Hsch Hh Hslash (or_intror (conj Hs Hnl)))
    as (m & l & Hm & Hr & Hcaps).
  unfold parse_url, Regex.regex_match.
  rewrite Hm. cbn [List.find]. rewrite Hr. cbn [Str.is_empty].
  unfold Regex.cap. rewrite Hcaps.
  destruct pth as [|q pth']; [discriminate|]. cbn. fold (to_lower sch). by rewrite Hlow.
Qed.

Lemma all_chars_take_while_of p q s :
  all_chars p s = true → all_chars p (Str.take_while q s) = true.
Proof.
  induction s as [|c s IH]; [done|]. simpl. intros [Hc Hs]%andb_true_iff.
  destruct (q c); [|reflexivity]. simpl. by rewrite Hc, IH.
Qed.

Lemma all_chars_upto_last p c s t :
  all_chars p s = true → Str.upto_last c s = Some t → all_chars p t = true.
Proof.
  revert t. induction s as [|d s IH]; intros t; [discriminate|]. simpl.
  intros [Hd Hs]%andb_true_iff.
  destruct (Str.upto_last c s) as [t'|].
  - intros [= <-]. simpl. by rewrite Hd, (IH t').
  - destruct (Char.eqb d c); [|discriminate]. intros [= <-]. simpl. by rewrite Hd.
Qed.

Lemma all_chars_base_directory p path :
  p "/"%char = true → all_chars p path = true →
  all_chars p (Spec.base_directory path) = true.
Proof.
  intros Hp Hall. unfold Spec.base_directory.
  destruct (Str.upto_last "/" (Str.cut_at_first_of "?#" path)) as [t|] eqn:E; simpl.
  - eapply all_chars_upto_last; [|exact E]. by apply all_chars_take_while_of.
  - by rewrite Hp.
Qed.

Lemma all_chars_split_on p sep s :
  all_chars p s = true → Forall (fun x => all_chars p x = true) (Spec.split_on sep s).
Proof.
  induction s as [|c s IH]; [by repeat constructor|]. simpl.
  intros [Hc Hs]%andb_true_iff. specialize (IH Hs).
  destruct (Char.eqb c sep); [by constructor|].
  destruct (Spec.split_on sep s) as [|x l]; [by repeat constructor; simpl; rewrite Hc|].
  inversion IH; subst. constructor; [|done]. simpl. by rewrite Hc.
Qed.

Lemma all_chars_retain p stack seg :
  Forall (fun x => all_chars p x = true) stack → all_chars p seg = true →
  Forall (fun x => all_chars p x = true) (Spec.retain stack seg).
Proof.
  intros Hst Hseg. unfold Spec.retain. repeat case_decide; [done| |].
  - destruct stack as [|y stack] using rev_ind; [done|].
    rewrite removelast_last. by apply Forall_app in Hst as [Hst _].
  - apply Forall_app. split; [done|]. by constructor.
Qed.

Lemma all_chars_normalize p segs :
  Forall (fun x => all_chars p x = true) segs →
  Forall (fun x => all_chars p x = true) (Spec.normalize segs).
Proof.
  unfold Spec.normalize.
  generalize (@nil string) (Forall_nil_2 (fun x : string => all_chars p x = true)).
  induction segs as [|x l IH]; intros acc Hacc Hs; [done|].
  inversion Hs; subst. simpl. apply IH; [by apply all_chars_retain | done].
Qed.

Lemma all_chars_join p sep segs :
  all_chars p sep = true → Forall (fun x => all_chars p x = true) segs →
  all_chars p (Str.join sep segs) = true.
Proof.
  intros Hsep. induction 1 as [|x l Hx Hl IH]; [done|].
  destruct l as [|y l]; [exact Hx|].
  cbn [Str.join]. rewrite !all_chars_app, Hx, Hsep. exact IH.
Qed.

Lemma all_chars_normalize_path p s :
  p "/"%char = true → all_chars p s = true →
  all_chars p (Spec.normalize_path s) = true.
Proof.
  intros Hp Hs. unfold Spec.normalize_path, Spec.rejoin.
  rewrite all_chars_app. simpl. rewrite Hp. simpl.
  apply all_chars_join; [simpl; by rewrite Hp|].
  by apply all_chars_normalize, all_chars_split_on.
Qed.

(** The value of [join_url] on a reference that is neither skipped nor
    absolute. *)
Lemma join_url_local base href :
  trim href ≠ "" →
  starts_with (trim href) "#" = false →
  starts_with (to_lower (trim href)) "javascript:" = false →
  starts_with (to_lower (trim href)) "mailto:" = false →
  Spec.is_absolute (trim href) = false →
  starts_with (trim href) "//" = false →
  join_url base href
  = scheme base +:+ "://" +:+ host base
      +:+ (if starts_with (trim href) "/" then trim href
           else Spec.normalize_path (Spec.base_directory (path base) +:+ trim href)).
Proof.
  intros Hne Hh Hj Hm Ha Hss.
  unfold join_url, normalize_url.
  apply is_empty_false in Hne as He. rewrite He, Hj, Hm. cbn [orb].
  rewrite <- (front_hash _ Hne), Hh.
  unfold Spec.is_absolute in Ha. rewrite Ha, Hss.
  destruct (starts_with (trim href) "/"); [reflexivity|].
  unfold Spec.normalize_path, Spec.rejoin.
  by rewrite norm_parts_spec, url_base_dir_spec.
Qed.

(** X5: against a well-formed base, a reference that is not skipped, not
    absolute and not scheme-relative, and holds no line terminator,
    resolves to a URL that [parse_url] accepts, with the scheme and the
    host of the base: such a link always passes the same-host test of the
    link pass. *)
Theorem join_url_stays_on_host (base : UrlParts) (href : string) :
  wellformed base →
  trim href ≠ "" →
  starts_with (trim href) "#" = false →
  starts_with (to_lower (trim href)) "javascript:" = false →
  starts_with (to_lower (trim href)) "mailto:" = false →
  Spec.is_absolute (trim href) = false →
  starts_with (trim href) "//" = false →
  all_chars not_newline (trim href) = true →
  ∃ pth, parse_url (join_url base href)
         = Some (mkUrlParts (scheme base) (host base) pth)
    ∧ starts_with pth "/" = true.
Proof.
  intros (Hsch & Hh & Hslash & Hs & Hnl) Hne Hhash Hj Hm Ha Hss Hall.
  rewrite (join_url_local base href Hne Hhash Hj Hm Ha Hss).
  eexists. split; [apply parse_url_compose; try done|].
  - destruct (starts_with (trim href) "/") eqn:E; [exact E | reflexivity].
  - destruct (starts_with (trim href) "/") eqn:E; [exact Hall|].
    apply all_chars_normalize_path; [reflexivity|].
    rewrite all_chars_app, Hall, andb_true_r.
    by apply all_chars_base_directory.
  - destruct (starts_with (trim href) "/") eqn:E; [exact E | reflexivity].
Qed.

Lemma join_url_stays_on_host_witness :
  ∃ pth, parse_url (join_url (mkUrlParts "http" "example.com" "/a/b/index.html")
                             " ../img/./logo.png ")
         = Some (mkUrlParts "http" "example.com" pth)
    ∧ starts_with pth "/" = true.
Proof.
  apply (join_url_stays_on_host (mkUrlParts "http" "example.com" "/a/b/index.html")
           " ../img/./logo.png ").
  - unfold wellformed. cbn. repeat split; try reflexivity; [by left | discriminate].
  - vm_compute. discriminate.
  - vm_compute. reflexivity.
  - vm_compute. reflexivity.
  - vm_compute. reflexivity.
  - vm_compute. reflexivity.
  - vm_compute. reflexivity.
  - vm_compute. reflexivity.
Defined.

(** ** File names and image URLs *)

Lemma safe_safe_char c : safe (safe_char c) = true.
Proof.
  unfold safe_char. fold (safe c). destruct (safe c) eqn:E; [exact E | reflexivity].
Qed.

Lemma all_chars_map_safe_char s : all_chars safe (Str.map safe_char s) = true.
Proof.
  induction s as [|c s IH]; [reflexivity|]. cbn [Str.map all_chars].
  by rewrite safe_safe_char, IH.
Qed.

Lemma all_chars_safe_no_slash s : all_chars safe s = true → Str.mem "/" s = false.
Proof.
  induction s as [|c s IH]; [reflexivity|]. cbn [all_chars]. rewrite mem_cons.
  intros [Hc Hs]%andb_true_iff. rewrite (IH Hs), orb_false_r.
  apply char_eqb_neq. intros <-. discriminate Hc.
Qed.

Lemma substring_all s : String.substring 0 (String.length s) s = s.
Proof. induction s as [|c s IH]; [reflexivity|]. simpl. by rewrite IH. Qed.

Lemma substring_suffix pre e :
  String.substring (String.length pre) (String.length e) (pre +:+ e) = e.
Proof.
  induction pre as [|c pre IH]; [rewrite str_app_nil_l; apply substring_all|].
  rewrite str_app_cons. exact IH.
Qed.

Lemma substring_split u n m :
  n + m = String.length u →
  u = String.substring 0 n u +:+ String.substring n m u.
Proof.
  revert n. induction u as [|c u IH]; intros n H.
  - simpl in H. assert (n = 0 ∧ m = 0) as [-> ->] by lia. reflexivity.
  - destruct n as [|n].
    + rewrite Nat.add_0_l in H. subst m. rewrite substring_all. reflexivity.
    + simpl in H. cbn [String.substring]. rewrite str_app_cons. f_equal.
      apply IH. lia.
Qed.

(** [ends_with u e] holds exactly when [e] is a suffix of [u]. *)
Lemma ends_with_spec u e : ends_with u e = true ↔ ∃ pre, u = pre +:+ e.
Proof.
  unfold ends_with. rewrite andb_true_iff, Nat.leb_le, String.eqb_eq. split.
  - intros [Hle Hsub].
    exists (String.substring 0 (String.length u - String.length e) u).
    pose proof (substring_split u (String.length u - String.length e)
                  (String.length e)) as H.
    rewrite Hsub in H. apply H. lia.
  - intros [pre ->]. rewrite str_length_app. split; [lia|].
    replace (String.length pre + String.length e - String.length e)
      with (String.length pre) by lia.
    apply substring_suffix.
Qed.

Lemma to_lower_app s t : to_lower (s +:+ t) = to_lower s +:+ to_lower t.
Proof.
  induction s as [|c s IH]; [by rewrite !str_app_nil_l|].
  rewrite str_app_cons. unfold to_lower in *. cbn [Str.map].
  by rewrite str_app_cons, IH.
Qed.

Lemma tolower_eqb_nonalpha d c :
  Char.isalpha d = false → Char.eqb d (Char.tolower c) = Char.eqb d c.
Proof.
  intros Hd. destruct (Char.eqb d c) eqn:E.
  - apply char_eqb_eq in E. subst c. apply char_eqb_eq.
    unfold Char.tolower. unfold Char.isalpha in Hd.
    apply orb_false_iff in Hd as [-> _]. reflexivity.
  - apply char_eqb_neq. intros ->. apply char_eqb_neq in E. apply E.
    revert Hd. destruct c as [[] [] [] [] [] [] [] []]; vm_compute; congruence.
Qed.

Lemma mem_to_lower d s :
  Char.isalpha d = false → Str.mem d (to_lower s) = Str.mem d s.
Proof.
  intros Hd. induction s as [|c s IH]; [reflexivity|].
  unfold to_lower in *. cbn [Str.map]. rewrite !mem_cons, IH.
  by rewrite tolower_eqb_nonalpha.
Qed.

Lemma starts_with_to_lower1 d s :
  Char.isalpha d = false →
  starts_with (to_lower s) (String d "") = starts_with s (String d "").
Proof.
  intros Hd. destruct s as [|c s]; [reflexivity|].
  unfold starts_with, to_lower. cbn [Str.map Str.is_prefix].
  rewrite !andb_true_r. by apply tolower_eqb_nonalpha.
Qed.

(** X7: [is_image_url] looks only at the text before the first [?] or
    [#], and at it without regard to letter case: a URL is an image URL
    exactly when that text, lower-cased, ends with one of the five
    extensions. *)
Theorem is_image_url_spec (u suffix : string) :
  Str.mem "?" u = false → Str.mem "#" u = false →
  (suffix = "" ∨ starts_with suffix "?" = true ∨ starts_with suffix "#" = true) →
  is_image_url (u +:+ suffix) = true
  ↔ ∃ pre e, In e image_exts ∧ to_lower u = pre +:+ e.
Proof.
  intros Hq Hf Hs. unfold is_image_url.
  rewrite to_lower_app, cut_at_qf.
  - rewrite existsb_exists. split.
    + intros (e & He & [pre Hpre]%ends_with_spec). by exists pre, e.
    + intros (pre & e & He & Hpre). exists e. split; [done|].
      apply ends_with_spec. by exists pre.
  - by rewrite mem_to_lower.
  - by rewrite mem_to_lower.
  - destruct Hs as [-> | [Hs | Hs]]; [by left | right; left | right; right].
    + by rewrite starts_with_to_lower1.
    + by rewrite starts_with_to_lower1.
Qed.

Lemma is_image_url_spec_witness :
  is_image_url ("http://x.com/a/Logo.PNG" +:+ "?v=2.txt") = true
  ↔ ∃ pre e, In e image_exts ∧ to_lower "http://x.com/a/Logo.PNG" = pre +:+ e.
Proof.
  apply (is_image_url_spec "http://x.com/a/Logo.PNG" "?v=2.txt");
    [reflexivity | reflexivity | right; left; reflexivity].
Defined.

(** ** File names of image URLs *)

Lemma to_lower_app_inv u : ∀ a b,
  to_lower u = a +:+ b → ∃ P E, u = P +:+ E ∧ to_lower P = a ∧ to_lower E = b.
Proof.
  intros a. revert u. induction a as [|c a IH]; intros u b H.
  - rewrite str_app_nil_l in H. exists "", u. by rewrite str_app_nil_l.
  - rewrite str_app_cons in H. destruct u as [|d u]; [discriminate|].
    unfold to_lower in H. cbn [Str.map] in H. injection H as Hd Hu.
    destruct (IH u b Hu) as (P & E & -> & HP & HE).
    exists (String d P), E. rewrite str_app_cons. repeat split; [|done].
    unfold to_lower in *. cbn [Str.map]. by rewrite Hd, HP.
Qed.

Lemma cut_to_lower u :
  Str.cut_at_first_of "?#" (to_lower u) = to_lower (Str.cut_at_first_of "?#" u).
Proof.
  unfold Str.cut_at_first_of, to_lower.
  induction u as [|c u IH]; [reflexivity|]. cbn [Str.map Str.take_while].
  assert (Str.mem (Char.tolower c) "?#" = Str.mem c "?#") as ->.
  { cbn [Str.mem]. rewrite !(char_eqb_sym _ "?"), !(char_eqb_sym _ "#").
    by rewrite !tolower_eqb_nonalpha. }
  destruct (negb (Str.mem c "?#")); [|reflexivity]. cbn [Str.map]. by rewrite IH.
Qed.

Lemma after_last_suffix c pre e name :
  Str.mem c e = false → Str.after_last c (pre +:+ e) = Some name →
  ∃ pre', name = pre' +:+ e.
Proof.
  intros He. revert name. induction pre as [|d pre IH]; intros name.
  - rewrite str_app_nil_l, (after_last_none _ _ He). discriminate.
  - rewrite str_app_cons. cbn [Str.after_last].
    destruct (Str.after_last c (pre +:+ e)) as [t|].
    + intros [= <-]. by apply IH.
    + destruct (Char.eqb d c); [|discriminate]. intros [= <-]. by exists pre.
Qed.

Lemma map_length f s : String.length (Str.map f s) = String.length s.
Proof. induction s as [|c s IH]; [reflexivity|]. simpl. by rewrite IH. Qed.

Lemma image_ext_shape e :
  In e image_exts → 4 ≤ String.length e ∧ Str.mem "/" e = false.
Proof.
  unfold image_exts. cbn [In].
  intros [<- | [<- | [<- | [<- | [<- | []]]]]]; split; try reflexivity; simpl; lia.
Qed.

(** X6: whatever the URL, the file name [filename_from_url] returns is
    not empty, consists of alphanumeric characters, [.], [_] and [-] only,
    and so holds no [/].  For a URL that passes [is_image_url], the only
    ones the crawl downloads, the name has at least four characters and is
    neither [.] nor [..]: it is one path component, an entry of the output
    directory.  For other URLs the name can be [..], as for
    [http://x.com/a/..]. *)
Theorem filename_from_url_safe (url : string) :
  filename_from_url url ≠ ""
  ∧ all_chars safe (filename_from_url url) = true
  ∧ Str.mem "/" (filename_from_url url) = false
  ∧ (is_image_url url = true →
     4 ≤ String.length (filename_from_url url)
     ∧ filename_from_url url ≠ "." ∧ filename_from_url url ≠ "..")
  ∧ filename_from_url "http://x.com/a/.." = "..".
Proof.
  assert (filename_from_url url ≠ "" ∧ all_chars safe (filename_from_url url) = true)
    as [H1 H2].
  { unfold filename_from_url.
    destruct (Str.after_last "/" (Str.cut_at_first_of "?#" url)) as [name|];
      [|split; [discriminate | reflexivity]].
    destruct name as [|c name]; [split; [discriminate | reflexivity]|].
    cbn [Str.is_empty]. split; [discriminate | apply all_chars_map_safe_char]. }
  split; [exact H1|]. split; [exact H2|].
  split; [by apply all_chars_safe_no_slash|].
  split; [|reflexivity].
  intros Hi.
  assert (4 ≤ String.length (filename_from_url url)) as Hlen.
  { unfold is_image_url in Hi. apply existsb_exists in Hi as (e & He & Hends).
    apply ends_with_spec in Hends as [pre Hpre].
    rewrite cut_to_lower in Hpre.
    apply to_lower_app_inv in Hpre as (P & E & Hu & _ & HE).
    destruct (image_ext_shape e He) as [Hl Hs].
    assert (String.length E = String.length e) as HlE
      by (rewrite <- HE; unfold to_lower; by rewrite map_length).
    assert (Str.mem "/" E = false) as HsE
      by (rewrite <- (mem_to_lower "/" E eq_refl); by rewrite HE).
    unfold filename_from_url. rewrite Hu.
    destruct (Str.after_last "/" (P +:+ E)) as [name|] eqn:Ha; [|simpl; lia].
    destruct (after_last_suffix _ _ _ _ HsE Ha) as [pre' ->].
    destruct (Str.is_empty (pre' +:+ E)); [simpl; lia|].
    rewrite map_length, str_length_app. lia. }
  split; [exact Hlen|].
  split; intros Heq; rewrite Heq in Hlen; simpl in Hlen; lia.
Qed.

Lemma filename_from_url_safe_witness :
  4 ≤ String.length (filename_from_url "http://x.com/img/..png")
  ∧ filename_from_url "http://x.com/img/..png" ≠ "."
  ∧ filename_from_url "http://x.com/img/..png" ≠ "..".
Proof.
  apply (proj1 (proj2 (proj2 (proj2 (filename_from_url_safe "http://x.com/img/..png"))))).
  reflexivity.
Defined.

(** ** The directory of a base URL *)

Lemma upto_last_none c s : Str.upto_last c s = None → Str.mem c s = false.
Proof.
  induction s as [|e s IH]; [reflexivity|]. cbn [Str.upto_last].
  destruct (Str.upto_last c s); [discriminate|].
  destruct (Char.eqb e c) eqn:He; [discriminate|]. intros _.
  rewrite mem_cons, char_eqb_sym, He. by apply IH.
Qed.

Lemma upto_last_some c s t :
  Str.upto_last c s = Some t →
  ∃ pre file, t = pre +:+ String c "" ∧ s = t +:+ file ∧ Str.mem c file = false.
Proof.
  revert t. induction s as [|d s IH]; intros t; [discriminate|]. simpl.
  destruct (Str.upto_last c s) as [t'|] eqn:E.
  - intros [= <-]. destruct (IH t' eq_refl) as (pre & file & -> & Hs & Hm).
    exists (String d pre), file. rewrite !str_app_cons. by rewrite <- Hs.
  - destruct (Char.eqb d c) eqn:Hd; [|discriminate]. intros [= <-].
    apply char_eqb_eq in Hd. subst d. exists "", s.
    rewrite str_app_nil_l, str_app_cons, str_app_nil_l. repeat split.
    by apply upto_last_none.
Qed.

Lemma mem_app c s t : Str.mem c (s +:+ t) = Str.mem c s || Str.mem c t.
Proof.
  induction s as [|d s IH]; [by rewrite str_app_nil_l|].
  rewrite str_app_cons, !mem_cons, IH. by rewrite orb_assoc.
Qed.

Lemma take_while_prefix p s : ∃ r, s = Str.take_while p s +:+ r.
Proof.
  induction s as [|c s [r IH]]; [by exists ""|]. simpl.
  destruct (p c); [|by exists (String c s)].
  exists r. rewrite str_app_cons. by rewrite <- IH.
Qed.

Lemma take_while_idem p s : Str.take_while p (Str.take_while p s) = Str.take_while p s.
Proof.
  induction s as [|c s IH]; [reflexivity|]. simpl.
  destruct (p c) eqn:E; [|reflexivity]. simpl. by rewrite E, IH.
Qed.

Lemma take_while_app_l p s t :
  Str.take_while p (s +:+ t) = s +:+ t → Str.take_while p s = s.
Proof.
  induction s as [|c s IH]; [reflexivity|]. rewrite str_app_cons. simpl.
  destruct (p c); [|discriminate]. intros [= H]. by rewrite IH.
Qed.

(** X8: the directory [url_base_dir] returns always ends with [/]; it is
    the part of the path, cut before the first [?] or [#], up to and
    including its last [/] (what follows holds no [/]), and [/] when that
    text has no [/] at all; taking the directory of a directory changes
    nothing. *)
Theorem url_base_dir_is_directory (base : UrlParts) :
  Str.back (url_base_dir base) = "/"%char
  ∧ (if Str.mem "/" (Str.cut_at_first_of "?#" (path base))
     then ∃ file, Str.cut_at_first_of "?#" (path base) = url_base_dir base +:+ file
                  ∧ Str.mem "/" file = false
     else url_base_dir base = "/")
  ∧ url_base_dir (mkUrlParts (scheme base) (host base) (url_base_dir base))
    = url_base_dir base.
Proof.
  rewrite !url_base_dir_spec. cbn [path]. unfold Spec.base_directory.
  destruct (Str.upto_last "/" (Str.cut_at_first_of "?#" (path base))) as [t|] eqn:E.
  - cbn [default].
    destruct (upto_last_some _ _ _ E) as (pre & file & Ht & Hs & Hm). subst t.
    split; [apply back_snoc|]. split.
    + rewrite Hs, !mem_app, mem_cons, char_eqb_refl, orb_true_r. cbn [orb].
      by exists file.
    + unfold id. assert (Str.cut_at_first_of "?#" (pre +:+ "/") = pre +:+ "/") as ->.
      { unfold Str.cut_at_first_of in *. eapply take_while_app_l.
        rewrite <- Hs. apply take_while_idem. }
      by rewrite upto_last_snoc.
  - cbn [default]. rewrite (upto_last_none _ _ E). by repeat split.
Qed.

(** ** What the extractors return *)

Section Extracted.

Let clean (v : string) : Prop := v ≠ "" ∧ trim v = v.

Lemma push_trimmed_clean out v :
  Forall clean out → Forall clean (push_trimmed out v).
Proof.
  intros H. unfold push_trimmed.
  destruct (Str.is_empty (trim v)) eqn:E; [done|].
  apply Forall_app. split; [done|]. constructor; [|done].
  split; [by apply is_empty_false | apply trim_idem].
Qed.

Lemma extract_attr_urls_clean html attrName :
  Forall clean (extract_attr_urls html attrName).
Proof.
  unfold extract_attr_urls.
  generalize (Ecma.all_matches (Pat.attr attrName) html).
  generalize (@nil string) (Forall_nil_2 clean).
  intros out Hout l. revert out Hout.
  induction l as [|m l IH]; intros out Hout; [done|].
  cbn [fold_left]. apply IH. by apply push_trimmed_clean.
Qed.

Lemma extract_in_tags_clean tagName attrName html :
  Forall clean (extract_in_tags tagName attrName html).
Proof.
  unfold extract_in_tags. rewrite fold_left_app_flat_map. cbn [app].
  induction (Ecma.all_matches (Pat.tag tagName) html) as [|m l IH]; [done|].
  cbn [flat_map]. apply Forall_app. split; [apply extract_attr_urls_clean | done].
Qed.

Lemma tag_attr_value_clean attr tag : Forall clean (C.tag_attr_value attr tag).
Proof.
  unfold C.tag_attr_value.
  destruct (Posix.regexec (Pat.attr attr) tag) as [[[so txt] m]|]; [|done].
  destruct (match Regex.cap 2 m with
            | Some v => Some v
            | None => match Regex.cap 3 m with
                      | Some v => Some v
                      | None => Regex.cap 4 m
                      end
            end) as [v|]; [|done].
  destruct (Str.is_empty v); [done|].
  destruct (Str.is_empty (C.rtrim (C.ltrim v))) eqn:E; [done|].
  constructor; [|done]. rewrite <- trim_rtrim_ltrim in *.
  split; [by apply is_empty_false | apply trim_idem].
Qed.

Lemma tag_loop_clean tagname attr : ∀ fuel p out,
  Forall clean out → Forall clean (C.tag_loop fuel tagname attr p out).
Proof.
  induction fuel as [|fuel IH]; intros p out Hout; [done|].
  cbn [C.tag_loop].
  destruct (Posix.regexec (Pat.tag tagname) p) as [[[so tag] m]|]; [|done].
  destruct (Str.is_empty tag); [done|].
  apply IH. apply Forall_app. split; [done | apply tag_attr_value_clean].
Qed.

(** X9: every value either extractor returns is non-empty and has no
    white space at its ends, whatever the page, the tag and the attribute
    asked for: [join_url] never gets an empty or untrimmed reference from
    them. *)
Theorem extracted_values_trimmed (html tagName attrName v : string) :
  In v (extract_in_tags tagName attrName html)
  ∨ In v (C.extract_tag_attrs html tagName attrName []) →
  v ≠ "" ∧ trim v = v.
Proof.
  intros [H | H].
  - by apply (proj1 (List.Forall_forall _ _) (extract_in_tags_clean tagName attrName html)).
  - unfold C.extract_tag_attrs in H.
    pose proof (tag_loop_clean tagName attrName (S (String.length (C.c_str html)))
                  (C.c_str html) [] (Forall_nil_2 clean)) as Hc.
    by apply (proj1 (List.Forall_forall clean _) Hc).
Qed.

End Extracted.

Lemma extracted_values_trimmed_witness : "a.png" ≠ "" ∧ trim "a.png" = "a.png".
Proof.
  apply (extracted_values_trimmed "<p><img alt=x src=' a.png '></p>" "img" "src" "a.png").
  left. vm_compute. left. reflexivity.
Defined.

(** ** The crawl: what it downloads, and how its sets follow its trace *)

Section CrawlMore.

Context {World : Type}.
Variable http_get_text : World -> string -> World * option string.
Variable http_download_file : World -> string -> string -> World * bool.

Abbreviation State := (State World).
Abbreviation step := (step http_get_text http_download_file).
Abbreviation effect := (effect http_get_text http_download_file).
Abbreviation image_step := (image_step http_download_file).
Abbreviation crawl_body := (crawl_body http_get_text http_download_file).
Abbreviation crawl_fuel := (crawl_fuel http_get_text http_download_file).
Abbreviation crawl := (crawl http_get_text http_download_file).

Lemma image_step_effects opt parts (st : State) src :
  rtc (effect opt) st (image_step opt parts st src).
Proof.
  unfold image_step.
  destruct (Str.is_empty _) eqn:He; [apply rtc_refl|].
  destruct (is_image_url _) eqn:Hi; cbn [negb]; [|apply rtc_refl].
  case_decide; [apply rtc_refl|].
  destruct (http_download_file _ _ _) as [w ok] eqn:Hd.
  apply rtc_once. apply is_empty_false in He. by apply effect_download.
Qed.

Lemma image_pass_effects opt parts srcs : ∀ st : State,
  rtc (effect opt) st (fold_left (image_step opt parts) srcs st).
Proof.
  induction srcs as [|src srcs IH]; intros st; [apply rtc_refl|].
  simpl. etrans; [apply image_step_effects | apply IH].
Qed.

Lemma link_step_effects opt url parts recur (st : State) href :
  parse_url url = Some parts →
  (∀ u st', rtc (effect opt) st' (recur u st')) →
  rtc (effect opt) st (link_step url parts recur st href).
Proof.
  intros Hp Hr. unfold link_step.
  destruct (Str.is_empty _) eqn:He; [apply rtc_refl|].
  destruct (parse_url (join_url parts href)) as [np|] eqn:Hn; [|apply rtc_refl].
  destruct (String.eqb_spec (to_lower (host np)) (to_lower (host parts))) as [Hh|Hh];
    cbn [negb]; [|apply rtc_refl].
  eapply rtc_l; [|apply Hr]. apply is_empty_false in He. by eapply effect_follow.
Qed.

Lemma link_pass_effects opt url parts recur hrefs :
  parse_url url = Some parts →
  (∀ u st', rtc (effect opt) st' (recur u st')) →
  ∀ st : State, rtc (effect opt) st (fold_left (link_step url parts recur) hrefs st).
Proof.
  intros Hp Hr. induction hrefs as [|h hrefs IH]; intros st; [apply rtc_refl|].
  simpl. etrans; [by apply link_step_effects | apply IH].
Qed.

Lemma crawl_body_effects recur opt url d (st : State) :
  (∀ u st', rtc (effect opt) st' (recur u st')) →
  rtc (effect opt) st (crawl_body recur opt url d st).
Proof.
  intros Hr. unfold crawl_body.
  destruct (Str.is_empty url) eqn:He; [apply rtc_refl|].
  destruct (parse_url url) as [parts|] eqn:Hp; [|apply rtc_refl].
  case_decide as Hv; [apply rtc_refl|].
  cbn [world visited_pages downloaded_images trace].
  destruct (http_get_text (world st) url) as [w res] eqn:Hg.
  eapply rtc_l; [apply is_empty_false in He; by eapply effect_fetch|].
  destruct res as [html|]; [|apply rtc_refl].
  destruct (negb (recursive opt)); [apply image_pass_effects|].
  destruct (d <=? 0)%Z; [apply image_pass_effects|].
  etrans; [apply image_pass_effects | by apply link_pass_effects].
Qed.

Lemma crawl_effects opt url d (st : State) : rtc (effect opt) st (crawl opt url d st).
Proof.
  unfold crawl. generalize (Z.to_nat d) as fuel. intros fuel.
  revert url d st. induction fuel as [|fuel IH]; intros url d st; simpl;
    apply crawl_body_effects; intros u st'; [apply rtc_refl | apply IH].
Qed.

Lemma effect_step opt (st st' : State) : effect opt st st' → step st st'.
Proof.
  inversion 1; subst.
  - by eapply step_fetch.
  - by eapply step_download.
  - by eapply step_follow.
Qed.

Lemma effects_steps opt (st st' : State) : rtc (effect opt) st st' → rtc step st st'.
Proof. apply rtc_subrel. intros x y. apply effect_step. Qed.

Lemma download_urls_app a b : download_urls (a ++ b) = download_urls a ++ download_urls b.
Proof. apply omap_app. Qed.

Lemma elem_of_download_urls u tr :
  u ∈ download_urls tr ↔ ∃ p ok, EvDownload u p ok ∈ tr.
Proof.
  unfold download_urls. rewrite list_elem_of_omap. split.
  - intros ([] & Hin & Heq); try discriminate. injection Heq as ->. eauto.
  - intros (p & ok & Hin). by exists (EvDownload u p ok).
Qed.

Lemma effects_downloads opt (st st' : State) :
  rtc (effect opt) st st' →
  ∃ new, trace st' = trace st ++ new
    ∧ NoDup (download_urls new)
    ∧ ∀ u p ok, EvDownload u p ok ∈ new →
        u ≠ "" ∧ (u ∉ downloaded_images st) ∧ u ∈ downloaded_images st'
        ∧ is_image_url u = true
        ∧ p = path_join (out_dir opt) (filename_from_url u).
Proof.
  induction 1 as [st | st st1 st' Hs Hrest (new & Ht & Hnd & Hf)].
  - exists []. rewrite app_nil_r. split; [done|]. split; [apply NoDup_nil_2|].
    by intros u p ok ?%elem_of_nil.
  - destruct (steps_mono _ _ _ _ (effects_steps _ _ _ Hrest)) as (_ & Hd & _).
    inversion Hs; subst; cbn [visited_pages downloaded_images trace] in *;
      (eexists; split; [rewrite Ht, <- app_assoc; reflexivity|]);
      cbn [app download_urls omap]; fold (download_urls new).
    + split; [done|]. intros u p ok' [Heq | Hin]%elem_of_cons; [discriminate|].
      exact (Hf u p ok' Hin).
    + split.
      * constructor; [|done]. intros (p & ok' & Hin)%elem_of_download_urls.
        apply Hf in Hin as (_ & Hin & _).
        apply Hin, elem_of_union_l, elem_of_singleton. reflexivity.
      * intros u p ok' [Heq | Hin]%elem_of_cons.
        -- injection Heq as -> -> ->. repeat split; try done.
           apply Hd, elem_of_union_l, elem_of_singleton. reflexivity.
        -- apply Hf in Hin as (G1 & G2 & G3 & G4 & G5). repeat split; try done.
           intros Hu. apply G2, elem_of_union_r, Hu.
    + split; [done|]. intros u p ok' [Heq | Hin]%elem_of_cons; [discriminate|].
      exact (Hf u p ok' Hin).
Qed.

(** X10: the image downloads of a crawl, from any state of the run: no
    URL is downloaded twice, none that was in the downloaded set before;
    each is a non-empty URL that passes [is_image_url], and its file is
    the one [filename_from_url] names, in the output directory of the
    options. *)
Theorem crawl_downloads_wellformed opt url depth (st : State) :
  ∃ new, trace (crawl opt url depth st) = trace st ++ new
    ∧ NoDup (download_urls new)
    ∧ ∀ u p ok, EvDownload u p ok ∈ new →
        u ≠ "" ∧ (u ∉ downloaded_images st)
        ∧ is_image_url u = true
        ∧ p = path_join (out_dir opt) (filename_from_url u).
Proof.
  destruct (effects_downloads _ _ _ (crawl_effects opt url depth st))
    as (new & Ht & Hnd & Hf).
  exists new. split; [done|]. split; [done|]. intros u p ok Hin.
  destruct (Hf u p ok Hin) as (G1 & G2 & _ & G4 & G5). done.
Qed.

Lemma steps_sets (st st' : State) :
  rtc step st st' →
  ∃ new, trace st' = trace st ++ new
    ∧ visited_pages st' = visited_pages st ∪ list_to_set (fetched_urls new)
    ∧ downloaded_images st'
      = downloaded_images st ∪ list_to_set (download_urls new).
Proof.
  induction 1 as [st | st st1 st' Hs _ (new & Ht & Hv & Hd)].
  - exists []. rewrite app_nil_r. cbn. split; [done|].
    split; apply set_eq; intros x; rewrite elem_of_union, elem_of_empty; tauto.
  - inversion Hs; subst; cbn [visited_pages downloaded_images trace] in *;
      (eexists; split; [rewrite Ht, <- app_assoc; reflexivity|]);
      rewrite Hv, Hd; cbn [app];
      match goal with |- context [fetched_urls (?e :: new)] =>
        change (e :: new) with ([e] ++ new) end;
      rewrite fetched_urls_app, download_urls_app, !list_to_set_app_L;
      split; apply set_eq; intros x;
      rewrite ?elem_of_union, ?elem_of_list_to_set; cbn;
      rewrite ?elem_of_cons, ?elem_of_nil, ?elem_of_singleton; tauto.
Qed.

(** X11: the two sets of the spider follow its trace: after a crawl, the
    visited set is what it was plus the URLs of the page fetches made, and
    the downloaded set is what it was plus the URLs of the downloads
    tried; nothing is ever taken out of either. *)
Theorem crawl_sets_track_trace opt url depth (st : State) :
  ∃ new, trace (crawl opt url depth st) = trace st ++ new
    ∧ visited_pages (crawl opt url depth st)
      = visited_pages st ∪ list_to_set (fetched_urls new)
    ∧ downloaded_images (crawl opt url depth st)
      = downloaded_images st ∪ list_to_set (download_urls new).
Proof. apply steps_sets, crawl_steps. Qed.

Lemma crawl_marks_seed opt url depth (st : State) parts :
  url ≠ "" → parse_url url = Some parts →
  url ∈ visited_pages (crawl opt url depth st).
Proof.
  intros Hu Hp. rewrite crawl_unfold. unfold crawl_body.
  apply is_empty_false in Hu. rewrite Hu, Hp.
  case_decide as Hv; [done|].
  cbn [world visited_pages downloaded_images trace].
  destruct (http_get_text (world st) url) as [w res].
  set (st1 := mkState ({[url]} ∪ visited_pages st) (downloaded_images st) w _).
  assert (url ∈ visited_pages st1) as H1
    by (unfold st1; cbn [visited_pages];
        apply elem_of_union_l, elem_of_singleton; reflexivity).
  assert (∀ st2 : State, rtc step st1 st2 → url ∈ visited_pages st2) as Hm.
  { intros st2 (Hv2 & _)%steps_mono. by apply Hv2. }
  destruct res as [html|]; [|done].
  destruct (negb (recursive opt)); [apply Hm, image_pass_steps|].
  destruct (depth <=? 0)%Z; [apply Hm, image_pass_steps|].
  apply Hm. etrans; [apply image_pass_steps|].
  apply link_pass_steps; [done|]. intros u st'. apply crawl_steps.
Qed.

(** X12: crawling the same URL a second time does nothing, whatever the
    depth asked for the second time: no fetch, no download, no change of
    the sets. *)
Theorem crawl_again_is_noop opt url depth depth' (st : State) :
  crawl opt url depth' (crawl opt url depth st) = crawl opt url depth st.
Proof.
  destruct (Str.is_empty url) eqn:He.
  { rewrite !crawl_unfold. unfold crawl_body. by rewrite He. }
  destruct (parse_url url) as [parts|] eqn:Hp.
  2:{ rewrite !crawl_unfold. unfold crawl_body. by rewrite He, Hp. }
  apply is_empty_false in He.
  pose proof (crawl_marks_seed opt url depth st parts He Hp) as Hin.
  rewrite (crawl_unfold _ _ opt url depth'). unfold crawl_body at 1.
  apply is_empty_false in He. rewrite He, Hp. by rewrite decide_True.
Qed.

End CrawlMore.

(** ** The crawl: how far it goes *)

Section CrawlDepth.

Context {World : Type}.
Variable http_get_text : World -> string -> World * option string.
Variable http_download_file : World -> string -> string -> World * bool.

Abbreviation State := (State World).
Abbreviation step := (step http_get_text http_download_file).
Abbreviation image_step := (image_step http_download_file).
Abbreviation crawl_body := (crawl_body http_get_text http_download_file).
Abbreviation crawl_fuel := (crawl_fuel http_get_text http_download_file).
Abbreviation crawl := (crawl http_get_text http_download_file).

Lemma hops_mono tr tr' seed n u :
  (∀ e, e ∈ tr → e ∈ tr') → hops tr seed n u → hops tr' seed n u.
Proof.
  intros Hsub. induction 1 as [|seed next n u Hin _ IH]; [constructor|].
  eapply hops_follow; [apply Hsub, Hin | exact IH].
Qed.

Lemma hops_zero tr seed u : hops tr seed 0 u → u = seed.
Proof. by inversion 1. Qed.

Lemma bounded_fold {A} url n (f : State → A → State) xs :
  (∀ x, bounded url n (fun st => f st x)) →
  bounded url n (fun st => fold_left f xs st).
Proof.
  intros Hf. induction xs as [|x xs IH]; intros st.
  - exists []. rewrite app_nil_r. split; [done|]. by intros u ?%elem_of_nil.
  - cbn [fold_left].
    destruct (Hf x st) as (new1 & Ht1 & H1).
    destruct (IH (f st x)) as (new2 & Ht2 & H2).
    exists (new1 ++ new2). split; [by rewrite Ht2, Ht1, app_assoc|].
    intros u. rewrite fetched_urls_app. intros [Hu | Hu]%elem_of_app.
    + eapply hops_mono; [|by apply H1]. intros e He. apply elem_of_app. by left.
    + eapply hops_mono; [|by apply H2]. intros e He. apply elem_of_app. by right.
Qed.

Lemma image_step_bounded opt parts url n src :
  bounded url n (fun st => image_step opt parts st src).
Proof.
  intros st. unfold image_step.
  assert (∃ new, trace st = trace st ++ new
            ∧ ∀ u, u ∈ fetched_urls new → hops new url n u) as Hsame.
  { exists []. rewrite app_nil_r. split; [done|]. by intros u ?%elem_of_nil. }
  destruct (Str.is_empty _); [done|].
  destruct (negb _); [done|]. case_decide; [done|].
  destruct (http_download_file _ _ _) as [w ok]. cbn [trace].
  eexists. split; [reflexivity|]. by intros u ?%elem_of_nil.
Qed.

Lemma link_step_bounded url parts (recur : string → State → State) n href :
  (∀ next, bounded next n (recur next)) →
  bounded url (S n) (fun st => link_step url parts recur st href).
Proof.
  intros Hr st. unfold link_step.
  assert (∃ new, trace st = trace st ++ new
            ∧ ∀ u, u ∈ fetched_urls new → hops new url (S n) u) as Hsame.
  { exists []. rewrite app_nil_r. split; [done|]. by intros u ?%elem_of_nil. }
  destruct (Str.is_empty _); [done|].
  destruct (parse_url _) as [np|]; [|done].
  destruct (negb _); [done|].
  match goal with |- context [recur ?nx ?s] =>
    destruct (Hr nx s) as (new & Ht & Hb) end.
  cbn [trace] in Ht. rewrite <- app_assoc in Ht.
  eexists. split; [exact Ht|]. cbn [app].
  intros u Hu. cbn [fetched_urls omap] in Hu. fold (fetched_urls new) in Hu.
  eapply hops_follow; [apply elem_of_cons; by left|].
  eapply hops_mono; [|by apply Hb]. intros e He. apply elem_of_cons. by right.
Qed.

Lemma link_step_stub_bounded url parts n href :
  bounded url n (fun st : State => link_step url parts (fun _ (st' : State) => st') st href).
Proof.
  intros st. unfold link_step.
  assert (∃ new, trace st = trace st ++ new
            ∧ ∀ u, u ∈ fetched_urls new → hops new url n u) as Hsame.
  { exists []. rewrite app_nil_r. split; [done|]. by intros u ?%elem_of_nil. }
  destruct (Str.is_empty _); [done|].
  destruct (parse_url _) as [np|]; [|done].
  destruct (negb _); [done|]. cbn [trace].
  eexists. split; [reflexivity|]. by intros u ?%elem_of_nil.
Qed.

Lemma crawl_body_bounded (recur : string → State → State) opt url d n :
  (recursive opt = true → (0 <? d)%Z = true →
   ∀ parts href, bounded url n (fun st => link_step url parts recur st href)) →
  bounded url n (crawl_body recur opt url d).
Proof.
  intros Hl st. unfold crawl_body.
  assert (∃ new, trace st = trace st ++ new
            ∧ ∀ u, u ∈ fetched_urls new → hops new url n u) as Hsame.
  { exists []. rewrite app_nil_r. split; [done|]. by intros u ?%elem_of_nil. }
  destruct (Str.is_empty url); [done|].
  destruct (parse_url url) as [parts|]; [|done].
  case_decide; [done|].
  cbn [world visited_pages downloaded_images trace].
  destruct (http_get_text (world st) url) as [w res].
  set (st1 := mkState _ _ w _).
  assert (∀ f, bounded url n f →
            ∃ new, trace (f st1) = trace st ++ new
              ∧ ∀ u, u ∈ fetched_urls new → hops new url n u) as Hrest.
  { intros f Hf. destruct (Hf st1) as (new & Ht & Hb).
    unfold st1 in Ht at 2. cbn [trace] in Ht. rewrite <- app_assoc in Ht.
    eexists. split; [exact Ht|]. cbn [app].
    intros u Hu. cbn [fetched_urls omap] in Hu. fold (fetched_urls new) in Hu.
    apply elem_of_cons in Hu as [-> | Hu]; [constructor|].
    eapply hops_mono; [|by apply Hb]. intros e He. apply elem_of_cons. by right. }
  destruct res as [html|].
  2:{ apply (Hrest (fun s => s)). intros s. exists []. rewrite app_nil_r.
      split; [done|]. by intros u ?%elem_of_nil. }
  pose proof (bounded_fold url n (image_step opt parts) (extract_img_srcs html)
                (image_step_bounded opt parts url n)) as Himg.
  destruct (recursive opt) eqn:Hrec; cbn [negb]; [|by apply (Hrest _ Himg)].
  destruct (Z.leb_spec d 0) as [Hd|Hd]; [by apply (Hrest _ Himg)|].
  apply (Hrest (fun s => fold_left (link_step url parts recur) (extract_a_hrefs html)
                           (fold_left (image_step opt parts) (extract_img_srcs html) s))).
  intros s. destruct (Himg s) as (new1 & Ht1 & H1).
  destruct (bounded_fold url n (link_step url parts recur) (extract_a_hrefs html)
              (Hl eq_refl (proj2 (Z.ltb_lt 0 d) Hd) parts)
              (fold_left (image_step opt parts) (extract_img_srcs html) s))
    as (new2 & Ht2 & H2).
  exists (new1 ++ new2). split; [by rewrite Ht2, Ht1, app_assoc|].
  intros u. rewrite fetched_urls_app. intros [Hu | Hu]%elem_of_app.
  - eapply hops_mono; [|by apply H1]. intros e He. apply elem_of_app. by left.
  - eapply hops_mono; [|by apply H2]. intros e He. apply elem_of_app. by right.
Qed.

Lemma crawl_fuel_bounded opt : ∀ fuel url d, bounded url fuel (crawl_fuel fuel opt url d).
Proof.
  induction fuel as [|fuel IH]; intros url d.
  - simpl. apply crawl_body_bounded. intros _ _ parts href.
    apply link_step_stub_bounded.
  - simpl. apply crawl_body_bounded. intros _ _ parts href.
    apply link_step_bounded. intros next. apply IH.
Qed.

Lemma crawl_flat_bounded opt url d :
  recursive opt = false ∨ (d <= 0)%Z → bounded url 0 (crawl opt url d).
Proof.
  intros Hflat. unfold crawl. destruct (Z.to_nat d) as [|fuel] eqn:Hf; simpl.
  - apply crawl_body_bounded. intros _ _ parts href. apply link_step_stub_bounded.
  - apply crawl_body_bounded. intros Hrec Hd.
    destruct Hflat as [Hflat | Hflat]; [congruence|].
    apply Z.ltb_lt in Hd. lia.
Qed.

(** X13: the depth limit.  Every page a crawl fetches is the URL it was
    called with or is reached from it over a chain of followed links, at
    most [depth_left] of them; a crawl that is not recursive, or whose
    depth is zero or less, fetches no page but the one it was called
    with. *)
Theorem crawl_depth_bound opt url depth (st : State) :
  ∃ new, trace (crawl opt url depth st) = trace st ++ new
    ∧ (∀ u, u ∈ fetched_urls new → hops new url (Z.to_nat depth) u)
    ∧ (recursive opt = false ∨ (depth <= 0)%Z →
       ∀ u, u ∈ fetched_urls new → u = url).
Proof.
  destruct (crawl_fuel_bounded opt (Z.to_nat depth) url depth st) as (new & Ht & Hb).
  exists new. split; [exact Ht|]. split; [exact Hb|].
  intros Hflat u Hu.
  destruct (crawl_flat_bounded opt url depth Hflat st) as (new' & Ht' & Hb').
  fold (crawl opt url depth st) in Ht. rewrite Ht in Ht'.
  apply app_inv_head in Ht'. subst new'. by apply (hops_zero new), Hb'.
Qed.

Lemma steps_fetch_parses (st st' : State) :
  rtc step st st' →
  ∃ new, trace st' = trace st ++ new
    ∧ ∀ u, u ∈ fetched_urls new → is_Some (parse_url u).
Proof.
  induction 1 as [st | st st1 st' Hs _ (new & Ht & Hf)].
  - exists []. rewrite app_nil_r. split; [done|]. by intros u ?%elem_of_nil.
  - inversion Hs; subst; cbn [trace] in *;
      (eexists; split; [rewrite Ht, <- app_assoc; reflexivity|]);
      cbn [app fetched_urls omap]; fold (fetched_urls new); [|done..].
    intros u [-> | Hu]%elem_of_cons; [by eexists | by apply Hf].
Qed.

Lemma hops_same_host tr :
  (∀ referrer next, EvFollow referrer next ∈ tr →
     ∃ pr pn, parse_url referrer = Some pr ∧ parse_url next = Some pn
              ∧ to_lower (host pn) = to_lower (host pr)) →
  ∀ seed n u, hops tr seed n u →
  ∀ ps, parse_url seed = Some ps →
  ∃ pu, parse_url u = Some pu ∧ to_lower (host pu) = to_lower (host ps).
Proof.
  intros Hf seed n u. induction 1 as [|seed next n u Hin _ IH]; intros ps Hps.
  - by exists ps.
  - destruct (Hf _ _ Hin) as (pr & pn & Hpr & Hpn & Hh).
    rewrite Hps in Hpr. injection Hpr as <-.
    destruct (IH pn Hpn) as (pu & Hpu & Hhu). exists pu. split; [done|].
    by rewrite Hhu.
Qed.

(** X14: a crawl never leaves the host of its seed: every page it
    fetches, at whatever depth, is a URL that parses and whose host,
    letter case apart, is the host of the URL the crawl was started
    with. *)
Theorem crawl_stays_on_seed_host opt url depth (st : State) ps :
  parse_url url = Some ps →
  ∃ new, trace (crawl opt url depth st) = trace st ++ new
    ∧ ∀ u, u ∈ fetched_urls new →
        ∃ pu, parse_url u = Some pu ∧ to_lower (host pu) = to_lower (host ps).
Proof.
  intros Hps.
  destruct (crawl_fuel_bounded opt (Z.to_nat depth) url depth st) as (new & Ht & Hb).
  fold (crawl opt url depth st) in Ht.
  exists new. split; [exact Ht|]. intros u Hu.
  destruct (steps_follow_same_host http_get_text http_download_file _ _
              (crawl_steps http_get_text http_download_file opt url depth st))
    as (new' & Ht' & Hf).
  rewrite Ht in Ht'. apply app_inv_head in Ht'. subst new'.
  exact (hops_same_host new Hf url _ u (Hb u Hu) ps Hps).
Qed.

End CrawlDepth.

Lemma crawl_stays_on_seed_host_witness :
  ∃ new,
    trace (crawl Sample.get Sample.download_ok Sample.opts "http://x.com/" 5 (init_state tt))
    = trace (init_state tt) ++ new
    ∧ ∀ u, u ∈ fetched_urls new →
        ∃ pu, parse_url u = Some pu
              ∧ to_lower (host pu) = to_lower (host (mkUrlParts "http" "x.com" "/")).
Proof.
  apply (crawl_stays_on_seed_host Sample.get Sample.download_ok
           Sample.opts "http://x.com/" 5 (init_state tt) (mkUrlParts "http" "x.com" "/")).
  vm_compute. reflexivity.
Defined.

(** ** How [main] ends *)

Section MainMore.

Context {World : Type}.
Variable http_get_text : World -> string -> World * option string.
Variable http_download_file : World -> string -> string -> World * bool.
Variable create_directories : World -> string -> World * bool.

Lemma drop_while_empty_all p s :
  Str.is_empty (Str.drop_while p s) = true → all_chars p s = true.
Proof.
  induction s as [|c s IH]; [done|]. simpl.
  destruct (p c); [exact IH | discriminate].
Qed.

Lemma digits_value_nonneg s : ∀ acc,
  all_chars Char.isdigit s = true → (0 <= acc)%Z → (0 <= digits_value s acc)%Z.
Proof.
  induction s as [|c s IH]; intros acc; [done|]. cbn [all_chars digits_value].
  intros [Hc Hs]%andb_true_iff Hacc. apply IH; [done|].
  unfold Char.isdigit, Char.in_range in Hc.
  apply andb_true_iff in Hc as [Hlo _]. apply N.leb_le in Hlo. lia.
Qed.

Lemma stoi_range n v :
  is_number n = true → stoi n = Some v → (0 <= v <= INT_MAX)%Z.
Proof.
  unfold is_number, stoi. intros [_ Hd]%andb_true_iff.
  destruct (Z.leb_spec (digits_value n 0) INT_MAX) as [Hle|]; [|discriminate].
  intros [= <-]. split; [|done].
  apply digits_value_nonneg; [by apply drop_while_empty_all | lia].
Qed.

(** The argument loop: what each of its three ways of ending says about
    the arguments. *)
Lemma parse_args_inv : ∀ k args opt url,
  length args ≤ k →
  match parse_args args opt url with
  | ArgExit c => c = 1%Z ∨ (c = 0%Z ∧ ("-h" ∈ args ∨ "--help" ∈ args))
  | ArgUncaught =>
      ∃ n, n ∈ args ∧ is_number n = true ∧ (INT_MAX < digits_value n 0)%Z
  | ArgOk opt' url' =>
      ((0 <= max_depth opt <= INT_MAX)%Z → (0 <= max_depth opt' <= INT_MAX)%Z)
      ∧ (url' = url ∨ url' ∈ args)
  end.
Proof.
  assert (∀ (P : string → Prop) (a b : string) (l : list string),
            (∃ n, n ∈ l ∧ P n) → ∃ n, n ∈ a :: b :: l ∧ P n) as Hex2.
  { intros P a b l (n & Hn & HP). exists n. split; [|done].
    by apply elem_of_cons; right; apply elem_of_cons; right. }
  assert (∀ (P : string → Prop) (a : string) (l : list string),
            (∃ n, n ∈ l ∧ P n) → ∃ n, n ∈ a :: l ∧ P n) as Hex1.
  { intros P a l (n & Hn & HP). exists n. split; [|done].
    by apply elem_of_cons; right. }
  assert (∀ (c : Z) (a : string) (l : list string),
            c = 1%Z ∨ (c = 0%Z ∧ ("-h" ∈ l ∨ "--help" ∈ l)) →
            c = 1%Z ∨ (c = 0%Z ∧ ("-h" ∈ a :: l ∨ "--help" ∈ a :: l))) as Hc1.
  { intros c a l [? | [? [? | ?]]]; [by left | right; split; [done|]..].
    - left. by apply elem_of_cons; right.
    - right. by apply elem_of_cons; right. }
  induction k as [|k IH]; intros args opt url Hlen.
  { destruct args; [|simpl in Hlen; lia]. cbn. split; [done | by left]. }
  destruct args as [|a rest]; [cbn; split; [done | by left]|].
  simpl in Hlen. cbn [parse_args].
  destruct (String.eqb_spec a "-r") as [->|Hr].
  { specialize (IH rest (mkOptions true (max_depth opt) (out_dir opt)) url
                  ltac:(lia)).
    destruct (parse_args rest _ url) as [c| |opt' url'].
    - by apply Hc1.
    - by apply (Hex1 (fun n => is_number n = true ∧ (INT_MAX < digits_value n 0)%Z)).
    - destruct IH as [Hd Hu]. split; [exact Hd|].
      destruct Hu as [-> | Hu]; [by left | right; by apply elem_of_cons; right]. }
  destruct (String.eqb_spec a "-l") as [->|Hl].
  { destruct rest as [|n rest']; [by left|].
    destruct (is_number n) eqn:Hn; cbn [negb]; [|by left].
    destruct (stoi n) as [v|] eqn:Hv.
    - simpl in Hlen.
      specialize (IH rest' (mkOptions (recursive opt) v (out_dir opt)) url
                    ltac:(lia)).
      destruct (parse_args rest' _ url) as [c| |opt' url'].
      + by apply Hc1, Hc1.
      + by apply (Hex2 (fun n => is_number n = true ∧ (INT_MAX < digits_value n 0)%Z)).
      + destruct IH as [Hd Hu]. split.
        * intros _. apply Hd. cbn [max_depth]. by apply (stoi_range n).
        * destruct Hu as [-> | Hu]; [by left|].
          right. by apply elem_of_cons; right; apply elem_of_cons; right.
    - exists n. split; [apply elem_of_cons; right; apply elem_of_cons; by left|].
      split; [done|]. unfold stoi in Hv.
      destruct (Z.leb_spec (digits_value n 0) INT_MAX); [discriminate | done]. }
  destruct (String.eqb_spec a "-p") as [->|Hp].
  { destruct rest as [|dir rest']; [by left|]. simpl in Hlen.
    specialize (IH rest' (mkOptions (recursive opt) (max_depth opt) dir) url
                  ltac:(lia)).
    destruct (parse_args rest' _ url) as [c| |opt' url'].
    - by apply Hc1, Hc1.
    - by apply (Hex2 (fun n => is_number n = true ∧ (INT_MAX < digits_value n 0)%Z)).
    - destruct IH as [Hd Hu]. split; [exact Hd|].
      destruct Hu as [-> | Hu]; [by left|].
      right. by apply elem_of_cons; right; apply elem_of_cons; right. }
  destruct (String.eqb_spec a "-h") as [->|Hh]; cbn [orb].
  { right. split; [done|]. left. apply elem_of_cons. by left. }
  destruct (String.eqb_spec a "--help") as [->|Hhelp].
  { right. split; [done|]. right. apply elem_of_cons. by left. }
  specialize (IH rest opt a ltac:(lia)).
  destruct (parse_args rest opt a) as [c| |opt' url'].
  - by apply Hc1.
  - by apply (Hex1 (fun n => is_number n = true ∧ (INT_MAX < digits_value n 0)%Z)).
  - destruct IH as [Hd Hu]. split; [exact Hd|].
    right. destruct Hu as [-> | Hu]; apply elem_of_cons; [by left | by right].
Qed.

(** X15: how a run of [main] can end.  Whenever [main] returns, its exit
    status is 0 or 1.  It is 1 only when [main] stops before any crawl.
    It is 0 in two cases: the argument loop met [-h] or [--help] and
    nothing was crawled, or a crawl was made and completed, which needs
    one of the arguments to be a non-empty URL [parse_url] accepts.  The
    run dies of an uncaught exception only when an argument is a digit
    string whose value does not fit an [int]. *)
Theorem main_outcomes (w : World) (args : list string) :
  let o := main http_get_text http_download_file create_directories w args in
  match o with
  | Exited c => c = 1%Z ∨ (c = 0%Z ∧ ("-h" ∈ args ∨ "--help" ∈ args))
  | Uncaught =>
      ∃ n, n ∈ args ∧ is_number n = true ∧ (INT_MAX < digits_value n 0)%Z
  | Done _ _ _ _ => ∃ url, url ∈ args ∧ url ≠ "" ∧ is_Some (parse_url url)
  end
  ∧ (∀ c, exit_code o = Some c → c = 0%Z ∨ c = 1%Z)
  ∧ (exit_code o = Some 1%Z → o = Exited 1)
  ∧ (exit_code o = Some 0%Z →
     (o = Exited 0 ∧ ("-h" ∈ args ∨ "--help" ∈ args))
     ∨ ∃ depth st v d, o = Done depth st v d
         ∧ ∃ url, url ∈ args ∧ url ≠ "" ∧ is_Some (parse_url url)).
Proof.
  intros o.
  assert (match o with
          | Exited c => c = 1%Z ∨ (c = 0%Z ∧ ("-h" ∈ args ∨ "--help" ∈ args))
          | Uncaught =>
              ∃ n, n ∈ args ∧ is_number n = true ∧ (INT_MAX < digits_value n 0)%Z
          | Done _ _ _ _ => ∃ url, url ∈ args ∧ url ≠ "" ∧ is_Some (parse_url url)
          end) as Hm.
  { unfold o, main.
    pose proof (parse_args_inv (length args) args default_options "" (le_n _)) as H.
    destruct (parse_args args default_options "") as [c| |opt0 url]; [done | done |].
    destruct (Str.is_empty url) eqn:He; [by left|].
    destruct (create_directories w _) as [w1 ok].
    destruct ok; cbn [negb]; [|by left].
    destruct (parse_url url) as [p|] eqn:Hp; [|by left].
    apply is_empty_false in He. exists url.
    destruct H as [_ [-> | Hu]]; [done|]. by repeat split. }
  split; [exact Hm|].
  destruct o as [c| |depth st v d]; cbn [exit_code].
  - destruct Hm as [-> | [-> Hh]].
    + split; [intros c [= <-]; by right|]. split; [done | discriminate].
    + split; [intros c [= <-]; by left|]. split; [discriminate|]. intros _. by left.
  - split; [discriminate|]. split; discriminate.
  - split; [intros c [= <-]; by left|]. split; [discriminate|].
    intros _. right. by exists depth, st, v, d.
Qed.

(** X16: the depth and the page count of a run that gets to crawl.  The
    crawl starts at a depth between 0 and [INT_MAX]; the seed page is
    always fetched, so the summary counts at least one page; and a run
    started at depth 0 visits the seed page only. *)
Theorem main_depth_and_count (w : World) (args : list string) depth st v d :
  main http_get_text http_download_file create_directories w args
  = Done depth st v d →
  (0 <= depth <= INT_MAX)%Z ∧ 1 ≤ v ∧ (depth = 0%Z → v = 1).
Proof.
  unfold main.
  pose proof (parse_args_inv (length args) args default_options "" (le_n _)) as H.
  destruct (parse_args args default_options "") as [c| |opt0 url]; [done | done |].
  destruct (Str.is_empty url) eqn:He; [done|].
  destruct (create_directories w _) as [w1 ok].
  destruct ok; cbn [negb]; [|done].
  destruct (parse_url url) as [p|] eqn:Hp; [|done].
  apply is_empty_false in He.
  set (opt := apply_default_depth opt0).
  set (dep := if recursive opt then max_depth opt else 0%Z).
  intros [= <- <- <- <-].
  destruct H as [Hd _]. specialize (Hd ltac:(cbn; unfold INT_MAX; lia)).
  assert (0 <= dep <= INT_MAX)%Z as Hdep.
  { unfold dep, opt, apply_default_depth.
    destruct (recursive opt0) eqn:Hr; cbn [andb].
    - destruct (max_depth opt0 =? 0)%Z; cbn [recursive max_depth]; rewrite ?Hr;
        [unfold INT_MAX; lia | done].
    - rewrite Hr. unfold INT_MAX. lia. }
  pose proof (crawl_marks_seed http_get_text http_download_file opt url dep
                (init_state w1) p He Hp) as Hseed.
  split; [exact Hdep|]. split.
  - assert ({[url]} ⊆ visited_pages
              (crawl http_get_text http_download_file opt url dep (init_state w1)))
      as Hsub by (by apply singleton_subseteq_l).
    apply subseteq_size in Hsub. by rewrite size_singleton in Hsub.
  - intros Hz.
    assert (recursive opt = false ∨ (dep <= 0)%Z) as Hflat by (right; by rewrite Hz).
    destruct (crawl_flat_bounded http_get_text http_download_file opt url dep
                Hflat (init_state w1)) as (new & Ht & Hb).
    destruct (steps_sets http_get_text http_download_file _ _
                (crawl_steps http_get_text http_download_file opt url dep (init_state w1)))
      as (new' & Ht' & Hv & _).
    rewrite Ht in Ht'. apply app_inv_head in Ht'. subst new'.
    assert (visited_pages
              (crawl http_get_text http_download_file opt url dep (init_state w1))
            = {[url]}) as ->; [|apply size_singleton].
    apply set_eq. intros x. rewrite elem_of_singleton. split.
    + rewrite Hv. cbn [init_state visited_pages].
      rewrite elem_of_union, elem_of_empty, elem_of_list_to_set.
      intros [[] | Hx]. by apply (hops_zero new), Hb.
    + by intros ->.
Qed.

End MainMore.

Lemma main_depth_and_count_witness :
  (0 <= 5 <= INT_MAX)%Z ∧ 1 ≤ 2 ∧ ((5 = 0)%Z → 2 = 1).
Proof.
  eapply (main_depth_and_count Sample.get Sample.download_ok Sample.mkdir tt
            ["-r"; "http://x.com/"] 5 _ 2 _).
  vm_compute. reflexivity.
Defined.

(** ** The string sets of the C port *)

Section StrSetFacts.
Import StrSet.

Lemma set_has_spec s v : set_has s v = true ↔ C.c_str v ∈ contents s.
Proof.
  unfold set_has, contents. rewrite elem_of_list_to_set, existsb_exists. split.
  - intros (x & Hin & ->%String.eqb_eq). by apply list_elem_of_In.
  - intros Hin. exists (C.c_str v). split; [by apply list_elem_of_In|].
    apply String.eqb_refl.
Qed.

(** X17: [set_add] on a well-formed set whose capacity is below 2^60
    never writes outside the array; when it returns, the set is
    well-formed again and holds the string added and what it held before,
    nothing else, and it is unchanged if the string was in it; it ends the
    process only when the string is new and the allocator refuses. *)
Theorem set_add_spec (realloc_ok malloc_ok : bool) (s : t) (v : string) :
  wf s → (cap s < 2 ^ 60)%N →
  match set_add realloc_ok malloc_ok s v with
  | Ok s' =>
      wf s'
      ∧ contents s' = {[C.c_str v]} ∪ contents s
      ∧ (∀ w, set_has s' w = set_has s w || String.eqb (C.c_str w) (C.c_str v))
      ∧ (set_has s v = true → s' = s)
      ∧ (set_has s v = false → items s' = items s ++ [C.c_str v])
  | Die =>
      set_has s v = false
      ∧ (malloc_ok = false ∨ (realloc_ok = false ∧ len s = cap s))
  | Undefined => False
  end.
Proof.
  intros [Hnd Hlen] Hcap. unfold set_add.
  destruct (set_has s v) eqn:Hhas.
  { split; [done|]. apply set_has_spec in Hhas as Hin. split.
    - apply set_eq. intros x. rewrite elem_of_union, elem_of_singleton.
      split; [by right | by intros [-> | ?]].
    - split; [|done]. intros w. destruct (set_has s w) eqn:Hw; [done|]. cbn [orb].
      destruct (String.eqb_spec (C.c_str w) (C.c_str v)) as [He|]; [|done].
      apply set_has_spec in Hhas. rewrite <- He in Hhas.
      apply set_has_spec in Hhas. congruence. }
  assert (∀ ncap, (len s + 1 <= ncap)%N →
            wf (mk (items s ++ [C.c_str v]) ncap)
            ∧ contents (mk (items s ++ [C.c_str v]) ncap) = {[C.c_str v]} ∪ contents s
            ∧ (∀ w, set_has (mk (items s ++ [C.c_str v]) ncap) w
                    = set_has s w || String.eqb (C.c_str w) (C.c_str v))
            ∧ (false = true → mk (items s ++ [C.c_str v]) ncap = s)
            ∧ (false = false → items (mk (items s ++ [C.c_str v]) ncap)
                               = items s ++ [C.c_str v])) as Hok.
  { intros ncap Hn. split; [split|split; [|split; [|split]]]; cbn [items StrSet.cap].
    - apply NoDup_app. split; [done|]. split; [|apply NoDup_singleton].
      intros x Hx ->%list_elem_of_singleton.
      assert (set_has s v = true) by (by apply set_has_spec, elem_of_list_to_set).
      congruence.
    - unfold len in *. cbn [items]. rewrite length_app. simpl. lia.
    - unfold contents. cbn [items]. rewrite list_to_set_app_L. cbn.
      apply set_eq. intros x.
      rewrite !elem_of_union, elem_of_singleton, elem_of_empty. tauto.
    - intros w. unfold set_has. cbn [items]. rewrite existsb_app. cbn.
      by rewrite orb_false_r.
    - done.
    - done. }
  destruct (N.eqb_spec (len s) (cap s)) as [Hfull|Hroom].
  - destruct realloc_ok; [|split; [done | by right]].
    destruct malloc_ok; cbn [negb]; [|split; [done | by left]].
    assert ((if (cap s =? 0)%N then 64 else (cap s * 2) mod (SIZE_MAX + 1))%N
            = (if (cap s =? 0)%N then 64 else cap s * 2)%N) as ->.
    { destruct (cap s =? 0)%N; [done|]. apply N.mod_small.
      unfold SIZE_MAX. lia. }
    set (ncap := (if (cap s =? 0)%N then 64 else cap s * 2)%N).
    assert (len s + 1 <= ncap ∧ ncap < 2 ^ 61)%N as [Hn Hn'].
    { unfold ncap. destruct (N.eqb_spec (cap s) 0); lia. }
    rewrite N.mod_small by (unfold SIZE_MAX, ptr_size; lia).
    destruct (N.leb_spec ((len s + 1) * ptr_size) (ncap * ptr_size)) as [|Hbad];
      [by apply Hok|]. unfold ptr_size in Hbad. lia.
  - destruct malloc_ok; cbn [negb]; [|split; [done | by left]].
    destruct (N.leb_spec ((len s + 1) * ptr_size) (cap s * ptr_size)) as [|Hbad];
      [apply Hok; lia|]. unfold ptr_size in Hbad. lia.
Qed.

End StrSetFacts.

Lemma set_add_spec_witness :
  match StrSet.set_add true true StrSet.set_init "http://x.com/" with
  | StrSet.Ok s' =>
      StrSet.wf s'
      ∧ StrSet.contents s' = {[C.c_str "http://x.com/"]} ∪ StrSet.contents StrSet.set_init
      ∧ (∀ w, StrSet.set_has s' w
              = StrSet.set_has StrSet.set_init w
                || String.eqb (C.c_str w) (C.c_str "http://x.com/"))
      ∧ (StrSet.set_has StrSet.set_init "http://x.com/" = true → s' = StrSet.set_init)
      ∧ (StrSet.set_has StrSet.set_init "http://x.com/" = false →
         StrSet.items s' = StrSet.items StrSet.set_init ++ [C.c_str "http://x.com/"])
  | StrSet.Die =>
      StrSet.set_has StrSet.set_init "http://x.com/" = false
      ∧ (true = false ∨ (true = false ∧ StrSet.len StrSet.set_init = StrSet.cap StrSet.set_init))
  | StrSet.Undefined => False
  end.
Proof.
  apply (set_add_spec true true StrSet.set_init "http://x.com/").
  - split; [apply NoDup_nil_2 | reflexivity].
  - reflexivity.
Defined.

(** ** The URL helpers of the C port against the C++ spider *)

Section CUrlFacts.
Import CUrl.

Lemma starts_with_ci_loop_spec s : ∀ pref,
  starts_with_ci_loop s pref = starts_with (to_lower s) (to_lower pref).
Proof.
  unfold starts_with, to_lower.
  induction s as [|c s IH]; intros [|p pref]; try reflexivity.
  cbn [starts_with_ci_loop Str.map Str.is_prefix]. rewrite IH.
  rewrite (char_eqb_sym (Char.tolower p)).
  by destruct (Char.eqb (Char.tolower c) (Char.tolower p)).
Qed.

(** X18: the prefix test of the C port, which lowers both characters at
    each step, gives what the C++ spider gets by lowering the reference
    first and comparing with a lower-case literal; so the two programs
    skip and recognise the same schemes. *)
Theorem starts_with_ci_spec (s pref : string) :
  C.c_str s = s → C.c_str pref = pref → to_lower pref = pref →
  starts_with_ci s pref = starts_with (to_lower s) pref.
Proof.
  intros Hs Hp Hl. unfold starts_with_ci.
  by rewrite Hs, Hp, starts_with_ci_loop_spec, Hl.
Qed.

Lemma substring_ge s : ∀ n, String.length s ≤ n → String.substring 0 n s = s.
Proof.
  induction s as [|c s IH]; intros [|n] H; simpl in *; try reflexivity; try lia.
  f_equal. apply IH. lia.
Qed.

Lemma take_while_length p s : String.length (Str.take_while p s) ≤ String.length s.
Proof.
  induction s as [|c s IH]; [done|]. simpl. destruct (p c); simpl; lia.
Qed.

Lemma drop_while_length p s : String.length (Str.drop_while p s) ≤ String.length s.
Proof.
  induction s as [|c s IH]; [done|]. simpl. destruct (p c); simpl; lia.
Qed.

Lemma upto_last_length c s t :
  Str.upto_last c s = Some t → String.length t ≤ String.length s.
Proof.
  intros (pre & file & _ & -> & _)%upto_last_some. rewrite str_length_app. lia.
Qed.

(** X19: for a path that fits the buffers, the base directory of the C
    port is the one of the C++ spider. *)
Theorem base_dir_from_path_spec (base : UrlParts) (outsz : nat) :
  C.c_str (path base) = path base →
  String.length (path base) < PATH_MAX →
  String.length (path base) + 2 ≤ outsz →
  base_dir_from_path (path base) outsz = url_base_dir base.
Proof.
  intros Hz Hlen Hout. unfold base_dir_from_path, url_base_dir, strncpy0, strip_qf.
  rewrite Hz, (substring_ge (path base)) by (unfold PATH_MAX in *; lia).
  pose proof (take_while_length (fun c => negb (Str.mem c "?#")) (path base)) as Hcut.
  fold (Str.cut_at_first_of "?#" (path base)) in Hcut.
  destruct (path base) as [|c p] eqn:Hp.
  { unfold Str.cut_at_first_of.
    cbn [Str.take_while String.length Nat.eqb Str.is_empty].
    apply substring_ge. simpl in *. lia. }
  cbn [Str.is_empty].
  set (tmp := Str.cut_at_first_of "?#" (String c p)) in *.
  destruct (Nat.eqb_spec (String.length tmp) 0) as [He|He].
  - destruct tmp as [|d q]; [|discriminate].
    change (Str.back "") with zero. change (Char.eqb zero "/") with false.
    cbn [Str.upto_last]. apply substring_ge. simpl in *. lia.
  - destruct (Char.eqb (Str.back tmp) "/"); [apply substring_ge; lia|].
    destruct (Str.upto_last "/" tmp) as [dir|] eqn:Hd.
    + apply substring_ge. apply upto_last_length in Hd. lia.
    + apply substring_ge. simpl in *. lia.
Qed.

Lemma split_on_take sep s :
  Spec.split_on sep s
  = Str.take_while (fun c => negb (Char.eqb c sep)) s
      :: match Str.drop_while (fun c => negb (Char.eqb c sep)) s with
         | EmptyString => []
         | String _ r => Spec.split_on sep r
         end.
Proof.
  induction s as [|c s IH]; [reflexivity|].
  cbn [Spec.split_on Str.take_while Str.drop_while].
  destruct (Char.eqb c sep); cbn [negb]; [reflexivity|]. by rewrite IH.
Qed.

Lemma path_parts_nil : path_parts "" = [].
Proof. reflexivity. Qed.

Lemma path_parts_strtok s :
  path_parts s = match strtok_r "/" s with
                 | None => []
                 | Some (tok, rest) => tok :: path_parts rest
                 end.
Proof.
  rewrite path_parts_spec. unfold strtok_r.
  induction s as [|c s IH]; [reflexivity|].
  cbn [Spec.split_on Str.drop_while].
  destruct (Char.eqb c "/") eqn:Hc.
  - cbn [List.filter nonempty Str.is_empty negb]. exact IH.
  - clear IH. cbn [Str.is_empty Str.take_while Str.drop_while]. rewrite Hc. cbn [negb].
    rewrite split_on_take.
    change (List.filter nonempty (String c ?x :: ?l))
      with (String c x :: List.filter nonempty l).
    f_equal.
    destruct (Str.drop_while _ s) as [|d r]; [reflexivity|].
    by rewrite path_parts_spec.
Qed.

Lemma strtok_r_shorter s tok rest :
  strtok_r "/" s = Some (tok, rest) → String.length rest < String.length s.
Proof.
  unfold strtok_r.
  pose proof (drop_while_length (fun c => Char.eqb c "/") s) as H1.
  destruct (Str.drop_while (fun c => Char.eqb c "/") s) as [|c s1] eqn:E; [done|].
  cbn [Str.is_empty]. intros [= _ <-]. simpl in H1.
  pose proof (drop_while_length (fun c => negb (Char.eqb c "/")) s1) as H2.
  destruct (negb (Char.eqb c "/")).
  - destruct (Str.drop_while (fun c => negb (Char.eqb c "/")) s1) as [|d r];
      simpl in *; lia.
  - simpl. lia.
Qed.

Lemma tok_loop_spec : ∀ fuel s segs,
  String.length s < fuel →
  tok_loop fuel s segs = fold_left seg_step (path_parts s) segs.
Proof.
  induction fuel as [|fuel IH]; intros s segs Hf; [lia|].
  cbn [tok_loop]. rewrite (path_parts_strtok s).
  destruct (strtok_r "/" s) as [[tok rest]|] eqn:Ht; [|reflexivity].
  cbn [fold_left]. apply IH. apply strtok_r_shorter in Ht. lia.
Qed.

Lemma removelast_le {A} (l : list A) : length (removelast l) ≤ length l.
Proof.
  induction l as [|x l IH]; [done|]. destruct l as [|y l]; [simpl; lia|].
  change (removelast (x :: y :: l)) with (x :: removelast (y :: l)). simpl in *. lia.
Qed.

Lemma norm_step_length segs tok : length (norm_step segs tok) ≤ S (length segs).
Proof.
  unfold norm_step. destruct (_ || _); [lia|].
  destruct (String.eqb tok "..").
  - destruct segs as [|x l]; [simpl; lia|].
    pose proof (removelast_le (x :: l)). lia.
  - rewrite length_app. simpl. lia.
Qed.

Lemma seg_fold toks : ∀ segs,
  length segs + length toks ≤ 1024 →
  fold_left seg_step toks segs = fold_left norm_step toks segs.
Proof.
  induction toks as [|tok toks IH]; intros segs H; [reflexivity|].
  simpl in H. cbn [fold_left].
  assert (seg_step segs tok = norm_step segs tok) as ->.
  { unfold seg_step, norm_step.
    replace (String.eqb tok "") with (Str.is_empty tok) by (by destruct tok).
    destruct (_ || _); [reflexivity|].
    destruct (String.eqb tok ".."); [by destruct segs|].
    destruct (Nat.ltb_spec (length segs) 1024); [reflexivity | lia]. }
  apply IH. pose proof (norm_step_length segs tok). lia.
Qed.

Lemma weight_app a b : weight (a ++ b) = weight a + weight b.
Proof. unfold weight. by rewrite List.map_app, list_sum_app. Qed.

Lemma split_on_weight sep s : weight (Spec.split_on sep s) = S (String.length s).
Proof.
  induction s as [|c s IH]; [reflexivity|]. cbn [Spec.split_on].
  destruct (Char.eqb c sep).
  - change (weight ("" :: Spec.split_on sep s)) with (1 + weight (Spec.split_on sep s)).
    rewrite IH. simpl. lia.
  - destruct (split_on_cons sep s) as (x & l & E). rewrite E in *.
    unfold weight in *. simpl in *. lia.
Qed.

Lemma filter_weight p l : weight (List.filter p l) ≤ weight l.
Proof.
  induction l as [|x l IH]; [done|]. simpl. unfold weight in *.
  destruct (p x); simpl; lia.
Qed.

Lemma nonempty_count l : 2 * length (List.filter nonempty l) ≤ weight (List.filter nonempty l).
Proof.
  induction l as [|x l IH]; [done|]. simpl. unfold weight in *.
  destruct x as [|c x]; [exact IH|]. simpl in *. lia.
Qed.

Lemma removelast_weight l : weight (removelast l) ≤ weight l.
Proof.
  induction l as [|x l IH]; [done|]. destruct l as [|y l]; [unfold weight; simpl; lia|].
  change (removelast (x :: y :: l)) with (x :: removelast (y :: l)).
  unfold weight in *. simpl in *. lia.
Qed.

Lemma norm_step_weight segs tok :
  weight (norm_step segs tok) ≤ weight segs + S (String.length tok).
Proof.
  unfold norm_step. destruct (_ || _); [lia|].
  destruct (String.eqb tok "..").
  - destruct segs as [|x l]; [lia|]. pose proof (removelast_weight (x :: l)). lia.
  - rewrite weight_app. unfold weight. simpl. lia.
Qed.

Lemma norm_fold_weight toks : ∀ segs,
  weight (fold_left norm_step toks segs) ≤ weight segs + weight toks.
Proof.
  induction toks as [|tok toks IH]; intros segs; [unfold weight; simpl; lia|].
  cbn [fold_left]. specialize (IH (norm_step segs tok)).
  pose proof (norm_step_weight segs tok).
  change (weight (tok :: toks)) with (S (String.length tok) + weight toks). lia.
Qed.

Lemma join_length segs :
  segs ≠ [] → S (String.length (Str.join "/" segs)) = weight segs.
Proof.
  induction segs as [|x l IH]; [done|]. intros _.
  destruct l as [|y l]; [unfold weight; simpl; lia|].
  cbn [Str.join]. rewrite !str_length_app.
  change (weight (x :: y :: l)) with (S (String.length x) + weight (y :: l)).
  rewrite <- IH by done. simpl. lia.
Qed.

Lemma cat_loop_spec outsz segs : ∀ out,
  String.length out + String.length (Str.join "/" segs) + 1 ≤ outsz →
  cat_loop outsz out segs = out +:+ Str.join "/" segs.
Proof.
  induction segs as [|seg rest IH]; intros out H.
  - simpl. by rewrite str_app_nil_r.
  - cbn [cat_loop]. unfold strncat. destruct rest as [|y r].
    + cbn [Str.join] in *. rewrite substring_ge by lia. reflexivity.
    + change (Str.join "/" (seg :: y :: r))
        with (seg +:+ "/" +:+ Str.join "/" (y :: r)) in *.
      rewrite !str_length_app in H.
      change (String.length "/") with 1 in H.
      rewrite (substring_ge seg) by lia.
      rewrite (substring_ge "/")
        by (rewrite str_length_app; change (String.length "/") with 1; lia).
      rewrite IH; [by rewrite !str_app_assoc|].
      rewrite !str_length_app. change (String.length "/") with 1. lia.
Qed.

(** X20: on a path of at most 2048 characters, given a buffer with room
    for it, [normalize_rel_path] of the C port returns what the two loops
    of the C++ [join_url] build: neither its limit of 1024 segments nor a
    truncation comes into play. *)
Theorem normalize_rel_path_spec (combined : string) (outsz : nat) :
  C.c_str combined = combined →
  String.length combined ≤ 2048 →
  String.length combined + 2 ≤ outsz →
  normalize_rel_path combined outsz
  = "/" +:+ Str.join "/" (norm_parts (path_parts combined)).
Proof.
  intros Hz Hlen Hout. unfold normalize_rel_path, strncpy0.
  rewrite Hz, (substring_ge combined) by (unfold PATH_MAX; lia).
  rewrite tok_loop_spec by lia.
  pose proof (nonempty_count (Spec.split_on "/" combined)) as Hcount.
  pose proof (filter_weight nonempty (Spec.split_on "/" combined)) as Hw.
  rewrite split_on_weight in Hw. rewrite <- path_parts_spec in Hcount, Hw.
  rewrite seg_fold by (simpl; lia).
  fold (norm_parts (path_parts combined)).
  pose proof (norm_fold_weight (path_parts combined) []) as Hn.
  fold (norm_parts (path_parts combined)) in Hn.
  change (weight []) with 0 in Hn.
  set (segs := norm_parts (path_parts combined)) in *.
  assert (segs ≠ [] →
          cat_loop outsz "/" segs = "/" +:+ Str.join "/" segs
          ∧ String.length ("/" +:+ Str.join "/" segs) ≤ outsz - 1) as Hcat.
  { intros Hne. pose proof (join_length _ Hne) as Hj. split.
    - apply cat_loop_spec. change (String.length "/") with 1. lia.
    - rewrite str_length_app. change (String.length "/") with 1. lia. }
  destruct segs as [|x l].
  - apply substring_ge. simpl. lia.
  - destruct (Hcat ltac:(done)) as [-> Hl]. by apply substring_ge.
Qed.

End CUrlFacts.

Lemma starts_with_ci_spec_witness :
  CUrl.starts_with_ci "JavaScript:void(0)" "javascript:"
  = starts_with (to_lower "JavaScript:void(0)") "javascript:".
Proof.
  apply (starts_with_ci_spec "JavaScript:void(0)" "javascript:"); reflexivity.
Defined.

Lemma base_dir_from_path_spec_witness :
  CUrl.base_dir_from_path (path (mkUrlParts "http" "x.com" "/a/b/index.html?q=1/2")) 4096
  = url_base_dir (mkUrlParts "http" "x.com" "/a/b/index.html?q=1/2").
Proof.
  apply (base_dir_from_path_spec (mkUrlParts "http" "x.com" "/a/b/index.html?q=1/2") 4096).
  - reflexivity.
  - cbn. unfold CUrl.PATH_MAX. lia.
  - cbn. lia.
Defined.

Lemma normalize_rel_path_spec_witness :
  CUrl.normalize_rel_path "/a/b/../img/./logo.png" 4096
  = "/" +:+ Str.join "/" (norm_parts (path_parts "/a/b/../img/./logo.png")).
Proof.
  apply (normalize_rel_path_spec "/a/b/../img/./logo.png" 4096).
  - reflexivity.
  - cbn. lia.
  - cbn. lia.
Defined.

(** ** Scheme-relative references *)

Lemma parse_url_compose_any sch hst pth :
  sch = "http" ∨ sch = "https" →
  hst ≠ "" → Str.mem "/" hst = false →
  (pth = "" ∨ (starts_with pth "/" = true ∧ all_chars not_newline pth = true)) →
  parse_url (sch +:+ "://" +:+ hst +:+ pth)
  = Some (mkUrlParts sch hst (if Str.is_empty pth then "/" else pth)).
Proof.
  intros Hsch Hh Hslash [-> | [Hs Hnl]].
  - assert (to_lower sch = sch) as Hlow by (destruct Hsch as [-> | ->]; reflexivity).
    destruct (head_url sch hst "" Hsch Hh Hslash (or_introl eq_refl))
      as (m & l & Hm & Hr & Hcaps).
    unfold parse_url, Regex.regex_match.
    rewrite Hm. cbn [List.find]. rewrite Hr. cbn [Str.is_empty].
    unfold Regex.cap. rewrite Hcaps. cbn. fold (to_lower sch). by rewrite Hlow.
  - rewrite parse_url_compose by done. by destruct pth.
Qed.

(** X21: a reference that starts with [//] takes the scheme of the base
    and nothing else of it: [join_url] returns the scheme, a colon and the
    trimmed reference, and [parse_url] reads from the result the host and
    the path written in the reference. *)
Theorem join_url_scheme_relative (base : UrlParts) (href hst pth : string) :
  scheme base = "http" ∨ scheme base = "https" →
  trim href = "//" +:+ hst +:+ pth →
  hst ≠ "" → Str.mem "/" hst = false →
  (pth = "" ∨ (starts_with pth "/" = true ∧ all_chars not_newline pth = true)) →
  join_url base href = scheme base +:+ ":" +:+ trim href
  ∧ parse_url (join_url base href)
    = Some (mkUrlParts (scheme base) hst (if Str.is_empty pth then "/" else pth)).
Proof.
  intros Hsch Hh Hne Hslash Hp.
  assert (join_url base href = scheme base +:+ ":" +:+ trim href) as Hj.
  { unfold join_url, normalize_url. rewrite Hh.
    change ("//" +:+ hst +:+ pth) with (String "/" (String "/" (hst +:+ pth))).
    unfold starts_with, to_lower.
    cbn [Str.is_empty Str.map Str.is_prefix Str.front].
    change (Char.tolower "/") with "/"%char.
    change (Char.eqb "j" "/") with false. change (Char.eqb "m" "/") with false.
    change (Char.eqb "h" "/") with false. change (Char.eqb "/" "#") with false.
    change (Char.eqb "/" "/") with true.
    reflexivity. }
  split; [exact Hj|]. rewrite Hj, Hh.
  change (scheme base +:+ ":" +:+ "//" +:+ hst +:+ pth)
    with (scheme base +:+ "://" +:+ hst +:+ pth).
  by apply parse_url_compose_any.
Qed.

Lemma join_url_scheme_relative_witness :
  join_url (mkUrlParts "https" "x.com" "/a/index.html") " //cdn.y.com/img/logo.png"
  = scheme (mkUrlParts "https" "x.com" "/a/index.html")
      +:+ ":" +:+ trim " //cdn.y.com/img/logo.png"
  ∧ parse_url (join_url (mkUrlParts "https" "x.com" "/a/index.html")
                        " //cdn.y.com/img/logo.png")
    = Some (mkUrlParts (scheme (mkUrlParts "https" "x.com" "/a/index.html")) "cdn.y.com"
              (if Str.is_empty "/img/logo.png" then "/" else "/img/logo.png")).
Proof.
  apply (join_url_scheme_relative (mkUrlParts "https" "x.com" "/a/index.html")
           " //cdn.y.com/img/logo.png" "cdn.y.com" "/img/logo.png").
  - by right.
  - reflexivity.
  - discriminate.
  - reflexivity.
  - right. split; reflexivity.
Defined.

(** ** The crawl: where it stops *)

Section CrawlEdges.

Context {World : Type}.
Variable http_get_text : World -> string -> World * option string.
Variable http_download_file : World -> string -> string -> World * bool.

Abbreviation State := (State World).
Abbreviation crawl := (crawl http_get_text http_download_file).

(** X22: where a crawl stops at once.  An empty URL, a URL [parse_url]
    rejects and a URL already in the visited set leave the state as it
    is: no request is made.  A page whose fetch fails is put in the
    visited set all the same, so it is not tried again and is counted as
    visited; nothing is downloaded or followed from it. *)
Theorem crawl_stops_early opt url depth (st : State) :
  (url = "" ∨ parse_url url = None ∨ url ∈ visited_pages st →
   crawl opt url depth st = st)
  ∧ (∀ parts w,
       url ≠ "" → parse_url url = Some parts → url ∉ visited_pages st →
       http_get_text (world st) url = (w, None) →
       crawl opt url depth st
       = mkState ({[url]} ∪ visited_pages st) (downloaded_images st) w
                 (trace st ++ [EvFetch url false])).
Proof.
  split.
  - intros H. rewrite crawl_unfold. unfold crawl_body.
    destruct (Str.is_empty url) eqn:He; [done|].
    destruct (parse_url url) as [parts|] eqn:Hp; [|done].
    destruct H as [-> | [? | Hv]]; [done | done |]. by rewrite decide_True.
  - intros parts w Hu Hp Hv Hg. rewrite crawl_unfold. unfold crawl_body.
    apply is_empty_false in Hu. rewrite Hu, Hp, decide_False by done.
    cbn [world visited_pages downloaded_images trace]. by rewrite Hg.
Qed.

End CrawlEdges.

Lemma crawl_stops_early_witness :
  crawl Sample.get Sample.download_ok Sample.opts "ftp://x.com/" 5 (init_state tt)
  = init_state tt.
Proof.
  apply (proj1 (crawl_stops_early Sample.get Sample.download_ok
                  Sample.opts "ftp://x.com/" 5 (init_state tt))).
  right. left. vm_compute. reflexivity.
Defined.

(** ** The extractor on a page with one image tag *)

Section ExtractOne.
Import Regex.

Lemma search_skip r prev c s :
  matchR r (start prev (String c s)) = [] →
  Ecma.search r prev (String c s) = Ecma.search r (Some c) s.
Proof. intros H. cbn [Ecma.search]. unfold Ecma.first_at. by rewrite H. Qed.

Lemma search_hit r prev s st' l :
  matchR r (start prev s) = st' :: l →
  Ecma.search r prev s = Some (consumed (start prev s) st', st').
Proof. intros H. destruct s; cbn [Ecma.search]; unfold Ecma.first_at; by rewrite H. Qed.

Lemma iterate_one r prev s txt st' fuel :
  Ecma.search r prev s = Some (txt, st') →
  Str.is_empty txt = false →
  Ecma.search r (ms_prev st') (ms_rest st') = None →
  Ecma.iterate (S fuel) r prev s = [(txt, st')].
Proof.
  intros Hs Hne Hnone. cbn [Ecma.iterate]. rewrite Hs, Hne. f_equal.
  destruct fuel; [reflexivity|]. cbn [Ecma.iterate]. by rewrite Hnone.
Qed.

Lemma tag_nomatch name prev c s :
  Char.eqb "<" c = false → matchR (Pat.tag name) (start prev (String c s)) = [].
Proof.
  intros H. unfold Pat.tag. rewrite matchR_seq. unfold chr, start.
  cbn [matchR ms_rest]. by rewrite H.
Qed.

Lemma search_tag_none name : ∀ s prev,
  Str.mem "<" s = false → Ecma.search (Pat.tag name) prev s = None.
Proof.
  induction s as [|c s IH]; intros prev H; [reflexivity|].
  rewrite mem_cons in H. apply orb_false_iff in H as [Hc Hs].
  rewrite search_skip by (by apply tag_nomatch). by apply IH.
Qed.

Lemma search_tag_skip name pre rest : ∀ prev,
  Str.mem "<" pre = false →
  Ecma.search (Pat.tag name) prev (pre +:+ rest) = Ecma.search (Pat.tag name) None rest.
Proof.
  induction pre as [|c pre IH]; intros prev H.
  - rewrite str_app_nil_l. apply search_tag_prev.
  - rewrite mem_cons in H. apply orb_false_iff in H as [Hc Hs].
    rewrite str_app_cons, search_skip by (by apply tag_nomatch). by apply IH.
Qed.

Lemma mem_all_not d v :
  Str.mem d v = false → all_chars (fun c => negb (Char.eqb c d)) v = true.
Proof.
  induction v as [|c v IH]; [done|]. rewrite mem_cons. cbn [all_chars].
  intros [Hc Hv]%orb_false_iff. rewrite (char_eqb_sym c d), Hc. by apply IH.
Qed.

(** The image tag: what the tag pattern matches on it. *)
Lemma tag_img_match prev v post :
  Str.mem ">" v = false →
  matchR (Pat.tag "img")
         (start prev ("<img src=" +:+ String Pat.dquote (v +:+ String Pat.dquote (">" +:+ post))))
  = [MState (Some ">"%char) post []].
Proof.
  intros Hv. unfold Pat.tag, space.
  set (rest1 := " src=" +:+ String Pat.dquote (v +:+ String Pat.dquote (">" +:+ post))).
  set (st1 := MState (Some "<"%char) ("img" +:+ rest1) []).
  set (st2 := MState (Some "g"%char) rest1 []).
  rewrite matchR_seq.
  change (matchR (chr "<") (start prev _)) with [st1].
  cbn [flat_map]. rewrite app_nil_r.
  rewrite star_chr_seq by (by apply rejects_lit_ci_space).
  change (skip Char.isspace st1) with st1.
  rewrite matchR_seq. change (matchR (lit_ci "img") st1) with [st2].
  cbn [flat_map]. rewrite app_nil_r.
  rewrite matchR_seq. change (matchR WordB st2) with [st2].
  cbn [flat_map]. rewrite app_nil_r.
  unfold none_of. rewrite star_chr_seq.
  2:{ apply rejects_chr. intros c Hc. apply negb_true_iff in Hc.
      cbn [Str.mem] in Hc. rewrite orb_false_r in Hc.
      unfold chr. by rewrite char_eqb_sym. }
  assert (Str.drop_while (fun c => negb (Str.mem c ">")) rest1 = ">" +:+ post) as Hd.
  { assert (rest1 = ((" src=" +:+ String Pat.dquote "") +:+ v +:+ String Pat.dquote "")
                     +:+ (">" +:+ post)) as ->
      by (by rewrite !str_app_assoc).
    apply drop_while_all_stop; [|right; reflexivity].
    rewrite !all_chars_app. apply andb_true_iff. split; [reflexivity|].
    apply andb_true_iff. split; [|reflexivity].
    apply mem_all_none_of. intros c Hc. cbn [Str.mem] in Hc.
    rewrite orb_false_r in Hc. apply char_eqb_eq in Hc. by subst c. }
  unfold skip. cbn [ms_rest ms_prev ms_caps st2]. rewrite Hd. reflexivity.
Qed.

(** The attribute pattern on [src="v"]: the preferred match ends after the
    closing quote and has [v] as its second group. *)
Lemma attr_src_match prev v t :
  Str.mem Pat.dquote v = false →
  ∃ m l, matchR (Pat.attr "src")
                (start prev ("src=" +:+ String Pat.dquote (v +:+ String Pat.dquote t)))
         = m :: l
    ∧ ms_rest m = t ∧ Regex.cap 2 m = Some v.
Proof.
  intros Hv. unfold Pat.attr, space.
  set (body := v +:+ String Pat.dquote t).
  set (st0 := start prev ("src=" +:+ String Pat.dquote body)).
  set (st1 := MState (Some "c"%char) ("=" +:+ String Pat.dquote body) []).
  set (st2 := MState (Some "="%char) (String Pat.dquote body) []).
  set (st3 := MState (Some Pat.dquote) body []).
  set (nq := fun c => negb (Char.eqb c Pat.dquote)).
  set (e3 := skip nq st3).
  assert (ms_rest e3 = String Pat.dquote t) as He3.
  { unfold e3, skip, body. cbn [ms_rest].
    apply drop_while_all_stop; [by apply mem_all_not | right; reflexivity]. }
  assert (consumed st3 e3 = v) as Hc3 by (apply consumed_app; by rewrite He3).
  set (g2 := set_cap 2 st3 e3).
  assert (g2 = MState (ms_prev e3) (String Pat.dquote t) [(2, v)]) as Hg2.
  { unfold g2, set_cap. rewrite He3, Hc3. reflexivity. }
  set (st4 := MState (Some Pat.dquote) t [(2, v)]).
  exists (set_cap 1 st2 st4).
  assert (∃ l, matchR
     (Seq (lit_ci "src") (Seq (Star space) (Seq (chr "=") (Seq (Star space)
        (Group 1
           (Alt (Seq (chr Pat.dquote) (Seq (Group 2 (Star (Chr nq))) (chr Pat.dquote)))
           (Alt (Seq (chr Pat.squote)
                     (Seq (Group 3 (Star (Chr (fun c => negb (Char.eqb c Pat.squote)))))
                          (chr Pat.squote)))
                (Group 4 (Plus (Chr (fun c => negb (Char.isspace c || Char.eqb c ">")))))))))))) st0
     = set_cap 1 st2 st4 :: l) as [l Hl].
  { apply (head_seq _ _ _ st1); [by exists []|].
    apply (head_seq _ _ _ st1).
    { destruct (head_star_chr Char.isspace st1) as [l' Hl']. by exists l'. }
    apply (head_seq _ _ _ st2); [by exists []|].
    apply (head_seq _ _ _ st2).
    { destruct (head_star_chr Char.isspace st2) as [l' Hl']. by exists l'. }
    apply head_group, head_alt_l.
    apply (head_seq _ _ _ st3); [by exists []|].
    apply (head_seq _ _ _ g2); [apply head_group, head_star_chr|].
    rewrite Hg2. apply head_chr. apply char_eqb_refl. }
  exists l. split; [exact Hl|]. split; reflexivity.
Qed.

Lemma attr_src_nomatch prev rest :
  Str.is_prefix "src" (to_lower rest) = false →
  matchR (Pat.attr "src") (start prev rest) = [].
Proof.
  intros H. unfold Pat.attr. rewrite matchR_seq. unfold start.
  by rewrite (lit_ci_nomatch "src" eq_refl).
Qed.

(** What [extract_attr_urls] finds in the image tag. *)
Lemma extract_attr_urls_img v :
  Str.mem Pat.dquote v = false →
  extract_attr_urls ("<img src=" +:+ String Pat.dquote (v +:+ String Pat.dquote ">")) "src"
  = push_trimmed [] v.
Proof.
  intros Hv. unfold extract_attr_urls, Ecma.all_matches.
  destruct (attr_src_match (Some " "%char) v ">" Hv) as (m & l & Hm & Hr & Hc).
  assert (Ecma.search (Pat.attr "src") None
            ("<img src=" +:+ String Pat.dquote (v +:+ String Pat.dquote ">"))
          = Some (consumed (start (Some " "%char)
                              ("src=" +:+ String Pat.dquote (v +:+ String Pat.dquote ">"))) m,
                  m)) as Hs.
  { change ("<img src=" +:+ String Pat.dquote (v +:+ String Pat.dquote ">"))
      with (String "<" (String "i" (String "m" (String "g" (String " "
              ("src=" +:+ String Pat.dquote (v +:+ String Pat.dquote ">"))))))).
    do 5 (rewrite search_skip by (by apply attr_src_nomatch)).
    by apply (search_hit _ _ _ _ l). }
  erewrite iterate_one; [| exact Hs | |].
  - cbn [fold_left snd]. unfold attr_value. by rewrite Hc.
  - apply consumed_nonempty. rewrite Hr. cbn [start ms_rest].
    change ("src=" +:+ String Pat.dquote (v +:+ String Pat.dquote ">"))
      with (String "s" (String "r" (String "c" (String "="
              (String Pat.dquote (v +:+ String Pat.dquote ">")))))).
    cbn [String.length]. rewrite str_length_app. simpl. lia.
  - rewrite Hr. rewrite search_skip by (by apply attr_src_nomatch).
    cbn [Ecma.search]. unfold Ecma.first_at.
    by rewrite attr_src_nomatch.
Qed.

End ExtractOne.

(** X23: on a page whose only tag is one [img] tag with a double-quoted
    [src] (text without [<] before and after it, a value without a double
    quote or [>]), [extract_img_srcs] returns the value trimmed, and
    nothing when it is empty or blank. *)
Theorem extract_img_srcs_one_tag (pre v post : string) :
  Str.mem "<" pre = false → Str.mem "<" post = false →
  Str.mem Pat.dquote v = false → Str.mem ">" v = false →
  extract_img_srcs
    (pre +:+ "<img src=" +:+ String Pat.dquote (v +:+ String Pat.dquote (">" +:+ post)))
  = if Str.is_empty (trim v) then [] else [trim v].
Proof.
  intros Hpre Hpost Hq Hgt.
  unfold extract_img_srcs, extract_in_tags, Ecma.all_matches.
  set (tag := "<img src=" +:+ String Pat.dquote (v +:+ String Pat.dquote ">")).
  set (fin := Regex.MState (Some ">"%char) post []).
  assert (Ecma.search (Pat.tag "img") None
            (pre +:+ "<img src=" +:+ String Pat.dquote (v +:+ String Pat.dquote (">" +:+ post)))
          = Some (tag, fin)) as Hs.
  { rewrite search_tag_skip by done.
    rewrite (search_hit _ _ _ fin []) by (by apply tag_img_match).
    f_equal. f_equal. apply consumed_app. unfold tag, fin. cbn [Regex.start Regex.ms_rest].
    change (String Pat.dquote (">" +:+ post)) with (String Pat.dquote ">" +:+ post).
    rewrite <- str_app_assoc.
    change ("<img src=" +:+ String Pat.dquote ((v +:+ String Pat.dquote ">") +:+ post))
      with (("<img src=" +:+ String Pat.dquote "") +:+ (v +:+ String Pat.dquote ">") +:+ post).
    rewrite <- str_app_assoc. reflexivity. }
  erewrite iterate_one; [| exact Hs | reflexivity |].
  - cbn [fold_left fst app]. unfold tag. rewrite extract_attr_urls_img by done.
    reflexivity.
  - unfold fin. cbn [Regex.ms_prev Regex.ms_rest]. by apply search_tag_none.
Qed.

Lemma extract_img_srcs_one_tag_witness :
  extract_img_srcs
    ("hello " +:+ "<img src=" +:+ String Pat.dquote (" a.png " +:+ String Pat.dquote (">" +:+ " and more")))
  = if Str.is_empty (trim " a.png ") then [] else [trim " a.png "].
Proof.
  apply (extract_img_srcs_one_tag "hello " " a.png " " and more"); reflexivity.
Defined.

(** ** The relative branch of the C port *)

(** C5, at the example of the specification, in the C port: [join_url]
    writes the base directory into the array that still holds the
    reference it is about to append, so the text it appends is read from
    bytes it has just written.  For [../c.png] against [/a/b/index.html]
    the array ends up holding [/a/b//a/b//a/] and the result is
    [http://example.com/a/b/a/b/a], where the specification, and the C++
    spider, give [http://example.com/a/c.png]. *)
Theorem c_join_url_relative_overwrites_href :
  let base := mkUrlParts "http" "example.com" "/a/b/index.html" in
  CJoin.str_at (CJoin.href_buffer "../c.png") (CJoin.ltrim (CJoin.href_buffer "../c.png")) = "../c.png"
  ∧ CUrl.base_dir_from_path (path base) CUrl.PATH_MAX = "/a/b/"
  ∧ CJoin.combined base "../c.png" = "/a/b//a/b//a/"
  ∧ CJoin.join_url base "../c.png" CUrl.PATH_MAX = Some "http://example.com/a/b/a/b/a"
  ∧ join_url base "../c.png" = "http://example.com/a/c.png"
  ∧ scheme base +:+ "://" +:+ host base
      +:+ Spec.normalize_path (Spec.base_directory (path base) +:+ "../c.png")
    = "http://example.com/a/c.png".
Proof.
  cbv zeta. repeat split; vm_compute; reflexivity.
Qed.

(** The other branches of the C [join_url] do not write into the array
    before they read the reference: there the C port returns what the C++
    spider returns. *)
Example c_join_url_other_branches :
  let base := mkUrlParts "http" "example.com" "/a/b/index.html" in
  CJoin.join_url base " /img/logo.png " CUrl.PATH_MAX = Some (join_url base " /img/logo.png ")
  ∧ CJoin.join_url base "//cdn.y.com/x.png" CUrl.PATH_MAX
    = Some (join_url base "//cdn.y.com/x.png")
  ∧ CJoin.join_url base "HTTPS://y.com/a" CUrl.PATH_MAX = Some (join_url base "HTTPS://y.com/a")
  ∧ CJoin.join_url base "  #top" CUrl.PATH_MAX = None
  ∧ CJoin.join_url base "mailto:a@b.c" CUrl.PATH_MAX = None.
Proof.
  cbv zeta. repeat split; vm_compute; reflexivity.
Qed.

(** ** The two extractors on plainly written image tags *)

Section PlainTags.
Import Regex.

Abbreviation src_pat := (Pat.attr "src").

(** *** Positions without a match *)

Lemma regexec_skip r prev c s so :
  matchR r (start prev (String c s)) = [] →
  Posix.regexec_from r prev (String c s) so = Posix.regexec_from r (Some c) s (S so).
Proof. intros H. cbn [Posix.regexec_from]. by rewrite H. Qed.

Lemma src_nomatch_empty prev : matchR src_pat (start prev "") = [].
Proof. by apply attr_src_nomatch. Qed.

(** Both searches pass over text in which no [src] starts. *)
Lemma src_free_skip pre rest : ∀ prev so,
  src_free pre rest = true →
  ∃ prev' so',
    Ecma.search src_pat prev (pre +:+ rest) = Ecma.search src_pat prev' rest
    ∧ Posix.regexec_from src_pat prev (pre +:+ rest) so
      = Posix.regexec_from src_pat prev' rest so'.
Proof.
  induction pre as [|c pre IH]; intros prev so H.
  - exists prev, so. by rewrite str_app_nil_l.
  - cbn [src_free] in H. apply andb_true_iff in H as [Hc Hpre].
    apply negb_true_iff in Hc. unfold starts_with in Hc.
    destruct (IH (Some c) (S so) Hpre) as (prev' & so' & He & Hp).
    exists prev', so'. rewrite str_app_cons.
    rewrite search_skip, regexec_skip by (by apply attr_src_nomatch). done.
Qed.

Lemma src_free_none s prev so :
  src_free s "" = true →
  Ecma.search src_pat prev s = None ∧ Posix.regexec_from src_pat prev s so = None.
Proof.
  intros H. destruct (src_free_skip s "" prev so H) as (prev' & so' & He & Hp).
  rewrite str_app_nil_r in He, Hp. rewrite He, Hp.
  cbn [Ecma.search Posix.regexec_from]. unfold Ecma.first_at.
  by rewrite src_nomatch_empty.
Qed.

(** *** The pieces of the attribute pattern *)

Lemma lit_ci_exact s : ∀ name prev t caps,
  to_lower name = to_lower s →
  ∃ p, matchR (lit_ci s) (MState prev (name +:+ t) caps) = [MState p t caps].
Proof.
  induction s as [|c s IH]; intros name prev t caps H.
  - destruct name; [|discriminate]. rewrite str_app_nil_l. by exists prev.
  - destruct name as [|d name]; [discriminate|].
    unfold to_lower in H. cbn [Str.map] in H. injection H as Hd Hn.
    rewrite str_app_cons. cbn [lit_ci]. rewrite matchR_seq.
    unfold chr_ci at 1. cbn [matchR ms_rest ms_caps]. rewrite Hd, char_eqb_refl.
    cbn [flat_map]. rewrite app_nil_r. by apply IH.
Qed.

(** A greedy run of one kind of character before something that cannot
    start with that kind: only the whole run leads on. *)
Lemma star_chr_flat {B} p (f : mstate → list B) :
  (∀ st c s', ms_rest st = String c s' → p c = true → f st = []) →
  ∀ st, flat_map f (matchR (Star (Chr p)) st) = f (skip p st).
Proof.
  intros Hrej st. destruct st as [prev rest caps]. revert prev.
  induction rest as [|c s' IH]; intros prev.
  - cbn. by rewrite app_nil_r.
  - rewrite star_chr_unfold. cbn [ms_rest ms_caps].
    unfold skip. cbn [ms_rest ms_prev ms_caps skip_prev Str.drop_while].
    destruct (p c) eqn:Hp.
    + rewrite flat_map_app', IH. cbn [flat_map].
      rewrite (Hrej (MState prev (String c s') caps) c s' eq_refl Hp).
      by rewrite !app_nil_r.
    + cbn. by rewrite app_nil_r.
Qed.

Lemma star_group_seq n p r2 :
  rejects r2 p →
  ∀ st, matchR (Seq (Group n (Star (Chr p))) r2) st
        = matchR r2 (set_cap n st (skip p st)).
Proof.
  intros Hrej st. rewrite matchR_seq, matchR_group.
  rewrite flat_map_concat_map, List.map_map, <- flat_map_concat_map.
  apply (star_chr_flat p (fun x => matchR r2 (set_cap n st x))).
  intros st' c s' Hs Hp. by apply (Hrej _ c s').
Qed.

Lemma matchR_chr_hit (p : ascii → bool) prev c s caps :
  p c = true → matchR (Chr p) (MState prev (String c s) caps) = [MState (Some c) s caps].
Proof. intros H. cbn [matchR ms_rest ms_caps]. by rewrite H. Qed.

Lemma matchR_chr_miss (p : ascii → bool) prev c s caps :
  p c = false → matchR (Chr p) (MState prev (String c s) caps) = [].
Proof. intros H. cbn [matchR ms_rest ms_caps]. by rewrite H. Qed.

Lemma flat_map_one {A B} (f : A → list B) x : flat_map f [x] = f x.
Proof. cbn [flat_map]. apply app_nil_r. Qed.

(** A value between quotes [q], read by the alternative for [q]. *)
Lemma quoted_match q n prev v post caps :
  Str.mem q v = false →
  matchR (Seq (chr q) (Seq (Group n (Star (Chr (fun c => negb (Char.eqb c q))))) (chr q)))
         (MState prev (String q (v +:+ String q post)) caps)
  = [MState (Some q) post ((n, v) :: caps)].
Proof.
  intros Hv. unfold chr. rewrite matchR_seq.
  rewrite matchR_chr_hit by apply char_eqb_refl. rewrite flat_map_one.
  rewrite star_group_seq.
  2:{ apply rejects_chr. intros c Hc. apply negb_true_iff in Hc.
      by rewrite char_eqb_sym. }
  set (st3 := MState (Some q) (v +:+ String q post) caps).
  assert (ms_rest (skip (fun c => negb (Char.eqb c q)) st3) = String q post) as Hr.
  { unfold skip, st3. cbn [ms_rest].
    apply drop_while_all_stop; [by apply mem_all_not|]. right.
    cbn [Str.front]. by rewrite char_eqb_refl. }
  assert (consumed st3 (skip (fun c => negb (Char.eqb c q)) st3) = v) as Hc
    by (apply consumed_app; by rewrite Hr).
  unfold set_cap. rewrite Hr, Hc. apply matchR_chr_hit, char_eqb_refl.
Qed.

(** The alternative for a quote has no match on another first character. *)
Lemma quoted_nomatch q r prev c s caps :
  Char.eqb q c = false →
  matchR (Seq (chr q) r) (MState prev (String c s) caps) = [].
Proof. intros H. unfold chr. by rewrite matchR_seq, matchR_chr_miss. Qed.

(** What an unquoted run can take stops before what ends a value. *)
Lemma bare_prefix_bound x : ∀ r t post,
  all_chars bare x = true → x +:+ r = t +:+ post → ends_value post = true →
  String.length post ≤ String.length r.
Proof.
  induction x as [|c x IH]; intros r t post Hx He Hp.
  - rewrite str_app_nil_l in He. subst r. rewrite str_length_app. lia.
  - cbn [all_chars] in Hx. apply andb_true_iff in Hx as [Hc Hx].
    rewrite str_app_cons in He. destruct t as [|d t].
    + rewrite str_app_nil_l in He. subst post. cbn [ends_value] in Hp.
      by rewrite Hc in Hp.
    + rewrite str_app_cons in He. injection He as _ He. by apply (IH r t post).
Qed.

Lemma plus_bare_rest st y t post :
  In y (matchR (Plus (Chr bare)) st) →
  ms_rest st = t +:+ post → ends_value post = true →
  String.length post ≤ String.length (ms_rest y).
Proof.
  unfold Plus. intros (c & s' & Hr & Hc & Hy)%in_chr_seq Hst Hp.
  apply star_chr_in in Hy as (x & Hx & Hall & _). cbn [ms_rest] in Hx.
  apply (bare_prefix_bound (String c x) _ t post); [|by rewrite str_app_cons, <- Hx, <- Hr|done].
  cbn [all_chars]. by rewrite Hc, Hall.
Qed.

Lemma plus_bare_head prev c v' post caps :
  bare c = true → all_chars bare v' = true → ends_value post = true →
  ∃ p l, matchR (Plus (Chr bare)) (MState prev (String c (v' +:+ post)) caps)
         = MState p post caps :: l.
Proof.
  intros Hc Hv Hp. unfold Plus. rewrite matchR_seq.
  rewrite matchR_chr_hit by done. rewrite flat_map_one.
  destruct (head_star_chr bare (MState (Some c) (v' +:+ post) caps)) as [l Hl].
  rewrite Hl. unfold skip. cbn [ms_rest ms_prev ms_caps].
  rewrite drop_while_all_stop; [by eauto | done |].
  destruct post as [|d post]; [by left|]. right. cbn [ends_value Str.front] in *.
  by apply negb_true_iff in Hp.
Qed.

(** The three alternatives of the value. *)
Abbreviation alts :=
  (Alt (Seq (chr Pat.dquote)
            (Seq (Group 2 (Star (Chr (fun c => negb (Char.eqb c Pat.dquote)))))
                 (chr Pat.dquote)))
       (Alt (Seq (chr Pat.squote)
                 (Seq (Group 3 (Star (Chr (fun c => negb (Char.eqb c Pat.squote)))))
                      (chr Pat.squote)))
            (Group 4 (Plus (Chr (fun c => negb (Char.isspace c || Char.eqb c ">"%char))))))).

(** On a written value the preferred match of the alternatives ends
    after the value and has the value as its one group; no other match
    of them ends later. *)
Lemma alts_match prev txt v post :
  written txt v → ends_value post = true →
  ∃ m0 l0 k,
    matchR alts (MState prev (txt +:+ post) []) = m0 :: l0
    ∧ ms_rest m0 = post ∧ ms_caps m0 = [(k, v)] ∧ (k = 2 ∨ k = 3 ∨ k = 4)
    ∧ ∀ y, In y l0 → String.length post ≤ String.length (ms_rest y).
Proof.
  intros Hw Hp.
  set (st := MState prev (txt +:+ post) []).
  assert (∀ y, In y (matchR (Group 4 (Plus (Chr bare))) st) →
               String.length post ≤ String.length (ms_rest y)) as Hb.
  { intros y (y' & Hy' & ->)%in_group. cbn [set_cap ms_rest].
    by apply (plus_bare_rest st y' txt post). }
  change (matchR alts st)
    with (matchR (Seq (chr Pat.dquote)
                      (Seq (Group 2 (Star (Chr (fun c => negb (Char.eqb c Pat.dquote)))))
                           (chr Pat.dquote))) st
          ++ matchR (Seq (chr Pat.squote)
                      (Seq (Group 3 (Star (Chr (fun c => negb (Char.eqb c Pat.squote)))))
                           (chr Pat.squote))) st
          ++ matchR (Group 4 (Plus (Chr bare))) st).
  destruct Hw as [v Hv | v Hv | v Hne Hall Hd Hs].
  - unfold st at 1 2.
    assert (String Pat.dquote (v +:+ String Pat.dquote "") +:+ post
            = String Pat.dquote (v +:+ String Pat.dquote post)) as ->
      by (by rewrite str_app_cons, str_app_assoc).
    rewrite (quoted_match Pat.dquote 2) by done.
    rewrite (quoted_nomatch Pat.squote) by reflexivity.
    eexists _, _, 2. split; [reflexivity|]. repeat split; [by left|]. exact Hb.
  - unfold st at 1 2.
    assert (String Pat.squote (v +:+ String Pat.squote "") +:+ post
            = String Pat.squote (v +:+ String Pat.squote post)) as ->
      by (by rewrite str_app_cons, str_app_assoc).
    rewrite (quoted_nomatch Pat.dquote) by reflexivity.
    rewrite (quoted_match Pat.squote 3) by done.
    eexists _, _, 3. split; [reflexivity|]. repeat split; [by right; left|]. exact Hb.
  - destruct v as [|c v']; [done|]. cbn [Str.front all_chars] in *.
    apply andb_true_iff in Hall as [Hc Hall].
    unfold st at 1 2. rewrite str_app_cons.
    rewrite (quoted_nomatch Pat.dquote), (quoted_nomatch Pat.squote) by done.
    cbn [app].
    destruct (plus_bare_head prev c v' post [] Hc Hall Hp) as (p & l & Hl).
    assert (matchR (Group 4 (Plus (Chr bare))) st
            = set_cap 4 st (MState p post []) :: List.map (set_cap 4 st) l) as Hg.
    { assert (matchR (Plus (Chr bare)) st = MState p post [] :: l) as Hl'
        by (unfold st; rewrite str_app_cons; exact Hl).
      rewrite matchR_group, Hl'. reflexivity. }
    rewrite Hg in Hb |- *.
    assert (consumed st (MState p post []) = String c v') as Hcons
      by (apply consumed_app; unfold st; cbn [ms_rest]; by rewrite str_app_cons).
    eexists _, _, 4. split; [reflexivity|]. unfold set_cap. cbn [ms_rest ms_caps].
    rewrite Hcons. repeat split; [by right; right|].
    intros y Hy. apply Hb. by right.
Qed.

Lemma written_front txt v post :
  written txt v → Char.isspace (Str.front (txt +:+ post)) = false.
Proof.
  intros [v' _ | v' _ | v' Hne Hall _ _]; try reflexivity.
  destruct v' as [|c v']; [done|]. rewrite str_app_cons. cbn [Str.front all_chars] in *.
  apply andb_true_iff in Hall as [Hc _]. unfold bare in Hc.
  apply negb_true_iff, orb_false_iff in Hc. tauto.
Qed.

Lemma rejects_alt r1 r2 p : rejects r1 p → rejects r2 p → rejects (Alt r1 r2) p.
Proof.
  intros H1 H2 st c s' Hs Hp. cbn [matchR].
  by rewrite (H1 st c s' Hs Hp), (H2 st c s' Hs Hp).
Qed.

Lemma rejects_value_space : rejects (Group 1 alts) Char.isspace.
Proof.
  apply rejects_group, rejects_alt; [|apply rejects_alt].
  - apply rejects_chr_seq. intros c Hc. apply char_eqb_neq. intros <-. discriminate Hc.
  - apply rejects_chr_seq. intros c Hc. apply char_eqb_neq. intros <-. discriminate Hc.
  - apply rejects_group. unfold Plus. apply rejects_chr_seq.
    intros c Hc. by rewrite Hc.
Qed.

(** *** The attribute pattern on a plainly written attribute *)

(** The matches of the pattern at the attribute: the preferred one ends
    after the value and carries it, and none ends later. *)
Lemma src_match prev name ws1 ws2 txt v post :
  to_lower name = "src" →
  all_chars Char.isspace ws1 = true → all_chars Char.isspace ws2 = true →
  written txt v → ends_value post = true →
  ∃ m l k,
    matchR src_pat (start prev (name +:+ ws1 +:+ "=" +:+ ws2 +:+ txt +:+ post)) = m :: l
    ∧ ms_rest m = post
    ∧ (∃ t1, ms_caps m = [(1, t1); (k, v)]) ∧ (k = 2 ∨ k = 3 ∨ k = 4)
    ∧ ∀ y, In y l → String.length post ≤ String.length (ms_rest y).
Proof.
  intros Hn H1 H2 Hw Hp. unfold Pat.attr, space, start.
  destruct (lit_ci_exact "src" name prev (ws1 +:+ "=" +:+ ws2 +:+ txt +:+ post) [] Hn)
    as [p1 Hlit].
  rewrite matchR_seq, Hlit, flat_map_one.
  rewrite star_chr_seq by (apply rejects_chr_seq; intros c Hc; apply char_eqb_neq;
                           intros <-; discriminate Hc).
  unfold skip at 1. cbn [ms_rest ms_prev ms_caps].
  rewrite (drop_while_all_stop Char.isspace ws1) by (done || (right; reflexivity)).
  change ("=" +:+ ws2 +:+ txt +:+ post) with (String "=" (ws2 +:+ txt +:+ post)).
  unfold chr at 1. rewrite matchR_seq.
  rewrite matchR_chr_hit by apply char_eqb_refl. rewrite flat_map_one.
  rewrite star_chr_seq by apply rejects_value_space.
  unfold skip at 1. cbn [ms_rest ms_prev ms_caps].
  rewrite (drop_while_all_stop Char.isspace ws2)
    by (done || (right; by apply (written_front txt v))).
  set (p2 := skip_prev Char.isspace (Some "="%char) (ws2 +:+ txt +:+ post)).
  destruct (alts_match p2 txt v post Hw Hp) as (m0 & l0 & k & Hm & Hr & Hc & Hk & Hb).
  rewrite matchR_group, Hm. cbn [List.map].
  set (st2 := MState p2 (txt +:+ post) []).
  exists (set_cap 1 st2 m0), (List.map (set_cap 1 st2) l0), k.
  split; [reflexivity|]. split; [exact Hr|]. split.
  - exists (consumed st2 m0). unfold set_cap. cbn [ms_caps]. by rewrite Hc.
  - split; [exact Hk|]. intros y (y' & <- & Hy')%in_map_iff. cbn [set_cap ms_rest].
    by apply Hb.
Qed.

Lemma longest_head x l :
  (∀ y, In y l → String.length (ms_rest x) ≤ String.length (ms_rest y)) →
  Posix.longest (x :: l) = Some x.
Proof.
  unfold Posix.longest. cbn [fold_left Posix.longer].
  induction l as [|y l IH]; intros H; [reflexivity|].
  cbn [fold_left Posix.longer].
  rewrite (proj2 (Nat.ltb_ge _ _)) by (apply H; by left).
  apply IH. intros z Hz. apply H. by right.
Qed.

Lemma caps_value t1 k v :
  k = 2 ∨ k = 3 ∨ k = 4 →
  attr_value (MState None "" [(1, t1); (k, v)]) = v
  ∧ match Regex.cap 2 (MState None "" [(1, t1); (k, v)]) with
    | Some v' => Some v'
    | None =>
        match Regex.cap 3 (MState None "" [(1, t1); (k, v)]) with
        | Some v' => Some v'
        | None => Regex.cap 4 (MState None "" [(1, t1); (k, v)])
        end
    end = Some v.
Proof. intros [-> | [-> | ->]]; split; reflexivity. Qed.

(** What the two extractors take from a plain tag. *)
Lemma plain_tag_values tag o :
  plain_tag tag o →
  C.tag_attr_value "src" tag = kept o ∧ extract_attr_urls tag "src" = kept o.
Proof.
  intros [tag' Hfree | pre name ws1 ws2 txt v post Hn H1 H2 Hw Hp Hpre Hpost].
  - destruct (src_free_none tag' None 0 Hfree) as [He Hx]. split.
    + unfold C.tag_attr_value, Posix.regexec. by rewrite Hx.
    + unfold extract_attr_urls, Ecma.all_matches. cbn [Ecma.iterate]. by rewrite He.
  - set (body := name +:+ ws1 +:+ "=" +:+ ws2 +:+ txt +:+ post) in *.
    destruct (src_free_skip pre body None 0 Hpre) as (prev' & so' & He & Hx).
    destruct (src_match prev' name ws1 ws2 txt v post Hn H1 H2 Hw Hp)
      as (m & l & k & Hm & Hr & [t1 Hc] & Hk & Hb).
    fold body in Hm.
    assert (attr_value m = v
            ∧ match Regex.cap 2 m with
              | Some v' => Some v'
              | None => match Regex.cap 3 m with
                        | Some v' => Some v'
                        | None => Regex.cap 4 m
                        end
              end = Some v) as [Hav Hcv].
    { destruct (caps_value t1 k v Hk) as [Ha Hb'].
      unfold attr_value, Regex.cap in *. cbn [ms_caps] in Ha, Hb'. rewrite Hc. by split. }
    split.
    + unfold C.tag_attr_value, Posix.regexec. rewrite Hx.
      assert (Posix.regexec_from src_pat prev' body so'
              = Some (so', consumed (start prev' body) m, m)) as ->.
      { destruct body; cbn [Posix.regexec_from]; rewrite Hm, longest_head; try done;
          rewrite Hr; exact Hb. }
      rewrite Hcv. unfold kept, push_trimmed. rewrite trim_rtrim_ltrim.
      destruct v as [|c v]; [reflexivity|]. cbn [Str.is_empty].
      by destruct (Str.is_empty (C.rtrim (C.ltrim (String c v)))).
    + unfold extract_attr_urls, Ecma.all_matches.
      erewrite iterate_one.
      * cbn [fold_left snd]. by rewrite Hav.
      * rewrite He. by apply (search_hit _ _ _ m l).
      * apply consumed_nonempty. rewrite Hr. cbn [start ms_rest]. unfold body.
        destruct name as [|d name]; [discriminate|].
        rewrite str_app_cons. cbn [String.length]. rewrite !str_length_app. lia.
      * rewrite Hr. by apply (src_free_none post _ 0).
Qed.

Lemma plain_tags_values tags vs :
  Forall2 plain_tag tags vs →
  flat_map (C.tag_attr_value "src") tags = flat_map kept vs
  ∧ flat_map (fun tag => extract_attr_urls tag "src") tags = flat_map kept vs.
Proof.
  induction 1 as [|tag o tags vs Htag _ [IH1 IH2]]; [done|].
  destruct (plain_tag_values tag o Htag) as [H1 H2].
  cbn [flat_map]. by rewrite H1, H2, IH1, IH2.
Qed.

End PlainTags.

(** C10, amended: on HTML without a NUL byte the two extractors walk the
    same [img] tag spans in the same order, each result being made, span
    by span, of what that extractor takes from the span.  When all the
    spans are plain (no [src] in the span, or one attribute [src = value]
    with the value between double quotes, between single quotes or bare,
    ended by nothing, white space or [>], and no other [src] before the
    attribute or after the value), the two extractors return the same
    sequence: the values of the spans in order, each trimmed, blank ones
    left out. *)
Theorem extractors_agree_on_plain_tags (html : string) :
  C.c_str html = html →
  let tags := fst <$> Ecma.all_matches (Pat.tag "img") html in
  (C.extract_tag_attrs html "img" "src" [] = flat_map (C.tag_attr_value "src") tags
   ∧ extract_img_srcs html = flat_map (fun tag => extract_attr_urls tag "src") tags)
  ∧ ∀ vs : list (option string),
      Forall2 plain_tag tags vs →
      C.extract_tag_attrs html "img" "src" [] = flat_map kept vs
      ∧ extract_img_srcs html = flat_map kept vs.
Proof.
  intros Hnul tags.
  destruct (extractors_per_tag html Hnul) as [HC HCpp].
  split; [by split|]. intros vs Hplain. rewrite HC, HCpp.
  by apply plain_tags_values.
Qed.

Lemma extractors_agree_on_plain_tags_witness :
  C.extract_tag_attrs
    "<p><img alt=x SRC = ' a.png ' ><IMG class=c src=b.jpg><img alt=none></p>"
    "img" "src" []
  = flat_map kept [Some " a.png "; Some "b.jpg"; None]
  ∧ extract_img_srcs
      "<p><img alt=x SRC = ' a.png ' ><IMG class=c src=b.jpg><img alt=none></p>"
    = flat_map kept [Some " a.png "; Some "b.jpg"; None].
Proof.
  apply (extractors_agree_on_plain_tags
           "<p><img alt=x SRC = ' a.png ' ><IMG class=c src=b.jpg><img alt=none></p>").
  - vm_compute. reflexivity.
  - assert (fst <$> Ecma.all_matches (Pat.tag "img")
              "<p><img alt=x SRC = ' a.png ' ><IMG class=c src=b.jpg><img alt=none></p>"
            = ["<img alt=x SRC = ' a.png ' >"; "<IMG class=c src=b.jpg>"; "<img alt=none>"])
      as -> by (vm_compute; reflexivity).
    constructor; [|constructor; [|constructor; [|constructor]]].
    + apply (plain_one "<img alt=x " "SRC" " " " " "' a.png '" " a.png " " >");
        try reflexivity.
      apply (written_sq " a.png "). reflexivity.
    + apply (plain_one "<IMG class=c " "src" "" "" "b.jpg" "b.jpg" ">");
        try reflexivity.
      apply (written_bare "b.jpg"); [discriminate | reflexivity..].
    + apply plain_none. reflexivity.
Defined.
